(** * iptsd: the IPTS device transport and the touch emitter

    A shallow embedding of [src/ipts/control.cpp] (class [IptsControl]) and of
    the daemon's touch device (class [TouchDevice]), with the properties of
    the specification stated over it.

    Both classes are imperative: they mutate their own fields, talk to the
    outside (ioctls on the device nodes, events written to the uinput
    device) and may leave by a C++ exception.  They are modelled in one small
    monad: a computation takes the state, and yields its outcome (a value or
    the exception thrown), the state at that point and the trace of what it
    did to the outside, in order.  What was written before an exception stays
    written. *)

From Stdlib Require Import String ZArith NArith List Bool Lia Sorted.
From Stdlib Require Import Floats.
From Stdlib Require DecimalString Permutation.
Import ListNotations.
Open Scope Z_scope.

(* ================================================================== *)
(** ** State, exceptions and traces *)

Module Effects.

Section Monad.
Context {X S E : Type}.

(** The outcome of a run: [inl x] is the exception [x] propagating. *)
Record Res (A : Type) : Type := mkRes
  { res : X + A; st : S; out : list E }.

Arguments mkRes {A}.
Arguments res {A}.
Arguments st {A}.
Arguments out {A}.

Definition M (A : Type) : Type := S -> Res A.

Definition ret {A} (a : A) : M A := fun s => mkRes (inr a) s [].

Definition throw {A} (x : X) : M A := fun s => mkRes (inl x) s [].

Definition bind {A B} (m : M A) (f : A -> M B) : M B := fun s =>
  let r := m s in
  match res r with
  | inl x => mkRes (inl x) (st r) (out r)
  | inr a => let r' := f a (st r) in
             mkRes (res r') (st r') (out r ++ out r')
  end.

Definition get : M S := fun s => mkRes (inr s) s [].

Definition modify (f : S -> S) : M unit := fun s => mkRes (inr tt) (f s) [].

Definition tell (e : E) : M unit := fun s => mkRes (inr tt) s [e].

(** A range-based [for] whose body neither breaks nor returns. *)
Fixpoint for_each {A} (l : list A) (body : A -> M unit) : M unit :=
  match l with
  | [] => ret tt
  | a :: t => bind (body a) (fun _ => for_each t body)
  end.

(** A computation is [quiet] for a relation on states and a class of
    traces when every run, normal or exceptional, stays inside both. *)
Definition quiet (I : S -> S -> Prop) (Q : list E -> Prop) {A} (m : M A) : Prop :=
  forall s, I s (st (m s)) /\ Q (out (m s)).

(** It [returns] on the states of [G] when, started in one, it returns
    normally, with a value in [P] and in a state of [G]. *)
Definition returns (G : S -> Prop) {A} (m : M A) (P : A -> Prop) : Prop :=
  forall s, G s -> exists a, res (m s) = inr a /\ P a /\ G (st (m s)).

(** A loop whose body either writes a block of events and goes on, or
    throws before it has written anything: whether the loop gets through,
    and what it has written when it ends. *)
Fixpoint run_blocks {A} (blk : A -> option (list E)) (l : list A) : bool * list E :=
  match l with
  | [] => (true, [])
  | a :: t =>
      match blk a with
      | None => (false, [])
      | Some evs => (fst (run_blocks blk t), evs ++ snd (run_blocks blk t))
      end
  end.

End Monad.

Arguments Res : clear implicits.
Arguments M : clear implicits.
Arguments mkRes {X S E A}.
Arguments res {X S E A}.
Arguments st {X S E A}.
Arguments out {X S E A}.

End Effects.

Import Effects.

Declare Scope eff_scope.
Delimit Scope eff_scope with eff.
Notation "x <- m ;; k" := (bind m (fun x => k))
  (at level 61, m at next level, right associativity) : eff_scope.
Notation "m ;; k" := (bind m (fun _ => k))
  (at level 61, right associativity) : eff_scope.
Open Scope eff_scope.

(** Unsigned [w]-bit wrap-around. *)
Definition wrap (w : Z) (z : Z) : Z := z mod 2 ^ w.

(* ================================================================== *)
(** ** The device transport: [src/ipts/control.cpp] *)

Module Control.

(** The ioctl requests of [ipts.h]. *)
Inductive ioctl_request : Type :=
| IPTS_IOCTL_GET_DEVICE_READY
| IPTS_IOCTL_GET_DEVICE_INFO
| IPTS_IOCTL_GET_DOORBELL
| IPTS_IOCTL_SEND_FEEDBACK
| IPTS_IOCTL_SEND_RESET.

(** [ipts.h] is not part of the sources at hand: the depth of the buffer
    ring is a parameter.  It divides in [current], so it is positive. *)
Class ipts_h : Type := { IPTS_BUFFERS : positive }.

(** The kernel side is an arbitrary machine [K].  An ioctl on a file
    descriptor answers with its return value and the integer it stored
    through the argument pointer (meaningful for GET_DEVICE_READY and
    GET_DOORBELL only), and moves the kernel on; so does a read, which
    answers with its return value. *)
Class KernelModel (K : Type) : Type :=
  { kernel_ioctl : Z -> ioctl_request -> K -> (Z * Z) * K;
    kernel_read : Z -> Z -> K -> Z * K }.

(** What the transport does to the outside, with the answers it got. *)
Inductive syscall : Type :=
| sys_ioctl (fd : Z) (req : ioctl_request) (ret arg : Z)
| sys_read (fd : Z) (count : Z) (ret : Z)
| sys_sleep (seconds : Z).

Inductive exn : Type :=
| cerror (msg : string)
| out_of_range.

(** The fields of [IptsControl].  [info] is left out: only the constructor's
    [get_device_info] writes it and nothing modelled here reads it. *)
Record IptsControl : Type := mkIptsControl
  { current_doorbell : Z;       (* u32 *)
    files : list Z }.           (* std::array<int, IPTS_BUFFERS> *)

Record Machine (K : Type) : Type := mkMachine
  { self : IptsControl; kernel : K }.

Arguments mkMachine {K}.
Arguments self {K}.
Arguments kernel {K}.

Section Transport.
Context {K : Type} {KM : KernelModel K} {H : ipts_h}.

Definition T (A : Type) : Type := M exn (Machine K) syscall A.

Definition ioctl (fd : Z) (req : ioctl_request) : T (Z * Z) := fun m =>
  let '(r, k') := kernel_ioctl fd req (kernel m) in
  mkRes (inr r) (mkMachine (self m) k') [sys_ioctl fd req (fst r) (snd r)].

Definition sys_read_call (fd count : Z) : T Z := fun m =>
  let '(r, k') := kernel_read fd count (kernel m) in
  mkRes (inr r) (mkMachine (self m) k') [sys_read fd count r].

Definition sleep (seconds : Z) : T unit := tell (sys_sleep seconds).

(** [std::array::at]: a checked access. *)
Definition array_at (a : list Z) (i : Z) : T Z :=
  if i <? 0 then throw out_of_range
  else match nth_error a (Z.to_nat i) with
       | Some v => ret v
       | None => throw out_of_range
       end.

Definition set_doorbell (d : Z) (m : Machine K) : Machine K :=
  mkMachine (mkIptsControl d (files (self m))) (kernel m).

Definition current : T Z :=
  m <- get ;;
  array_at (files (self m)) (current_doorbell (self m) mod Z.pos IPTS_BUFFERS).

Definition ready : T bool :=
  fd <- current ;;
  r <- ioctl fd IPTS_IOCTL_GET_DEVICE_READY ;;
  if fst r =? -1 then ret false
  else ret (0 <? wrap 8 (snd r)).

(** The loop of [wait_for_device], [n] iterations left. *)
Fixpoint wait_loop (n : nat) : T unit :=
  match n with
  | O => ret tt
  | S n' => r <- ready ;;
            if r then ret tt            (* break *)
            else sleep 1 ;; wait_loop n'
  end.

Definition wait_for_device : T unit := wait_loop 5.

(** [send_feedback(int file)] *)
Definition send_feedback_file (file : Z) : T unit :=
  wait_for_device ;;
  r <- ioctl file IPTS_IOCTL_SEND_FEEDBACK ;;
  if fst r =? -1 then throw (cerror "Failed to send feedback")
  else ret tt.

(** [send_feedback()] *)
Definition send_feedback : T unit :=
  file <- current ;;
  send_feedback_file file ;;
  modify (fun m => set_doorbell (wrap 32 (current_doorbell (self m) + 1)) m).

Definition flush : T unit :=
  for_each (seq 0 (Pos.to_nat IPTS_BUFFERS)) (fun i =>
    m <- get ;;
    file <- array_at (files (self m)) (Z.of_nat i) ;;
    send_feedback_file file).

Definition doorbell : T Z :=
  wait_for_device ;;
  fd <- current ;;
  r <- ioctl fd IPTS_IOCTL_GET_DOORBELL ;;
  if fst r =? -1 then throw (cerror "Failed to get doorbell")
  else
    let doorbell := wrap 32 (snd r) in
    m <- get ;;
    (if doorbell <? current_doorbell (self m)
     then flush ;; modify (set_doorbell doorbell)
     else ret tt) ;;
    ret doorbell.

Definition read (count : Z) : T Z :=
  wait_for_device ;;
  fd <- current ;;
  r <- sys_read_call fd count ;;
  if r =? -1 then throw (cerror "Failed to read from buffer")
  else ret r.

Definition reset : T unit :=
  wait_for_device ;;
  fd <- current ;;
  r <- ioctl fd IPTS_IOCTL_SEND_RESET ;;
  if fst r =? -1 then throw (cerror "Failed to reset IPTS")
  else ret tt.

(** The body of the loop of [flush], by itself. *)
Definition flush_step (i : nat) : T unit :=
  m <- get ;;
  file <- array_at (files (self m)) (Z.of_nat i) ;;
  send_feedback_file file.

End Transport.

(** Reading a trace: the buffers whose feedback ioctl went through, in
    order, and the doorbell values the device handed out. *)
Fixpoint feedbacks (tr : list syscall) : list Z :=
  match tr with
  | [] => []
  | sys_ioctl fd IPTS_IOCTL_SEND_FEEDBACK r _ :: t =>
      if r =? -1 then feedbacks t else fd :: feedbacks t
  | _ :: t => feedbacks t
  end.

Fixpoint doorbell_reads (tr : list syscall) : list Z :=
  match tr with
  | [] => []
  | sys_ioctl _ IPTS_IOCTL_GET_DOORBELL r v :: t =>
      if r =? -1 then doorbell_reads t else wrap 32 v :: doorbell_reads t
  | _ :: t => doorbell_reads t
  end.

(** What the class keeps by construction: a u32 counter and exactly
    [IPTS_BUFFERS] descriptors. *)
Definition well_formed {H : ipts_h} (c : IptsControl) : Prop :=
  0 <= current_doorbell c < 2 ^ 32 /\
  length (files c) = Pos.to_nat IPTS_BUFFERS.

(** A kernel none of whose calls fails. *)
Definition never_fails {K} {KM : KernelModel K} : Prop :=
  (forall fd req k, fst (fst (kernel_ioctl fd req k)) <> -1) /\
  (forall fd n k, fst (kernel_read fd n k) <> -1).

Definition fields_ok {K} {H : ipts_h} (m : Machine K) : Prop :=
  well_formed (self m).

(** A computation keeps the fields in their types, however it ends. *)
Definition keeps_fields {K A} {H : ipts_h} (m : M exn (Machine K) syscall A) : Prop :=
  quiet (fun s s' : Machine K => fields_ok s -> fields_ok s') (fun _ => True) m.

(** A computation is silent when it leaves the object's fields alone and
    neither acknowledges a buffer nor reads the doorbell. *)
Definition silent {K A} (m : M exn (Machine K) syscall A) : Prop :=
  quiet (fun s s' : Machine K => self s' = self s)
        (fun tr => feedbacks tr = [] /\ doorbell_reads tr = []) m.

End Control.

(* ================================================================== *)
(** ** IEEE doubles and the narrowing conversions *)

Module F64.

Definition f64 : Type := float.

(** An [int] constant used in a [double] expression. *)
Definition of_int (z : Z) : f64 :=
  if z <? 0 then PrimFloat.opp (PrimFloat.of_uint63 (Uint63.of_Z (- z)))
  else PrimFloat.of_uint63 (Uint63.of_Z z).

(** [std::round]: to the nearest integral double, halfway cases away from
    zero.  A double [m * 2^e] with [0 <= e] is integral already; otherwise
    the integer part is [m >> -e] and the bit below it says whether the
    fraction reaches one half.  The sign is kept, also on a zero result. *)
Definition round (d : f64) : f64 :=
  match Prim2SF d with
  | S754_finite s m e =>
      if 0 <=? e then d
      else
        let k := - e in
        let q := Z.shiftr (Z.pos m) k in
        let n := if Z.testbit (Z.pos m) (k - 1) then q + 1 else q in
        if s then PrimFloat.opp (of_int n) else of_int n
  | _ => d
  end.

(** The integer an integral double denotes; [None] for a fraction, an
    infinity or a NaN. *)
Definition integral (d : f64) : option Z :=
  match Prim2SF d with
  | S754_zero _ => Some 0
  | S754_finite s m e =>
      let mag :=
        if 0 <=? e then Some (Z.shiftl (Z.pos m) e)
        else if Z.land (Z.pos m) (Z.ones (- e)) =? 0
             then Some (Z.shiftr (Z.pos m) (- e))
             else None in
      match mag with
      | Some v => Some (if s then - v else v)
      | None => None
      end
  | _ => None
  end.

Definition INT32_MAX : Z := 2147483647.
Definition INT32_MIN : Z := -2147483648.

(** [gsl::narrow<i32>(double)]: the value as an [i32] when the conversion
    loses nothing, [None] where it throws [narrowing_error]. *)
Definition narrow_i32 (d : f64) : option Z :=
  match integral d with
  | Some z => if (INT32_MIN <=? z) && (z <=? INT32_MAX) then Some z else None
  | None => None
  end.

(** [std::max] and [std::min], as Eigen's [maxCoeff] and [minCoeff] fold
    them over a vector of two. *)
Definition max (a b : f64) : f64 := if PrimFloat.ltb a b then b else a.
Definition min (a b : f64) : f64 := if PrimFloat.ltb b a then b else a.

(** *** What the conversions are specified to do

    Against these the definitions above are proved right, on every
    double. *)

(** The value of a finite double, as a signed mantissa and a binary
    exponent: the double is [M * 2^e].  [None] for an infinity or a NaN. *)
Definition exact (d : f64) : option (Z * Z) :=
  match Prim2SF d with
  | S754_zero _ => Some (0, 0)
  | S754_finite s m e => Some (if s then Z.neg m else Z.pos m, e)
  | _ => None
  end.

(** [z] is the number [M * 2^e]. *)
Definition is_value (M e z : Z) : Prop :=
  if 0 <=? e then z = M * 2 ^ e else M = z * 2 ^ (- e).

(** [z] is the integer nearest to [M * 2^e], the halfway cases going away
    from zero: what [std::round] is specified to return. *)
Definition nearest_away (M e z : Z) : Prop :=
  if 0 <=? e then z = M * 2 ^ e
  else 2 * Z.abs (z * 2 ^ (- e) - M) <= 2 ^ (- e) /\
       (2 * Z.abs (z * 2 ^ (- e) - M) = 2 ^ (- e) ->
        Z.abs M < Z.abs (z * 2 ^ (- e))).

(** The double [d] is finite and its value is the integer [z]. *)
Definition denotes (d : f64) (z : Z) : Prop :=
  exists M e, exact d = Some (M, e) /\ is_value M e z.

(** The double [d] is finite and [z] is the integer nearest to its value,
    halfway cases away from zero. *)
Definition rounds_to (d : f64) (z : Z) : Prop :=
  exists M e, exact d = Some (M, e) /\ nearest_away M e z.

(** [z] is [d] rounded so, and is an [i32]: the value
    [gsl::narrow<i32>(std::round(d))] is to have when it returns. *)
Definition rounded_i32 (d : f64) (z : Z) : Prop :=
  rounds_to d z /\ INT32_MIN <= z <= INT32_MAX.

End F64.

(* ================================================================== *)
(** ** [std::set<usize>]: a strictly ascending list *)

Module StdSet.

Definition t : Type := list N.

Fixpoint insert (x : N) (s : t) : t :=
  match s with
  | [] => [x]
  | y :: r => if (x <? y)%N then x :: s
              else if (x =? y)%N then s
              else y :: insert x r
  end.

(** [s.find(x) != s.cend()] *)
Fixpoint find (x : N) (s : t) : bool :=
  match s with
  | [] => false
  | y :: r => if (x =? y)%N then true else find x r
  end.

(** [std::set_difference] over two ascending ranges: the sequence it writes
    to its output iterator. *)
Fixpoint set_difference (a : list N) : list N -> list N :=
  match a with
  | [] => fun _ => []
  | x :: a' =>
      fix scan (b : list N) : list N :=
        match b with
        | [] => x :: a'
        | y :: b' =>
            if (x <? y)%N then x :: set_difference a' b
            else if (y <? x)%N then scan b'
            else set_difference a' b'
        end
  end.

(** [std::inserter(s, s.begin())] fed a sequence: every element is inserted
    into the set. *)
Definition inserter (s : t) (xs : list N) : t :=
  fold_left (fun acc x => insert x acc) xs s.

Definition ascending (s : t) : Prop := StronglySorted N.lt s.

End StdSet.

(* ================================================================== *)
(** ** The touch device: class [TouchDevice] *)

Module Touch.

Import F64.

(** Event types and codes of [linux/input-event-codes.h] that the class
    uses. *)
Inductive ev_type : Type := EV_SYN | EV_KEY | EV_ABS.

Inductive ev_code : Type :=
| SYN_REPORT
| BTN_TOUCH
| ABS_X
| ABS_Y
| ABS_MT_SLOT
| ABS_MT_TRACKING_ID
| ABS_MT_POSITION_X
| ABS_MT_POSITION_Y
| ABS_MT_ORIENTATION
| ABS_MT_TOUCH_MAJOR
| ABS_MT_TOUCH_MINOR.

(** One [m_uinput->emit(type, code, value)]. *)
Record input_event : Type := Event
  { type : ev_type; code : ev_code; value : Z }.

Inductive exn : Type := narrowing_error.

Record Vector2 : Type := mkVector2 { x : f64; y : f64 }.

Definition maxCoeff (v : Vector2) : f64 := F64.max (x v) (y v).
Definition minCoeff (v : Vector2) : f64 := F64.min (x v) (y v).

(** Modelled from the spec: [contacts/contact.hpp] is not among the sources.
    A contact has the fields section 3 of the specification lists, which are
    the ones the class reads. *)
Record Contact : Type := mkContact
  { index : option N;
    valid : option bool;
    stable : option bool;
    mean : Vector2;
    size : Vector2;
    orientation : f64 }.

(** Modelled from the spec: [core/generic/config.hpp] is not among the
    sources.  The configuration inputs section 6 lists: the screen's physical
    size, the inversion flags and the palm-disable flag. *)
Record Config : Type := mkConfig
  { width : f64;
    height : f64;
    invert_x : bool;
    invert_y : bool;
    touch_disable_on_palm : bool }.

(** The limits of the protocol header, which is not among the sources:
    parameters. *)
Class protocol_h : Type :=
  { IPTS_MAX_X : Z;
    IPTS_MAX_Y : Z;
    IPTS_DIAGONAL : Z }.

(** The fields of [TouchDevice]; [m_uinput] is the trace of events. *)
Record TouchDevice : Type := mkTouchDevice
  { m_config : Config;
    m_current : StdSet.t;
    m_last : StdSet.t;
    m_lift : StdSet.t;
    m_single_index : N;
    m_enabled : bool }.

Definition set_current (v : StdSet.t) (s : TouchDevice) : TouchDevice :=
  mkTouchDevice (m_config s) v (m_last s) (m_lift s) (m_single_index s) (m_enabled s).
Definition set_last (v : StdSet.t) (s : TouchDevice) : TouchDevice :=
  mkTouchDevice (m_config s) (m_current s) v (m_lift s) (m_single_index s) (m_enabled s).
Definition set_lift (v : StdSet.t) (s : TouchDevice) : TouchDevice :=
  mkTouchDevice (m_config s) (m_current s) (m_last s) v (m_single_index s) (m_enabled s).
Definition set_single_index (v : N) (s : TouchDevice) : TouchDevice :=
  mkTouchDevice (m_config s) (m_current s) (m_last s) (m_lift s) v (m_enabled s).
Definition set_enabled (v : bool) (s : TouchDevice) : TouchDevice :=
  mkTouchDevice (m_config s) (m_current s) (m_last s) (m_lift s) (m_single_index s) v.

(** The state the constructor leaves (the registration of the uinput device
    apart). *)
Definition TouchDevice_new (config : Config) : TouchDevice :=
  mkTouchDevice config [] [] [] 0%N true.

(** [std::optional]: [value_or], and [opt == v] against a plain value. *)
Definition value_or {A} (o : option A) (d : A) : A :=
  match o with Some v => v | None => d end.

Definition has_value {A} (o : option A) : bool :=
  match o with Some _ => true | None => false end.

Definition opt_eq (o : option N) (v : N) : bool :=
  match o with Some i => (i =? v)%N | None => false end.

Definition D (A : Type) : Type := M exn TouchDevice input_event A.

Definition emit (t : ev_type) (c : ev_code) (v : Z) : D unit :=
  tell (Event t c v).

(** [gsl::narrow<i32>] of a [usize] and of a [double]. *)
Definition narrow_usize (n : N) : D Z :=
  if Z.of_N n <=? INT32_MAX then ret (Z.of_N n) else throw narrowing_error.

Definition narrow_f64 (d : f64) : D Z :=
  match F64.narrow_i32 d with
  | Some z => ret z
  | None => throw narrowing_error
  end.

Section Device.
Context {P : protocol_h}.

Definition search_lifted (contacts : list Contact) : D unit :=
  modify (fun s => set_current (m_last s) (set_last (m_current s) s)) ;;
  modify (set_current []) ;;
  for_each contacts (fun contact =>
    match index contact with
    | None => ret tt                                       (* continue *)
    | Some i => modify (fun s => set_current (StdSet.insert i (m_current s)) s)
    end) ;;
  modify (set_lift []) ;;
  modify (fun s =>
    set_lift (StdSet.inserter (m_lift s)
                (StdSet.set_difference (m_last s) (m_current s))) s).

Definition is_blocked (s : TouchDevice) (contacts : list Contact) : bool :=
  if negb (touch_disable_on_palm (m_config s)) then false
  else existsb (fun c => negb (value_or (valid c) true)) contacts.

Definition lift_multitouch (index : N) : D unit :=
  v <- narrow_usize index ;;
  emit EV_ABS ABS_MT_SLOT v ;;
  emit EV_ABS ABS_MT_TRACKING_ID (-1).

Definition emit_multitouch (contact : Contact) : D unit :=
  s <- get ;;
  let size := size contact in
  let mean := mean contact in
  let orientation := orientation contact in
  let mean := if invert_x (m_config s)
              then mkVector2 (1 - x mean)%float (y mean) else mean in
  let mean := if invert_y (m_config s)
              then mkVector2 (x mean) (1 - y mean)%float else mean in
  let orientation := if negb (Bool.eqb (invert_x (m_config s)) (invert_y (m_config s)))
                     then (1 - orientation)%float else orientation in
  index <- narrow_usize (value_or (index contact) 0%N) ;;
  x <- narrow_f64 (round (x mean * of_int IPTS_MAX_X)%float) ;;
  y <- narrow_f64 (round (y mean * of_int IPTS_MAX_Y)%float) ;;
  angle <- narrow_f64 (round (orientation * of_int 180)%float) ;;
  major <- narrow_f64 (round (maxCoeff size * of_int IPTS_DIAGONAL)%float) ;;
  minor <- narrow_f64 (round (minCoeff size * of_int IPTS_DIAGONAL)%float) ;;
  emit EV_ABS ABS_MT_SLOT index ;;
  emit EV_ABS ABS_MT_TRACKING_ID index ;;
  emit EV_ABS ABS_MT_POSITION_X x ;;
  emit EV_ABS ABS_MT_POSITION_Y y ;;
  emit EV_ABS ABS_MT_ORIENTATION angle ;;
  emit EV_ABS ABS_MT_TOUCH_MAJOR major ;;
  emit EV_ABS ABS_MT_TOUCH_MINOR minor.

Definition process_multitouch (contacts : list Contact) : D unit :=
  for_each contacts (fun contact =>
    if negb (has_value (index contact)) then ret tt            (* continue *)
    else if negb (value_or (stable contact) true) then ret tt  (* continue *)
    else if value_or (valid contact) true then emit_multitouch contact
    else lift_multitouch (value_or (index contact) 0%N)) ;;
  s <- get ;;
  for_each (m_lift s) lift_multitouch.

Definition lift_singletouch : D unit := emit EV_KEY BTN_TOUCH 0.

Definition emit_singletouch (contact : Contact) : D unit :=
  s <- get ;;
  let mean := mean contact in
  let mean := if invert_x (m_config s)
              then mkVector2 (1 - x mean)%float (y mean) else mean in
  let mean := if invert_y (m_config s)
              then mkVector2 (x mean) (1 - y mean)%float else mean in
  x <- narrow_f64 (round (x mean * of_int IPTS_MAX_X)%float) ;;
  y <- narrow_f64 (round (y mean * of_int IPTS_MAX_Y)%float) ;;
  emit EV_KEY BTN_TOUCH 1 ;;
  emit EV_ABS ABS_X x ;;
  emit EV_ABS ABS_Y y.

(** The first loop of [process_singletouch].  [true]: the function has
    returned from inside the loop; [false]: the loop was left, by [break] or
    at its end. *)
Fixpoint find_selected (contacts : list Contact) : D bool :=
  match contacts with
  | [] => ret false
  | contact :: rest =>
      s <- get ;;
      if negb (opt_eq (index contact) (m_single_index s))
      then find_selected rest                                   (* continue *)
      else if negb (m_enabled s) || negb (value_or (valid contact) true)
      then ret false                                            (* break *)
      else if negb (value_or (stable contact) true)
      then ret true                                             (* return *)
      else emit_singletouch contact ;; ret true                 (* return *)
  end.

(** Its second loop. *)
Fixpoint select_new (contacts : list Contact) : D unit :=
  match contacts with
  | [] => ret tt
  | contact :: rest =>
      s <- get ;;
      if opt_eq (index contact) (m_single_index s)
      then select_new rest                                      (* continue *)
      else if negb (value_or (valid contact) true)
      then select_new rest                                      (* continue *)
      else modify (set_single_index (value_or (index contact) 0%N))  (* return *)
  end.

Definition process_singletouch (contacts : list Contact) : D unit :=
  s <- get ;;
  let reset := negb (StdSet.find (m_single_index s) (m_lift s)) in
  returned <- (if negb reset then find_selected contacts else ret false) ;;
  if (returned : bool) then ret tt
  else
    lift_singletouch ;;
    s <- get ;;
    if negb (m_enabled s) then ret tt
    else select_new contacts.

Definition lift_all : D unit :=
  s <- get ;;
  for_each (m_current s) (fun index =>
    v <- narrow_usize index ;;
    emit EV_ABS ABS_MT_SLOT v ;;
    lift_multitouch index) ;;
  for_each (m_last s) (fun index =>
    v <- narrow_usize index ;;
    emit EV_ABS ABS_MT_SLOT v ;;
    lift_multitouch index) ;;
  lift_singletouch.

Definition sync : D unit := emit EV_SYN SYN_REPORT 0.

Definition update (contacts : list Contact) : D unit :=
  s <- get ;;
  if negb (m_enabled s) then ret tt
  else
    search_lifted contacts ;;
    s <- get ;;
    (if is_blocked s contacts then lift_all
     else process_multitouch contacts ;; process_singletouch contacts) ;;
    sync.

Definition disable : D unit :=
  modify (set_enabled false) ;;
  lift_all ;;
  sync ;;
  modify (set_current []) ;;
  modify (set_last []) ;;
  modify (set_lift []).

Definition enable : D unit := modify (set_enabled true).

Definition enabled (s : TouchDevice) : bool := m_enabled s.

Definition active (s : TouchDevice) : bool :=
  match m_current s with [] => false | _ => true end.

(** A sequence of frames, each passed to [update]. *)
Definition run_frames (frames : list (list Contact)) : D unit :=
  for_each frames update.

(** *** The same, in closed form

    What the loops come to, for the proofs below: the set a frame leaves
    in [m_current], the state after [search_lifted], and the block of
    events each loop body writes, [None] where a narrowing throws. *)

Definition track_step (acc : StdSet.t) (c : Contact) : StdSet.t :=
  match index c with
  | None => acc
  | Some i => StdSet.insert i acc
  end.

Definition tracked (contacts : list Contact) : StdSet.t :=
  fold_left track_step contacts [].

Definition after_search (contacts : list Contact) (s : TouchDevice) : TouchDevice :=
  mkTouchDevice (m_config s) (tracked contacts) (m_current s)
    (StdSet.inserter [] (StdSet.set_difference (m_current s) (tracked contacts)))
    (m_single_index s) (m_enabled s).

Definition usize_i32 (n : N) : option Z :=
  if Z.of_N n <=? INT32_MAX then Some (Z.of_N n) else None.

Definition lift_events (i : N) : option (list input_event) :=
  match usize_i32 i with
  | Some v => Some [Event EV_ABS ABS_MT_SLOT v; Event EV_ABS ABS_MT_TRACKING_ID (-1)]
  | None => None
  end.

Definition lift_all_events (i : N) : option (list input_event) :=
  match usize_i32 i with
  | Some v => Some [Event EV_ABS ABS_MT_SLOT v; Event EV_ABS ABS_MT_SLOT v;
                    Event EV_ABS ABS_MT_TRACKING_ID (-1)]
  | None => None
  end.

Definition inverted_mean (cfg : Config) (c : Contact) : Vector2 :=
  mkVector2 (if invert_x cfg then (1 - x (mean c))%float else x (mean c))
            (if invert_y cfg then (1 - y (mean c))%float else y (mean c)).

Definition inverted_orientation (cfg : Config) (c : Contact) : f64 :=
  if xorb (invert_x cfg) (invert_y cfg) then (1 - orientation c)%float
  else orientation c.

Definition emit_events (cfg : Config) (c : Contact) : option (list input_event) :=
  match usize_i32 (value_or (index c) 0%N),
        narrow_i32 (round (x (inverted_mean cfg c) * of_int IPTS_MAX_X)%float),
        narrow_i32 (round (y (inverted_mean cfg c) * of_int IPTS_MAX_Y)%float),
        narrow_i32 (round (inverted_orientation cfg c * of_int 180)%float),
        narrow_i32 (round (maxCoeff (size c) * of_int IPTS_DIAGONAL)%float),
        narrow_i32 (round (minCoeff (size c) * of_int IPTS_DIAGONAL)%float)
  with
  | Some i, Some px, Some py, Some angle, Some major, Some minor =>
      Some [Event EV_ABS ABS_MT_SLOT i;
            Event EV_ABS ABS_MT_TRACKING_ID i;
            Event EV_ABS ABS_MT_POSITION_X px;
            Event EV_ABS ABS_MT_POSITION_Y py;
            Event EV_ABS ABS_MT_ORIENTATION angle;
            Event EV_ABS ABS_MT_TOUCH_MAJOR major;
            Event EV_ABS ABS_MT_TOUCH_MINOR minor]
  | _, _, _, _, _, _ => None
  end.

(** The body of the first loop of [process_multitouch]. *)
Definition contact_events (cfg : Config) (c : Contact) : option (list input_event) :=
  match index c with
  | None => Some []
  | Some i =>
      if negb (value_or (stable c) true) then Some []
      else if value_or (valid c) true then emit_events cfg c
      else lift_events i
  end.

End Device.

(** *** Reading a trace of events *)

(** The multi-touch protocol: ABS_MT_SLOT selects a slot and
    ABS_MT_TRACKING_ID reports on the selected one, [-1] for a lift.  The
    reports of a trace, as pairs of slot and tracking id, starting from the
    slot [slot]. *)
Fixpoint mt_reports (slot : Z) (evs : list input_event) : list (Z * Z) :=
  match evs with
  | [] => []
  | Event EV_ABS ABS_MT_SLOT v :: r => mt_reports v r
  | Event EV_ABS ABS_MT_TRACKING_ID v :: r => (slot, v) :: mt_reports slot r
  | _ :: r => mt_reports slot r
  end.

(** The slot selected at the end of a trace. *)
Fixpoint last_slot (slot : Z) (evs : list input_event) : Z :=
  match evs with
  | [] => slot
  | Event EV_ABS ABS_MT_SLOT v :: r => last_slot v r
  | _ :: r => last_slot slot r
  end.

(** The tracking ids reported as active, and the slots reported lifted. *)
Definition mt_active (slot : Z) (evs : list input_event) : list Z :=
  map snd (filter (fun p => negb (snd p =? -1)) (mt_reports slot evs)).

Definition mt_lifted (slot : Z) (evs : list input_event) : list Z :=
  map fst (filter (fun p => snd p =? -1) (mt_reports slot evs)).

Definition event_eq_dec (a b : input_event) : {a = b} + {a <> b}.
Proof. repeat decide equality. Defined.

Definition occurrences (e : input_event) (evs : list input_event) : nat :=
  count_occ event_eq_dec evs e.

Definition st_down : input_event := Event EV_KEY BTN_TOUCH 1.
Definition st_lift : input_event := Event EV_KEY BTN_TOUCH 0.
Definition syn_report : input_event := Event EV_SYN SYN_REPORT 0.

(** What [lift_all] writes for one tracked index: the slot is selected
    twice, once by [lift_all] and once by [lift_multitouch]. *)
Definition lift_block (i : N) : list input_event :=
  [Event EV_ABS ABS_MT_SLOT (Z.of_N i);
   Event EV_ABS ABS_MT_SLOT (Z.of_N i);
   Event EV_ABS ABS_MT_TRACKING_ID (-1)].

Definition fits_i32 (i : N) : Prop := Z.of_N i <= INT32_MAX.

(** The index [i] is carried by a contact of the frame. *)
Definition carried (contacts : list Contact) (i : N) : Prop :=
  exists c, In c contacts /\ index c = Some i.

(** No tracking index comes both on a valid and on an invalid contact of
    the frame; so it is when the indices of a frame are pairwise distinct. *)
Definition validity_agrees (contacts : list Contact) : Prop :=
  forall c1 c2 i, In c1 contacts -> In c2 contacts ->
    index c1 = Some i -> index c2 = Some i ->
    value_or (valid c1) true = value_or (valid c2) true.

(** No slot is reported both active and lifted in a trace. *)
Definition no_duplicate_slots (evs : list input_event) : Prop :=
  forall slot id, In id (mt_active slot evs) -> ~ In id (mt_lifted slot evs).

(** Events of the multi-touch protocol proper. *)
Definition is_mt (e : input_event) : bool :=
  match e with
  | Event EV_ABS ABS_MT_SLOT _ | Event EV_ABS ABS_MT_TRACKING_ID _ => true
  | _ => false
  end.

(** Where a report of an active frame may come from: a valid contact of the
    frame, an invalid one, or an index of the lift set. *)
Definition report_from (contacts : list Contact) (lift : StdSet.t)
           (p : Z * Z) : Prop :=
  (exists c i, In c contacts /\ index c = Some i /\
               value_or (valid c) true = true /\ p = (Z.of_N i, Z.of_N i)) \/
  (exists c i, In c contacts /\ index c = Some i /\
               value_or (valid c) true = false /\ p = (Z.of_N i, -1)) \/
  (exists i, In i lift /\ p = (Z.of_N i, -1)).

(** The three sets are ascending, as a [std::set] is; and a computation
    that keeps them so, however it ends. *)
Definition sets_ascending (s : TouchDevice) : Prop :=
  StdSet.ascending (m_current s) /\ StdSet.ascending (m_last s) /\
  StdSet.ascending (m_lift s).

Definition keeps_sets {A} (m : D A) : Prop :=
  quiet (fun s s' : TouchDevice => sets_ascending s -> sets_ascending s')
        (fun _ => True) m.

(** A computation that leaves the three sets as they are. *)
Definition same_sets {A} (m : D A) : Prop :=
  quiet (fun s s' : TouchDevice =>
           m_current s' = m_current s /\ m_last s' = m_last s /\
           m_lift s' = m_lift s)
        (fun _ => True) m.

(** A computation that writes no event of the multi-touch protocol. *)
Definition no_mt {A} (m : D A) : Prop :=
  quiet (fun _ _ : TouchDevice => True) (Forall (fun e => is_mt e = false)) m.

(** What C1 says of an [update] on a disabled device: the tracker has run,
    and a lift for every index of both sets, a single-touch lift and a
    closing sync have been written. *)
Definition lifts_while_disabled {P : protocol_h}
           (contacts : list Contact) (s : TouchDevice) : Prop :=
  let r := update contacts s in
  m_current (st r) = tracked contacts /\
  m_last (st r) = m_current s /\
  (forall slot i, In i (m_current (st r)) \/ In i (m_last (st r)) ->
                  In (Z.of_N i) (mt_lifted slot (out r))) /\
  In st_lift (out r) /\
  exists before, out r = before ++ [syn_report].

(** The frame shows a palm to a device configured to mind it. *)
Definition palm_seen (s : TouchDevice) (contacts : list Contact) : Prop :=
  touch_disable_on_palm (m_config s) = true /\
  exists c, In c contacts /\ valid c = Some false.

(** Events that lift or only select a slot: no contact is reported down. *)
Definition lift_only (e : input_event) : bool :=
  match e with
  | Event EV_ABS ABS_MT_SLOT _ => true
  | Event EV_ABS ABS_MT_TRACKING_ID v => v =? -1
  | Event EV_KEY BTN_TOUCH v => v =? 0
  | Event EV_SYN SYN_REPORT _ => true
  | _ => false
  end.

End Touch.

(* ================================================================== *)
(** ** Sample inputs *)

Module Samples.

Import Control.

(** A ring of four buffers. *)
Definition four_buffers : ipts_h := {| IPTS_BUFFERS := 4 |}.

(** A kernel none of whose calls fails.  Its state: how many more polls the
    device answers "not ready", and the hardware doorbell. *)
Definition steady_kernel : KernelModel (nat * Z) :=
  {| kernel_ioctl := fun fd req k =>
       match req with
       | IPTS_IOCTL_GET_DEVICE_READY =>
           match fst k with
           | O => ((0, 1), k)
           | S n => ((0, 0), (n, snd k))
           end
       | IPTS_IOCTL_GET_DOORBELL => ((0, snd k), k)
       | _ => ((0, 0), k)
       end;
     kernel_read := fun fd n k => (Z.max 0 n, k) |}.

(** The local counter is at 7 and the device, back from a reset, at 3. *)
Definition regressed : Machine (nat * Z) :=
  mkMachine (mkIptsControl 7 [10; 11; 12; 13]) (2%nat, 3).

(** The local counter is at 5 and the device at 9. *)
Definition advanced : Machine (nat * Z) :=
  mkMachine (mkIptsControl 5 [10; 11; 12; 13]) (0%nat, 9).

Import Touch.

(** Limits for the examples; the scenario of the specification has
    [MAX_X = 1000]. *)
Definition limits : protocol_h :=
  {| IPTS_MAX_X := 9600; IPTS_MAX_Y := 7200; IPTS_DIAGONAL := 12000 |}.

Definition scenario_limits : protocol_h :=
  {| IPTS_MAX_X := 1000; IPTS_MAX_Y := 1000; IPTS_DIAGONAL := 1000 |}.

Definition plain : Config := mkConfig 26%float 17%float false false false.
Definition minding_palms : Config := mkConfig 26%float 17%float false false true.
Definition mirrored_x : Config := mkConfig 26%float 17%float true false false.

(** A valid, stable contact with the tracking index [i]. *)
Definition finger (i : N) : Contact :=
  mkContact (Some i) (Some true) (Some true)
            (mkVector2 0.25%float 0.5%float)
            (mkVector2 0.125%float 0.0625%float) 0.5%float.

(** The same contact flagged invalid. *)
Definition palm (i : N) : Contact :=
  mkContact (Some i) (Some false) (Some true)
            (mkVector2 0.25%float 0.5%float)
            (mkVector2 0.125%float 0.0625%float) 0.5%float.

(** A contact the detector gave no index, with no flags either. *)
Definition untracked : Contact :=
  mkContact None None None
            (mkVector2 0.75%float 0.5%float)
            (mkVector2 0.125%float 0.0625%float) 0.5%float.

(** The contact of the inversion scenario: [mean = (0.25, 0.6)]. *)
Definition scenario_contact : Contact :=
  mkContact (Some 0%N) (Some true) (Some true)
            (mkVector2 0.25%float 0x1.3333333333333p-1%float)
            (mkVector2 0.125%float 0.0625%float) 0.25%float.

(** Index 3 is tracked and is the single-touch index. *)
Definition pointer_on_3 : TouchDevice := mkTouchDevice plain [3%N] [] [] 3%N true.

(** Indices 1 and 3 are tracked. *)
Definition tracking_1_3 (config : Config) : TouchDevice :=
  mkTouchDevice config [1%N; 3%N] [] [] 1%N true.

(** A device after [disable]. *)
Definition switched_off : TouchDevice := mkTouchDevice plain [] [] [] 0%N false.

End Samples.

(* ================================================================== *)
(** ** The rest of the transport: device info, construction, teardown *)

Module ControlMore.

Import Control.

(** The object with its public field [info]: [machine] holds the counter
    and the descriptors (and the kernel they talk to), and [info] stands
    for the record [struct ipts_device_info], as the one number the kernel
    model gives for the object an ioctl's pointer designates.  Only
    [get_device_info] writes it. *)
Record Device (K : Type) : Type := mkDevice
  { machine : Machine K; info : Z }.

Arguments mkDevice {K}.
Arguments machine {K}.
Arguments info {K}.

Definition set_info {K} (v : Z) (d : Device K) : Device K :=
  mkDevice (machine d) v.

(** A member function that does not touch [info], run on the object. *)
Definition on_machine {K E A} (m : M exn (Machine K) E A)
  : M exn (Device K) E A := fun d =>
  mkRes (res (m (machine d))) (mkDevice (st (m (machine d))) (info d))
        (out (m (machine d))).

Section Transport.
Context {K : Type} {KM : KernelModel K} {H : ipts_h}.

(** [get_device_info]: the ioctl is handed [&this->info], so [info] holds
    afterwards what the call has left there. *)
Definition get_device_info : M exn (Device K) syscall unit :=
  on_machine wait_for_device ;;
  fd <- on_machine current ;;
  r <- on_machine (ioctl fd IPTS_IOCTL_GET_DEVICE_INFO) ;;
  modify (set_info (snd r)) ;;
  if fst r =? -1 then throw (cerror "Failed to get device info")
  else ret tt.

(** An operation called [n] times in a row. *)
Definition times (n : nat) (op : T (K := K) unit) : T unit :=
  for_each (seq 0 n) (fun _ => op).

End Transport.

(** Reading a trace: the entries [wait_for_device] makes, the readiness
    polls with their answers, the sleeps, the reads and the resets. *)
Definition is_wait_entry (c : syscall) : bool :=
  match c with
  | sys_ioctl _ IPTS_IOCTL_GET_DEVICE_READY _ _ => true
  | sys_sleep _ => true
  | _ => false
  end.

(** The answer of a readiness poll that [ready] takes for "ready". *)
Definition says_ready (ret arg : Z) : bool :=
  negb (ret =? -1) && (0 <? wrap 8 arg).

(** One round of the wait: a poll on [fd] answered "not ready", and the
    sleep of one second that follows it. *)
Definition idle_round (fd : Z) (answer : Z * Z) : list syscall :=
  [sys_ioctl fd IPTS_IOCTL_GET_DEVICE_READY (fst answer) (snd answer);
   sys_sleep 1].

Definition not_waiting (tr : list syscall) : list syscall :=
  filter (fun c => negb (is_wait_entry c)) tr.

(** The index of the buffer the counter selects. *)
Definition slot_of {H : ipts_h} (doorbell : Z) : Z :=
  doorbell mod Z.pos IPTS_BUFFERS.

(** The buffer at a slot. *)
Definition buffer_at (c : IptsControl) (slot : Z) : option Z :=
  nth_error (files c) (Z.to_nat slot).

End ControlMore.

Module Lifecycle.

Import Control ControlMore.

(** Opening and closing the device nodes: the kernel answers an [open] of
    a path with a descriptor or [-1], and a [close] with its return value. *)
Class FileModel (K : Type) : Type :=
  { kernel_open : string -> K -> Z * K;
    kernel_close : Z -> K -> Z * K }.

(** What construction and teardown do to the outside: the calls of the
    transport proper, and the opens and closes around them. *)
Inductive call : Type :=
| sys_open (name : string) (ret : Z)
| sys_close (fd : Z) (ret : Z)
| sys (c : syscall).

Fixpoint opens (tr : list call) : list (string * Z) :=
  match tr with
  | [] => []
  | sys_open name r :: t => (name, r) :: opens t
  | _ :: t => opens t
  end.

Fixpoint closes (tr : list call) : list Z :=
  match tr with
  | [] => []
  | sys_close fd _ :: t => fd :: closes t
  | _ :: t => closes t
  end.

Fixpoint syscalls (tr : list call) : list syscall :=
  match tr with
  | [] => []
  | sys c :: t => c :: syscalls t
  | _ :: t => syscalls t
  end.

(** [std::to_string] of a loop index, and the path of the [i]-th node. *)
Definition to_string (i : nat) : string :=
  DecimalString.NilEmpty.string_of_uint (Nat.to_uint i).

Definition node_name (i : nat) : string := ("/dev/ipts/" ++ to_string i)%string.

(** [a.at(i) = v] on a [std::array]: the array with its [i]-th element
    replaced. *)
Fixpoint replace_nth (i : nat) (v : Z) (a : list Z) : list Z :=
  match a, i with
  | [], _ => []
  | _ :: t, O => v :: t
  | x :: t, S i' => x :: replace_nth i' v t
  end.

Section Lifecycle.
Context {K : Type} {KM : KernelModel K} {FM : FileModel K} {H : ipts_h}.

Definition L (A : Type) : Type := M exn (Machine K) call A.

(** The same on the object with its [info]. *)
Definition LD (A : Type) : Type := M exn (Device K) call A.

(** A member function of the transport, called from here. *)
Definition lift {S A} (m : M exn S syscall A) : M exn S call A := fun s =>
  mkRes (res (m s)) (st (m s)) (map sys (out (m s))).

Definition open (name : string) : L Z := fun m =>
  let '(r, k') := kernel_open name (kernel m) in
  mkRes (inr r) (mkMachine (self m) k') [sys_open name r].

Definition close (fd : Z) : L Z := fun m =>
  let '(r, k') := kernel_close fd (kernel m) in
  mkRes (inr r) (mkMachine (self m) k') [sys_close fd r].

(** [this->files.at(i) = v] *)
Definition set_file (i : nat) (v : Z) : L unit :=
  m <- get ;;
  if (i <? List.length (files (self m)))%nat
  then modify (fun m => mkMachine
                 (mkIptsControl (current_doorbell (self m))
                                (replace_nth i v (files (self m))))
                 (kernel m))
  else throw out_of_range.

(** The body of the constructor, run on the object as its member
    initialisers leave it.  Only [get_device_info] touches [info]. *)
Definition construct : LD unit :=
  on_machine
    (for_each (seq 0 (Pos.to_nat IPTS_BUFFERS)) (fun i =>
       let name := node_name i in
       r <- open name ;;
       if r =? -1 then throw (cerror ("Failed to open " ++ name))
       else set_file i r)) ;;
  on_machine (lift flush) ;;
  lift get_device_info ;;
  d <- on_machine (lift doorbell) ;;
  on_machine (modify (set_doorbell d)).

(** [info {}], [current_doorbell = 0] and [files()]. *)
Definition blank (k : K) : Device K :=
  mkDevice (mkMachine (mkIptsControl 0 (repeat 0 (Pos.to_nat IPTS_BUFFERS))) k) 0.

(** [IptsControl::IptsControl()] against the kernel [k]. *)
Definition IptsControl_new (k : K) : Res exn (Device K) call unit :=
  construct (blank k).

(** [IptsControl::~IptsControl()]; it does not look at [info]. *)
Definition destroy : L unit :=
  for_each (seq 0 (Pos.to_nat IPTS_BUFFERS)) (fun i =>
    m <- get ;;
    fd <- lift (array_at (files (self m)) (Z.of_nat i)) ;;
    close fd ;;
    ret tt).

End Lifecycle.

End Lifecycle.

(* ================================================================== *)
(** ** More on the frames of the touch device *)

Module TouchMore.

Import Touch.

(** What [process_multitouch] writes for one contact, nothing where the
    contact is skipped. *)
Definition contact_part {P : protocol_h} (cfg : Config) (c : Contact)
  : list input_event :=
  match contact_events cfg c with
  | Some evs => evs
  | None => []
  end.

(** The lift of one slot, as [lift_multitouch] writes it. *)
Definition lift_pair (i : N) : list input_event :=
  [Event EV_ABS ABS_MT_SLOT (Z.of_N i); Event EV_ABS ABS_MT_TRACKING_ID (-1)].

(** The contacts the second loop of [process_singletouch] may adopt for
    the pointer [old]: the loop passes over those that carry the index
    [old] and over the invalid ones. *)
Definition candidate (old : N) (c : Contact) : bool :=
  negb (opt_eq (index c) old) && value_or (valid c) true.

(** The events of the multi-touch protocol, type B: the slot, the tracking
    id and the properties of a contact.  The single-touch events
    ([BTN_TOUCH], [ABS_X], [ABS_Y]) and the sync are not among them. *)
Definition multitouch_event (e : input_event) : bool :=
  match e with
  | Event EV_ABS ABS_MT_SLOT _
  | Event EV_ABS ABS_MT_TRACKING_ID _
  | Event EV_ABS ABS_MT_POSITION_X _
  | Event EV_ABS ABS_MT_POSITION_Y _
  | Event EV_ABS ABS_MT_ORIENTATION _
  | Event EV_ABS ABS_MT_TOUCH_MAJOR _
  | Event EV_ABS ABS_MT_TOUCH_MINOR _ => true
  | _ => false
  end.

(** What that loop leaves in [m_single_index]. *)
Definition next_pointer (old : N) (contacts : list Contact) : N :=
  match List.find (candidate old) contacts with
  | Some c => value_or (index c) 0%N
  | None => old
  end.

(** The reports of a trace that concern the slot [i]. *)
Definition reports_on (i : N) (reports : list (Z * Z)) : list (Z * Z) :=
  filter (fun p => fst p =? Z.of_N i) reports.

(** The public interface, as a caller drives it: a session is a sequence
    of calls on one device; an exception ends it. *)
Inductive call : Type :=
| Update (contacts : list Contact)
| Disable
| Enable.

Definition perform {P : protocol_h} (c : call) : D unit :=
  match c with
  | Update contacts => update contacts
  | Disable => disable
  | Enable => enable
  end.

Definition session {P : protocol_h} (calls : list call) : D unit :=
  for_each calls perform.

(** The lift set holds indices of the last frame that the current one
    does not have. *)
Definition lift_is_difference (s : TouchDevice) : Prop :=
  forall i, In i (m_lift s) -> In i (m_last s) /\ ~ In i (m_current s).

(** What holds of the fields between the calls of a session: the three
    sets are proper sets, the lift set is a difference, and the
    configuration is the one the device was made with. *)
Definition between_calls (cfg : Config) (s : TouchDevice) : Prop :=
  sets_ascending s /\ lift_is_difference s /\ m_config s = cfg.

(** A report of the multi-touch protocol as the class writes them: on a
    slot that is an [i32] and not negative, and either a lift or the
    slot's own number as tracking id. *)
Definition own_report (p : Z * Z) : Prop :=
  0 <= fst p <= F64.INT32_MAX /\ (snd p = fst p \/ snd p = -1).

(** A trace whose reports do not depend on the slot selected before it. *)
Definition selects_its_slots (evs : list input_event) : Prop :=
  exists reports, Forall own_report reports /\
                  forall slot, mt_reports slot evs = reports.

End TouchMore.

(* ================================================================== *)
(** ** More sample inputs *)

Module MoreSamples.

Import Control ControlMore Lifecycle Samples.

(** A kernel for construction: descriptors are handed out from 10 on, in
    the order of the opens (the first component of the state counts them);
    the node whose path is [broken] cannot be opened.  A close always
    succeeds. *)
Definition nodes (broken : string) : FileModel (nat * Z) :=
  {| kernel_open := fun name k =>
       if String.eqb name broken then (-1, k)
       else (10 + Z.of_nat (fst k), (S (fst k), snd k));
     kernel_close := fun fd k => (0, k) |}.

(** Ioctls on the kernel above: always ready, doorbell from the state, the
    device info 7. *)
Definition ready_kernel : KernelModel (nat * Z) :=
  {| kernel_ioctl := fun fd req k =>
       match req with
       | IPTS_IOCTL_GET_DEVICE_READY => ((0, 1), k)
       | IPTS_IOCTL_GET_DOORBELL => ((0, snd k), k)
       | IPTS_IOCTL_GET_DEVICE_INFO => ((0, 7), k)
       | _ => ((0, 0), k)
       end;
     kernel_read := fun fd n k => (Z.max 0 n, k) |}.

(** The same kernel, deaf to feedback: that ioctl fails once [fuel]
    acknowledgements have gone through ([fuel] is the first component of
    the state). *)
Definition deaf_kernel : KernelModel (nat * Z) :=
  {| kernel_ioctl := fun fd req k =>
       match req with
       | IPTS_IOCTL_GET_DEVICE_READY => ((0, 1), k)
       | IPTS_IOCTL_GET_DOORBELL => ((0, snd k), k)
       | IPTS_IOCTL_SEND_FEEDBACK =>
           match fst k with
           | O => ((-1, 0), k)
           | S n => ((0, 0), (n, snd k))
           end
       | _ => ((0, 0), k)
       end;
     kernel_read := fun fd n k => (-1, k) |}.

(** A ring of three buffers: three does not divide [2^32]. *)
Definition three_buffers : ipts_h := {| IPTS_BUFFERS := 3 |}.

(** The counter at the last u32 value. *)
Definition at_wrap : Machine (nat * Z) :=
  mkMachine (mkIptsControl 4294967295 [10; 11; 12]) (0%nat, 0).

Import Touch.

(** A contact none of whose coordinates scales to an integer at a limit of
    1000: [mean = (1/3, -0.0625)], which scale to [333.33...] and to
    [-62.5]; [size = (2^-9, 0.0625)], which scale to [1.953125] and to
    [62.5]; [orientation = 0.7], which in doubles scales to
    [125.99999999999999]. *)
Definition fractional : Contact :=
  mkContact (Some 2%N) (Some true) (Some true)
            (mkVector2 0x1.5555555555555p-2%float (-0.0625)%float)
            (mkVector2 0.001953125%float 0.0625%float)
            0x1.6666666666666p-1%float.

(** A contact whose X scales to [3 * 10^9], above [INT32_MAX]. *)
Definition far_out : Contact :=
  mkContact (Some 2%N) (Some true) (Some true)
            (mkVector2 3000000%float 0.5%float)
            (mkVector2 0.125%float 0.0625%float) 0.5%float.

End MoreSamples.

(* ================================================================== *)
(** * Properties *)

(** ** Runs of the monad *)

Section Runs.
Context {X S E : Type}.

Lemma bind_inl A B (m : M X S E A) (f : A -> M X S E B) s x :
  res (m s) = inl x ->
  bind m f s = mkRes (inl x) (st (m s)) (out (m s)).
Proof. intro Hr. unfold bind. rewrite Hr. reflexivity. Qed.

Lemma bind_inr A B (m : M X S E A) (f : A -> M X S E B) s a :
  res (m s) = inr a ->
  bind m f s = mkRes (res (f a (st (m s)))) (st (f a (st (m s))))
                     (out (m s) ++ out (f a (st (m s)))).
Proof. intro Hr. unfold bind. rewrite Hr. reflexivity. Qed.

Lemma res_eta A (r : Res X S E A) : mkRes (res r) (st r) (out r) = r.
Proof. destruct r; reflexivity. Qed.

Lemma bind_ret A B (a : A) (f : A -> M X S E B) s : bind (ret a) f s = f a s.
Proof. unfold bind, ret; simpl. apply res_eta. Qed.

Lemma bind_get B (f : S -> M X S E B) s : bind get f s = f s s.
Proof. unfold bind, get; simpl. apply res_eta. Qed.

Lemma bind_modify B (g : S -> S) (f : unit -> M X S E B) s :
  bind (modify g) f s = f tt (g s).
Proof. unfold bind, modify; simpl. apply res_eta. Qed.

Lemma bind_throw A B (x : X) (f : A -> M X S E B) s :
  bind (throw x) f s = mkRes (inl x) s [].
Proof. reflexivity. Qed.

Lemma bind_tell B (e : E) (f : unit -> M X S E B) s :
  bind (tell e) f s = mkRes (res (f tt s)) (st (f tt s)) (e :: out (f tt s)).
Proof. reflexivity. Qed.

Lemma bind_run A B (m : M X S E A) (f : A -> M X S E B) s a s' o :
  m s = mkRes (inr a) s' o ->
  bind m f s = mkRes (res (f a s')) (st (f a s')) (o ++ out (f a s')).
Proof. intro Hr. unfold bind. rewrite Hr. reflexivity. Qed.

Lemma bind_run_inl A B (m : M X S E A) (f : A -> M X S E B) s x s' o :
  m s = mkRes (inl x) s' o -> bind m f s = mkRes (inl x) s' o.
Proof. intro Hr. unfold bind. rewrite Hr. reflexivity. Qed.

Lemma bind_assoc A B C (m : M X S E A) (f : A -> M X S E B)
      (g : B -> M X S E C) s :
  bind (bind m f) g s = bind m (fun a => bind (f a) g) s.
Proof.
  unfold bind. destruct (res (m s)) as [x | a]; cbn [res st out]; [reflexivity |].
  destruct (res (f a (st (m s)))) as [x | b]; cbn [res st out]; [reflexivity |].
  rewrite app_assoc. reflexivity.
Qed.

Section Frames.
Variable I : S -> S -> Prop.
Variable Q : list E -> Prop.
Hypothesis I_refl : forall s, I s s.
Hypothesis I_trans : forall a b c, I a b -> I b c -> I a c.
Hypothesis Q_nil : Q [].
Hypothesis Q_app : forall a b, Q a -> Q b -> Q (a ++ b).

Lemma quiet_ret A (a : A) : quiet I Q (@ret X S E A a).
Proof. intro s; simpl; auto. Qed.

Lemma quiet_throw A (x : X) : quiet I Q (@throw X S E A x).
Proof. intro s; simpl; auto. Qed.

Lemma quiet_get : quiet I Q (@get X S E).
Proof. intro s; simpl; auto. Qed.

Lemma quiet_bind A B (m : M X S E A) (f : A -> M X S E B) :
  quiet I Q m -> (forall a, quiet I Q (f a)) -> quiet I Q (bind m f).
Proof.
  intros Hm Hf s. unfold bind. destruct (Hm s) as [Hi Hq].
  destruct (res (m s)) as [x | a]; simpl; auto.
  destruct (Hf a (st (m s))) as [Hi' Hq']. split; eauto.
Qed.

Lemma quiet_for_each A (l : list A) (body : A -> M X S E unit) :
  (forall a, quiet I Q (body a)) -> quiet I Q (for_each l body).
Proof.
  intro Hb. induction l as [| a t IH]; simpl.
  - apply quiet_ret.
  - apply quiet_bind; auto.
Qed.
End Frames.

Section Totality.
Variable G : S -> Prop.

Lemma returns_ret A (a : A) (P : A -> Prop) : P a -> returns G (@ret X S E A a) P.
Proof. intros Ha s Hs; simpl; eauto. Qed.

Lemma returns_get (P : S -> Prop) :
  (forall s, G s -> P s) -> returns G (@get X S E) P.
Proof. intros HP s Hs; simpl; eauto. Qed.

Lemma returns_tell (e : E) : returns G (@tell X S E e) (fun _ => True).
Proof. intros s Hs; simpl; eauto. Qed.

Lemma returns_modify (f : S -> S) :
  (forall s, G s -> G (f s)) -> returns G (@modify X S E f) (fun _ => True).
Proof. intros Hf s Hs; simpl; eauto. Qed.

Lemma returns_bind A B (m : M X S E A) (f : A -> M X S E B) P Q :
  returns G m P -> (forall a, P a -> returns G (f a) Q) -> returns G (bind m f) Q.
Proof.
  intros Hm Hf s Hs. destruct (Hm s Hs) as (a & Ha & Pa & Hg).
  rewrite (bind_inr _ _ _ _ _ _ Ha); simpl.
  exact (Hf a Pa _ Hg).
Qed.

Lemma returns_weaken A (m : M X S E A) (P Q : A -> Prop) :
  returns G m P -> (forall a, P a -> Q a) -> returns G m Q.
Proof.
  intros Hm HPQ s Hs. destruct (Hm s Hs) as (a & Ha & Pa & Hg). eauto.
Qed.

Lemma returns_for_each A (l : list A) (body : A -> M X S E unit) :
  (forall a, In a l -> returns G (body a) (fun _ => True)) ->
  returns G (for_each l body) (fun _ => True).
Proof.
  induction l as [| a t IH]; intro Hb; simpl.
  - apply returns_ret. exact Logic.I.
  - apply returns_bind with (P := fun _ => True).
    + apply Hb; left; reflexivity.
    + intros _ _. apply IH. intros b Hin. apply Hb; right; exact Hin.
Qed.
End Totality.

End Runs.

(* ================================================================== *)
(** ** The device transport *)

Section TransportProps.
Import Control.
Context {K : Type} {KM : KernelModel K} {H : ipts_h}.

Local Abbreviation TK := (T (K := K)).
Local Abbreviation silent := (Control.silent (K := K)).
Local Abbreviation fields_ok := (Control.fields_ok (K := K)).

Lemma feedbacks_app (a b : list syscall) :
  feedbacks (a ++ b) = feedbacks a ++ feedbacks b.
Proof.
  induction a as [| c a IH]; simpl; [reflexivity |].
  destruct c as [fd req r v | |]; auto.
  destruct req; auto. destruct (r =? -1); simpl; congruence.
Qed.

Lemma doorbell_reads_app (a b : list syscall) :
  doorbell_reads (a ++ b) = doorbell_reads a ++ doorbell_reads b.
Proof.
  induction a as [| c a IH]; simpl; [reflexivity |].
  destruct c as [fd req r v | |]; auto.
  destruct req; auto. destruct (r =? -1); simpl; congruence.
Qed.

Lemma silent_ret A (a : A) : silent (ret a : TK A).
Proof. apply quiet_ret; auto. Qed.

Lemma silent_throw A (x : exn) : silent (throw x : TK A).
Proof. apply quiet_throw; auto. Qed.

Lemma silent_bind A B (m : TK A) (f : A -> TK B) :
  silent m -> (forall a, silent (f a)) -> silent (bind m f).
Proof.
  apply quiet_bind.
  - intros a b c Hab Hbc. congruence.
  - intros a b [Ha1 Ha2] [Hb1 Hb2].
    rewrite feedbacks_app, doorbell_reads_app, Ha1, Ha2, Hb1, Hb2. auto.
Qed.

Lemma silent_ioctl fd req :
  req <> IPTS_IOCTL_SEND_FEEDBACK -> req <> IPTS_IOCTL_GET_DOORBELL ->
  silent (ioctl fd req).
Proof.
  intros H1 H2 m. unfold ioctl.
  destruct (kernel_ioctl fd req (kernel m)) as [r k']. simpl.
  destruct req; try congruence; auto.
Qed.

Lemma silent_read_call fd n : silent (sys_read_call fd n).
Proof.
  intro m. unfold sys_read_call.
  destruct (kernel_read fd n (kernel m)) as [r k']. simpl. auto.
Qed.

Lemma silent_sleep n : silent (sleep n).
Proof. intro m. simpl. auto. Qed.

Lemma silent_array_at a i : silent (array_at a i).
Proof.
  unfold array_at. destruct (i <? 0); [apply silent_throw |].
  destruct (nth_error a (Z.to_nat i)); [apply silent_ret | apply silent_throw].
Qed.

Lemma silent_current : silent current.
Proof.
  unfold current. apply silent_bind.
  - intro m. simpl. auto.
  - intro m. apply silent_array_at.
Qed.

Lemma silent_ready : silent ready.
Proof.
  unfold ready. apply silent_bind; [apply silent_current |].
  intro fd. apply silent_bind; [apply silent_ioctl; discriminate |].
  intro r. destruct (fst r =? -1); apply silent_ret.
Qed.

Lemma silent_wait_loop n : silent (wait_loop n).
Proof.
  induction n as [| n IH]; simpl; [apply silent_ret |].
  apply silent_bind; [apply silent_ready |].
  intros [|]; [apply silent_ret |].
  apply silent_bind; [apply silent_sleep | intros _; exact IH].
Qed.

Lemma silent_wait_for_device : silent wait_for_device.
Proof. apply silent_wait_loop. Qed.

Lemma ioctl_run fd req (m : Machine K) :
  exists rv av k',
    ioctl fd req m =
    mkRes (inr (rv, av)) (mkMachine (self m) k') [sys_ioctl fd req rv av].
Proof.
  unfold ioctl. destruct (kernel_ioctl fd req (kernel m)) as [[rv av] k'].
  exists rv, av, k'. reflexivity.
Qed.

(** One acknowledgement: the fields stay, the doorbell is not read, and
    the buffer is acknowledged exactly when the call returns. *)
Lemma send_feedback_file_run (file : Z) (m : Machine K) :
  let r := send_feedback_file file m in
  self (st r) = self m /\
  doorbell_reads (out r) = [] /\
  feedbacks (out r) = match res r with inr _ => [file] | inl _ => [] end.
Proof.
  unfold send_feedback_file.
  destruct (silent_wait_for_device m) as [Hs [Hf Hd]].
  destruct (res (wait_for_device m)) as [x | []] eqn:Hw.
  - rewrite (bind_inl _ _ _ _ _ _ Hw). simpl. auto.
  - rewrite (bind_inr _ _ _ _ _ _ Hw). simpl.
    set (m1 := st (wait_for_device m)) in *.
    destruct (ioctl_run file IPTS_IOCTL_SEND_FEEDBACK m1) as (rv & av & k' & Hio).
    unfold bind. rewrite Hio. simpl.
    rewrite !feedbacks_app, !doorbell_reads_app, Hf, Hd.
    destruct (rv =? -1) eqn:Hrv; simpl; rewrite ?Hrv; auto.
Qed.

Lemma skipn_nth_error {A} (l : list A) (a : nat) (v : A) :
  nth_error l a = Some v -> skipn a l = v :: skipn (S a) l.
Proof.
  revert a. induction l as [| h t IH]; intros [| a] Hn; simpl in *; try discriminate.
  - congruence.
  - apply IH. exact Hn.
Qed.

Lemma flush_unfold : flush = for_each (seq 0 (Pos.to_nat IPTS_BUFFERS)) flush_step.
Proof. reflexivity. Qed.

Lemma flush_step_run (i : nat) (m : Machine K) :
  let r := flush_step i m in
  self (st r) = self m /\
  doorbell_reads (out r) = [] /\
  match res r with
  | inr _ => exists v, nth_error (files (self m)) i = Some v /\ feedbacks (out r) = [v]
  | inl _ => feedbacks (out r) = []
  end.
Proof.
  unfold flush_step. rewrite bind_get.
  unfold array_at. replace (Z.of_nat i <? 0) with false by (symmetry; apply Z.ltb_ge; lia).
  rewrite Nat2Z.id.
  destruct (nth_error (files (self m)) i) as [v |] eqn:Hn.
  - rewrite bind_ret.
    destruct (send_feedback_file_run v m) as (Hs & Hd & Hf).
    destruct (res (send_feedback_file v m)) eqn:Hr;
      (split; [exact Hs | split; [exact Hd |]]); [exact Hf | eauto].
  - rewrite bind_throw. cbn [res st out]. auto.
Qed.

Lemma flush_loop (n : nat) : forall (a : nat) (m : Machine K),
  let r := for_each (seq a n) flush_step m in
  self (st r) = self m /\
  doorbell_reads (out r) = [] /\
  (forall u, res r = inr u ->
     feedbacks (out r) = firstn n (skipn a (files (self m))) /\
     List.length (feedbacks (out r)) = n).
Proof.
  induction n as [| n IH]; intros a m; cbn [seq for_each].
  - cbn. auto.
  - destruct (flush_step_run a m) as (Hs & Hd & Hf).
    destruct (res (flush_step a m)) as [x | []] eqn:Hr.
    + rewrite (bind_inl _ _ _ _ _ _ Hr). cbn [res st out].
      repeat split; auto; discriminate.
    + rewrite (bind_inr _ _ _ _ _ _ Hr). cbn [res st out].
      destruct (IH (S a) (st (flush_step a m))) as (Hs' & Hd' & Hf').
      rewrite feedbacks_app, doorbell_reads_app, Hd, Hd', Hs', Hs.
      split; [reflexivity | split; [reflexivity |]].
      intros u Hu. destruct Hf as (v & Hv & Hfv). destruct (Hf' u Hu) as [E1 E2].
      rewrite Hfv. cbn [app List.length]. rewrite E2. split; [| reflexivity].
      rewrite E1, Hs, (skipn_nth_error _ _ _ Hv). reflexivity.
Qed.

(** A flush that returns has acknowledged each of the [IPTS_BUFFERS]
    buffers once, in order, and has left the fields as they were. *)
Lemma flush_run (m : Machine K) :
  let r := flush m in
  self (st r) = self m /\
  doorbell_reads (out r) = [] /\
  (forall u, res r = inr u ->
     feedbacks (out r) = firstn (Pos.to_nat IPTS_BUFFERS) (files (self m)) /\
     List.length (feedbacks (out r)) = Pos.to_nat IPTS_BUFFERS).
Proof. rewrite flush_unfold. apply (flush_loop (Pos.to_nat IPTS_BUFFERS) 0%nat m). Qed.

(** What a returning [doorbell] did, by the two cases of its comparison. *)
Lemma doorbell_run (m : Machine K) (hw : Z) :
  res (doorbell m) = inr hw ->
  doorbell_reads (out (doorbell m)) = [hw] /\
  files (self (st (doorbell m))) = files (self m) /\
  (hw < current_doorbell (self m) ->
     feedbacks (out (doorbell m)) =
       firstn (Pos.to_nat IPTS_BUFFERS) (files (self m)) /\
     List.length (feedbacks (out (doorbell m))) = Pos.to_nat IPTS_BUFFERS /\
     current_doorbell (self (st (doorbell m))) = hw) /\
  (current_doorbell (self m) <= hw ->
     feedbacks (out (doorbell m)) = [] /\
     current_doorbell (self (st (doorbell m))) = current_doorbell (self m)).
Proof.
  revert hw. unfold doorbell.
  destruct (silent_wait_for_device m) as (Hs & Hf & Hd).
  destruct (res (wait_for_device m)) as [x | []] eqn:Hw.
  { rewrite (bind_inl _ _ _ _ _ _ Hw). cbn [res]. discriminate. }
  rewrite (bind_inr _ _ _ _ _ _ Hw). cbn [res st out].
  set (m1 := st (wait_for_device m)) in *.
  destruct (silent_current m1) as (Hs1 & Hf1 & Hd1).
  destruct (res (current m1)) as [x | fd] eqn:Hc.
  { rewrite (bind_inl _ _ _ _ _ _ Hc). cbn [res]. discriminate. }
  rewrite (bind_inr _ _ _ _ _ _ Hc). cbn [res st out].
  set (m2 := st (current m1)) in *.
  destruct (ioctl_run fd IPTS_IOCTL_GET_DOORBELL m2) as (rv & av & k' & Hio).
  rewrite (bind_run _ _ _ _ _ _ _ _ Hio). cbn [res st out fst snd].
  destruct (rv =? -1) eqn:Hrv.
  { cbn [throw res]. discriminate. }
  rewrite bind_get. cbn [self].
  assert (Hself : self m2 = self m) by congruence.
  rewrite !feedbacks_app, !doorbell_reads_app, Hf, Hd, Hf1, Hd1.
  cbn [feedbacks doorbell_reads app]. rewrite Hrv.
  set (m3 := mkMachine (self m2) k').
  destruct (wrap 32 av <? current_doorbell (self m2)) eqn:Hlt.
  - rewrite bind_assoc.
    destruct (flush_run m3) as (Hs3 & Hd3 & Hf3).
    destruct (res (flush m3)) as [x | []] eqn:Hfl.
    { rewrite (bind_inl _ _ _ _ _ _ Hfl). cbn [res]. discriminate. }
    destruct (Hf3 tt eq_refl) as [E1 E2].
    rewrite (bind_inr _ _ _ _ _ _ Hfl), bind_modify. cbn [ret res st out].
    rewrite app_nil_r, Hd3. rewrite E1 in *.
    cbn [app set_doorbell self files current_doorbell].
    intros hw Ehw. injection Ehw as <-.
    apply Z.ltb_lt in Hlt. rewrite Hs3. cbn [m3 self] in *. rewrite Hself in *.
    split; [reflexivity | split; [reflexivity | split]].
    + intros _. auto.
    + intro Hle. lia.
  - rewrite bind_ret. cbn [ret res st out self].
    cbn [feedbacks doorbell_reads app].
    intros hw Ehw. injection Ehw as <-.
    apply Z.ltb_ge in Hlt. rewrite Hself in *.
    repeat split; try reflexivity; try lia; cbn [m3 self]; congruence.
Qed.

(** With a kernel that does not fail and the object's fields in their
    types, every operation returns. *)
Section TransportReturns.
Hypothesis kernel_ok : never_fails (K := K).

Lemma returns_ioctl fd req :
  returns fields_ok (ioctl fd req) (fun r => fst r <> -1).
Proof.
  intros m Hm. unfold ioctl.
  destruct (kernel_ioctl fd req (kernel m)) as [r k'] eqn:Hk.
  exists r. cbn [res st]. split; [reflexivity |]. split; [| exact Hm].
  destruct kernel_ok as [Hio _]. specialize (Hio fd req (kernel m)).
  rewrite Hk in Hio. exact Hio.
Qed.

Lemma returns_current : returns fields_ok current (fun _ => True).
Proof.
  intros m Hm. unfold current. rewrite bind_get. unfold array_at.
  destruct Hm as [Hd Hl].
  assert (Hb : 0 <= current_doorbell (self m) mod Z.pos IPTS_BUFFERS
               < Z.pos IPTS_BUFFERS) by (apply Z.mod_pos_bound; lia).
  replace (_ <? 0) with false by (symmetry; apply Z.ltb_ge; lia).
  destruct (nth_error (files (self m)) _) as [v |] eqn:Hn.
  - exists v. cbn. split; [reflexivity | split; [exact Logic.I | split; assumption]].
  - apply nth_error_None in Hn. lia.
Qed.

Lemma returns_ready : returns fields_ok ready (fun _ => True).
Proof.
  unfold ready. eapply returns_bind; [apply returns_current |].
  intros fd _. eapply returns_bind; [apply returns_ioctl |].
  intros r _. destruct (fst r =? -1); apply returns_ret; exact Logic.I.
Qed.

Lemma returns_wait_loop n : returns fields_ok (wait_loop n) (fun _ => True).
Proof.
  induction n as [| n IH]; simpl; [apply returns_ret; exact Logic.I |].
  eapply returns_bind; [apply returns_ready |].
  intros [|] _; [apply returns_ret; exact Logic.I |].
  eapply returns_bind; [apply returns_tell | intros _ _; exact IH].
Qed.

Lemma returns_send_feedback_file file :
  returns fields_ok (send_feedback_file file) (fun _ => True).
Proof.
  unfold send_feedback_file.
  eapply returns_bind; [apply returns_wait_loop |]. intros _ _.
  eapply returns_bind; [apply returns_ioctl |]. intros r Hr.
  apply Z.eqb_neq in Hr. rewrite Hr. apply returns_ret. exact Logic.I.
Qed.

Lemma returns_flush : returns fields_ok flush (fun _ => True).
Proof.
  unfold flush. apply returns_for_each. intros i Hi.
  apply in_seq in Hi.
  intros m Hm. rewrite bind_get. unfold array_at.
  replace (_ <? 0) with false by (symmetry; apply Z.ltb_ge; lia).
  rewrite Nat2Z.id.
  destruct (nth_error (files (self m)) i) as [v |] eqn:Hn.
  - rewrite bind_ret. apply returns_send_feedback_file. exact Hm.
  - apply nth_error_None in Hn. destruct Hm as [_ Hl]. lia.
Qed.

Lemma wrap_range w z : 0 <= w -> 0 <= wrap w z < 2 ^ w.
Proof. intro Hw. unfold wrap. apply Z.mod_pos_bound. apply Z.pow_pos_nonneg; lia. Qed.

Lemma fields_ok_set_doorbell z m :
  fields_ok m -> fields_ok (set_doorbell (wrap 32 z) m).
Proof.
  intros [_ Hl]. split; [| exact Hl]. cbn. apply wrap_range. lia.
Qed.

Lemma returns_doorbell : returns fields_ok doorbell (fun _ => True).
Proof.
  unfold doorbell.
  eapply returns_bind; [apply returns_wait_loop |]. intros _ _.
  eapply returns_bind; [apply returns_current |]. intros fd _.
  eapply returns_bind; [apply returns_ioctl |]. intros r Hr.
  apply Z.eqb_neq in Hr. rewrite Hr.
  intros m Hm. rewrite bind_get.
  eapply returns_bind with (P := fun _ => True);
    [| intros _ _; apply returns_ret; exact Logic.I | exact Hm].
  destruct (_ <? _).
  - eapply returns_bind; [apply returns_flush |]. intros _ _.
    apply returns_modify. intros s. apply fields_ok_set_doorbell.
  - apply returns_ret. exact Logic.I.
Qed.

Lemma returns_send_feedback : returns fields_ok send_feedback (fun _ => True).
Proof.
  unfold send_feedback.
  eapply returns_bind; [apply returns_current |]. intros fd _.
  eapply returns_bind; [apply returns_send_feedback_file |]. intros _ _.
  apply returns_modify. intros s. apply fields_ok_set_doorbell.
Qed.

End TransportReturns.

Lemma current_run (m : Machine K) :
  (exists fd,
     nth_error (files (self m))
       (Z.to_nat (current_doorbell (self m) mod Z.pos IPTS_BUFFERS)) = Some fd /\
     current m = mkRes (inr fd) m []) \/
  current m = mkRes (inl out_of_range) m [].
Proof.
  unfold current. rewrite bind_get. unfold array_at.
  destruct (_ <? 0); [right; reflexivity |].
  destruct (nth_error _ _) as [v |]; [left; exists v; auto | right; reflexivity].
Qed.

(** [send_feedback()]: the current buffer is acknowledged and the counter
    moves on by one, as a u32 does; when the call fails, the fields stay. *)
Lemma send_feedback_run (m : Machine K) :
  let r := send_feedback m in
  doorbell_reads (out r) = [] /\
  match res r with
  | inr _ =>
      exists fd,
        nth_error (files (self m))
          (Z.to_nat (current_doorbell (self m) mod Z.pos IPTS_BUFFERS)) = Some fd /\
        feedbacks (out r) = [fd] /\
        files (self (st r)) = files (self m) /\
        current_doorbell (self (st r)) = wrap 32 (current_doorbell (self m) + 1)
  | inl _ => self (st r) = self m /\ feedbacks (out r) = []
  end.
Proof.
  unfold send_feedback.
  destruct (current_run m) as [(fd & Hfd & Hc) | Hc].
  - rewrite (bind_run _ _ _ _ _ _ _ _ Hc). cbn [res st out app].
    destruct (send_feedback_file_run fd m) as (Hs & Hd & Hf).
    destruct (res (send_feedback_file fd m)) as [x | []] eqn:Hr.
    + rewrite (bind_inl _ _ _ _ _ _ Hr). cbn [res st out]. auto.
    + rewrite (bind_inr _ _ _ _ _ _ Hr). cbn [modify res st out].
      rewrite app_nil_r. split; [exact Hd |].
      exists fd. cbn [set_doorbell self files current_doorbell].
      rewrite Hs. auto.
  - rewrite (bind_run_inl _ _ _ _ _ _ _ _ Hc). cbn [res st out]. auto.
Qed.

(** [doorbell] never moves the counter forward, however it ends. *)
Lemma doorbell_never_advances (m : Machine K) :
  files (self (st (doorbell m))) = files (self m) /\
  current_doorbell (self (st (doorbell m))) <= current_doorbell (self m).
Proof.
  unfold doorbell.
  destruct (silent_wait_for_device m) as (Hs & _).
  destruct (res (wait_for_device m)) as [x | []] eqn:Hw.
  { rewrite (bind_inl _ _ _ _ _ _ Hw). cbn [st]. rewrite Hs. split; [reflexivity | lia]. }
  rewrite (bind_inr _ _ _ _ _ _ Hw). cbn [st].
  set (m1 := st (wait_for_device m)) in *.
  destruct (current_run m1) as [(fd & _ & Hc) | Hc].
  2: { rewrite (bind_run_inl _ _ _ _ _ _ _ _ Hc). cbn [res st]. rewrite Hs. split; [reflexivity | lia]. }
  rewrite (bind_run _ _ _ _ _ _ _ _ Hc). cbn [st].
  destruct (ioctl_run fd IPTS_IOCTL_GET_DOORBELL m1) as (rv & av & k' & Hio).
  rewrite (bind_run _ _ _ _ _ _ _ _ Hio). cbn [st fst snd].
  destruct (rv =? -1).
  { cbn [throw st self]. rewrite Hs. split; [reflexivity | lia]. }
  rewrite bind_get. cbn [self].
  set (m3 := mkMachine (self m1) k').
  destruct (wrap 32 av <? current_doorbell (self m1)) eqn:Hlt.
  - rewrite bind_assoc. destruct (flush_run m3) as (Hs3 & _).
    destruct (res (flush m3)) as [x | []] eqn:Hfl.
    + rewrite (bind_inl _ _ _ _ _ _ Hfl). cbn [st]. rewrite Hs3. cbn [m3 self].
      rewrite Hs. split; [reflexivity | lia].
    + rewrite (bind_inr _ _ _ _ _ _ Hfl), bind_modify.
      cbn [ret st set_doorbell self files current_doorbell].
      rewrite Hs3. cbn [m3 self]. apply Z.ltb_lt in Hlt. rewrite Hs in *.
      split; [reflexivity | lia].
  - rewrite bind_ret. cbn [ret st m3 self]. rewrite Hs. split; [reflexivity | lia].
Qed.

Lemma silent_read n : silent (read n).
Proof.
  unfold read. apply silent_bind; [apply silent_wait_for_device |]. intros _.
  apply silent_bind; [apply silent_current |]. intro fd.
  apply silent_bind; [apply silent_read_call |]. intro r.
  destruct (r =? -1); [apply silent_throw | apply silent_ret].
Qed.

Lemma silent_reset : silent reset.
Proof.
  unfold reset. apply silent_bind; [apply silent_wait_for_device |]. intros _.
  apply silent_bind; [apply silent_current |]. intro fd.
  apply silent_bind; [apply silent_ioctl; discriminate |]. intro r.
  destruct (fst r =? -1); [apply silent_throw | apply silent_ret].
Qed.

(** The fields stay in their types through every operation, whether it
    returns or throws. *)
Lemma keeps_fields_silent A (m : TK A) : silent m -> keeps_fields m.
Proof.
  intros Hm s. destruct (Hm s) as [Hs _]. split; [| exact Logic.I].
  unfold Control.fields_ok. rewrite Hs. auto.
Qed.

Lemma keeps_fields_bind A B (m : TK A) (f : A -> TK B) :
  keeps_fields m -> (forall a, keeps_fields (f a)) -> keeps_fields (bind m f).
Proof. apply quiet_bind; auto. Qed.

Lemma keeps_fields_set_doorbell z :
  keeps_fields (modify (set_doorbell (wrap 32 z)) : TK unit).
Proof.
  intro s. split; [| exact Logic.I]. cbn [modify st].
  apply fields_ok_set_doorbell.
Qed.

Lemma keeps_fields_ret A (a : A) : keeps_fields (ret a : TK A).
Proof. intro s. cbn. auto. Qed.

Lemma keeps_fields_throw A (x : exn) : keeps_fields (throw x : TK A).
Proof. intro s. cbn. auto. Qed.

Lemma keeps_fields_ioctl fd req : keeps_fields (ioctl fd req : TK (Z * Z)).
Proof.
  intro s. destruct (ioctl_run fd req s) as (rv & av & k' & Hio).
  rewrite Hio. cbn. auto.
Qed.

Lemma keeps_fields_flush : keeps_fields (flush : TK unit).
Proof.
  intro m. destruct (flush_run m) as (Hs & _). split; [| exact Logic.I].
  unfold Control.fields_ok. rewrite Hs. auto.
Qed.

Lemma keeps_fields_send_feedback_file file :
  keeps_fields (send_feedback_file file : TK unit).
Proof.
  intro m. destruct (send_feedback_file_run file m) as (Hs & _).
  split; [| exact Logic.I]. unfold Control.fields_ok. rewrite Hs. auto.
Qed.

Lemma keeps_fields_doorbell : keeps_fields (doorbell : TK Z).
Proof.
  unfold doorbell.
  apply keeps_fields_bind; [apply keeps_fields_silent, silent_wait_for_device |].
  intros _. apply keeps_fields_bind; [apply keeps_fields_silent, silent_current |].
  intro fd. apply keeps_fields_bind; [apply keeps_fields_ioctl |].
  intro r. destruct (fst r =? -1); [apply keeps_fields_throw |].
  apply keeps_fields_bind; [intro s; cbn; auto |]. intro m.
  apply keeps_fields_bind; [| intros _; apply keeps_fields_ret].
  destruct (_ <? _); [| apply keeps_fields_ret].
  apply keeps_fields_bind; [apply keeps_fields_flush |].
  intros _. apply keeps_fields_set_doorbell.
Qed.

Lemma keeps_fields_send_feedback : keeps_fields (send_feedback : TK unit).
Proof.
  unfold send_feedback.
  apply keeps_fields_bind; [apply keeps_fields_silent, silent_current |].
  intro fd. apply keeps_fields_bind; [apply keeps_fields_send_feedback_file |].
  intros _ s. split; [| exact Logic.I]. cbn [modify st].
  apply fields_ok_set_doorbell.
Qed.

(** C2: a call of [doorbell] that returns has read the hardware doorbell
    once and returns that value.  When the value is below the local
    counter, each of the [IPTS_BUFFERS] buffers has been acknowledged once
    (one flush) and the local counter is the hardware value; otherwise no
    buffer has been acknowledged and the counter is as it was.  Either way
    the local counter does not exceed the hardware value afterwards.  The
    call does return when no kernel call fails. *)
Theorem doorbell_resync (m : Machine K) :
  (never_fails (K := K) -> well_formed (self m) ->
   exists hw, res (doorbell m) = inr hw) /\
  (forall hw, res (doorbell m) = inr hw ->
     doorbell_reads (out (doorbell m)) = [hw] /\
     (hw < current_doorbell (self m) ->
        feedbacks (out (doorbell m)) =
          firstn (Pos.to_nat IPTS_BUFFERS) (files (self m)) /\
        List.length (feedbacks (out (doorbell m))) = Pos.to_nat IPTS_BUFFERS /\
        current_doorbell (self (st (doorbell m))) = hw) /\
     (current_doorbell (self m) <= hw ->
        feedbacks (out (doorbell m)) = [] /\
        current_doorbell (self (st (doorbell m))) = current_doorbell (self m)) /\
     current_doorbell (self (st (doorbell m))) <= hw).
Proof.
  split.
  - intros Hk Hm. destruct (returns_doorbell Hk m Hm) as (hw & Hr & _).
    exists hw. exact Hr.
  - intros hw Hr. destruct (doorbell_run m hw Hr) as (Hd & _ & Hlt & Hge).
    split; [exact Hd |]. split; [exact Hlt |]. split; [exact Hge |].
    destruct (Z.lt_ge_cases hw (current_doorbell (self m))) as [Hc | Hc].
    + destruct (Hlt Hc) as (_ & _ & E). lia.
    + destruct (Hge Hc) as (_ & E). lia.
Qed.

(** C10: [flush] acknowledges each of the [IPTS_BUFFERS] buffers and leaves
    the fields, the counter among them, as they were; so does
    [send_feedback(int)] for its one buffer.  [send_feedback()] acknowledges
    the buffer the counter selects and moves the counter on by one (a u32
    increment).  No other operation moves the counter forward: [read] and
    [reset] leave it and [doorbell] never raises it. *)
Theorem feedback_and_counter (m : Machine K) :
  (self (st (flush m)) = self m /\
   forall u, res (flush m) = inr u ->
     feedbacks (out (flush m)) = firstn (Pos.to_nat IPTS_BUFFERS) (files (self m)) /\
     List.length (feedbacks (out (flush m))) = Pos.to_nat IPTS_BUFFERS) /\
  (forall file,
     self (st (send_feedback_file file m)) = self m /\
     forall u, res (send_feedback_file file m) = inr u ->
       feedbacks (out (send_feedback_file file m)) = [file]) /\
  (forall u, res (send_feedback m) = inr u ->
     exists fd,
       nth_error (files (self m))
         (Z.to_nat (current_doorbell (self m) mod Z.pos IPTS_BUFFERS)) = Some fd /\
       feedbacks (out (send_feedback m)) = [fd] /\
       files (self (st (send_feedback m))) = files (self m) /\
       current_doorbell (self (st (send_feedback m))) =
         wrap 32 (current_doorbell (self m) + 1) /\
       (0 <= current_doorbell (self m) < 2 ^ 32 - 1 ->
        current_doorbell (self (st (send_feedback m))) =
          current_doorbell (self m) + 1)) /\
  (forall n, self (st (read n m)) = self m) /\
  self (st (reset m)) = self m /\
  current_doorbell (self (st (doorbell m))) <= current_doorbell (self m) /\
  (never_fails (K := K) -> well_formed (self m) ->
   (exists u, res (flush m) = inr u) /\ (exists u, res (send_feedback m) = inr u)).
Proof.
  split; [| split; [| split; [| split; [| split; [| split]]]]].
  - destruct (flush_run m) as (Hs & _ & Hf). split; [exact Hs | exact Hf].
  - intro file. destruct (send_feedback_file_run file m) as (Hs & _ & Hf).
    split; [exact Hs |]. intros u Hu. rewrite Hu in Hf. exact Hf.
  - intros u Hu. destruct (send_feedback_run m) as (_ & Hr). rewrite Hu in Hr.
    destruct Hr as (fd & Hfd & Hf & Hfiles & Hc). exists fd.
    repeat (split; [assumption |]). intro Hrange. rewrite Hc. unfold wrap.
    apply Z.mod_small. lia.
  - intro n. apply (silent_read n m).
  - apply (silent_reset m).
  - apply (doorbell_never_advances m).
  - intros Hk Hm. split.
    + destruct (returns_flush Hk m Hm) as (u & Hu & _). eauto.
    + destruct (returns_send_feedback Hk m Hm) as (u & Hu & _). eauto.
Qed.

End TransportProps.

Section TransportWitnesses.
Import Control Samples.

Lemma steady_kernel_never_fails : never_fails (KM := steady_kernel).
Proof.
  split.
  - intros fd req [n d]. destruct req; cbn; try discriminate.
    destruct n; cbn; discriminate.
  - intros fd n k. cbn. lia.
Qed.

Lemma regressed_well_formed : well_formed (H := four_buffers) (self regressed).
Proof. split; [cbn; lia | reflexivity]. Qed.

Lemma advanced_well_formed : well_formed (H := four_buffers) (self advanced).
Proof. split; [cbn; lia | reflexivity]. Qed.

Lemma doorbell_resync_witness :
  let run := doorbell (KM := steady_kernel) (H := four_buffers) regressed in
  res run = inr 3 /\
  (exists hw, res run = inr hw) /\
  doorbell_reads (out run) = [3] /\
  feedbacks (out run) = [10; 11; 12; 13] /\
  current_doorbell (self (st run)) = 3.
Proof.
  pose proof (doorbell_resync (KM := steady_kernel) (H := four_buffers) regressed)
    as [Hret Hrun].
  assert (Hres : res (doorbell (KM := steady_kernel) (H := four_buffers) regressed)
                 = inr 3) by reflexivity.
  destruct (Hrun 3 Hres) as (Hreads & Hlt & _ & _).
  destruct (Hlt ltac:(cbn; lia)) as (Hf & _ & Hc).
  cbv zeta. split; [exact Hres |].
  split; [exact (Hret steady_kernel_never_fails regressed_well_formed) |].
  split; [exact Hreads |]. split; [exact Hf | exact Hc].
Defined.

Lemma feedback_and_counter_witness :
  let m := advanced in
  feedbacks (out (flush (KM := steady_kernel) (H := four_buffers) m))
    = [10; 11; 12; 13] /\
  current_doorbell (self (st (flush (KM := steady_kernel) (H := four_buffers) m)))
    = 5 /\
  res (send_feedback (KM := steady_kernel) (H := four_buffers) m) = inr tt /\
  current_doorbell
    (self (st (send_feedback (KM := steady_kernel) (H := four_buffers) m))) = 6.
Proof.
  pose proof (feedback_and_counter (KM := steady_kernel) (H := four_buffers) advanced)
    as ((Hfs & Hff) & _ & Hsf & _).
  cbv zeta. split; [| split; [| split]].
  - exact (proj1 (Hff tt eq_refl)).
  - rewrite Hfs. reflexivity.
  - reflexivity.
  - destruct (Hsf tt eq_refl) as (fd & _ & _ & _ & _ & Hc).
    exact (Hc ltac:(cbn; lia)).
Defined.

End TransportWitnesses.

(* ================================================================== *)
(** ** Ordered sets *)

Section SetProps.
Import StdSet.

Lemma insert_In (x z : N) (s : t) : In z (insert x s) <-> z = x \/ In z s.
Proof.
  induction s as [| y r IH]; simpl.
  - intuition.
  - destruct (x <? y)%N eqn:Hlt; simpl; [intuition |].
    destruct (x =? y)%N eqn:Heq; simpl.
    + apply N.eqb_eq in Heq. subst. intuition.
    + rewrite IH. intuition.
Qed.

Lemma insert_ascending (x : N) (s : t) : ascending s -> ascending (insert x s).
Proof.
  unfold ascending. induction 1 as [| y r Hr IH Hy]; simpl.
  - constructor; constructor.
  - destruct (x <? y)%N eqn:Hlt.
    + apply N.ltb_lt in Hlt. constructor.
      * constructor; assumption.
      * constructor; [exact Hlt |].
        eapply Forall_impl; [| exact Hy]. intros a Ha. cbv beta in *. lia.
    + destruct (x =? y)%N eqn:Heq.
      * constructor; assumption.
      * apply N.ltb_ge in Hlt. apply N.eqb_neq in Heq.
        constructor; [exact IH |].
        apply Forall_forall. intros a Ha. apply insert_In in Ha.
        destruct Ha as [-> | Ha]; [lia |].
        rewrite Forall_forall in Hy. exact (Hy a Ha).
Qed.

Lemma inserter_In (xs : list N) : forall (s : t) (z : N),
  In z (inserter s xs) <-> In z xs \/ In z s.
Proof.
  unfold inserter. induction xs as [| x xs IH]; intros s z; simpl.
  - intuition.
  - rewrite IH, insert_In. intuition.
Qed.

Lemma inserter_ascending (xs : list N) : forall s : t,
  ascending s -> ascending (inserter s xs).
Proof.
  unfold inserter. induction xs as [| x xs IH]; intros s Hs; simpl.
  - exact Hs.
  - apply IH. apply insert_ascending. exact Hs.
Qed.

Lemma ascending_NoDup (s : t) : ascending s -> NoDup s.
Proof.
  unfold ascending. induction 1 as [| y r Hr IH Hy]; constructor; [| exact IH].
  intro Hin. rewrite Forall_forall in Hy. specialize (Hy y Hin). lia.
Qed.

Lemma set_difference_nil_r (a : list N) : set_difference a [] = a.
Proof. destruct a; reflexivity. Qed.

Lemma set_difference_cons (x y : N) (a b : list N) :
  set_difference (x :: a) (y :: b) =
  if (x <? y)%N then x :: set_difference a (y :: b)
  else if (y <? x)%N then set_difference (x :: a) b
  else set_difference a b.
Proof. reflexivity. Qed.

Lemma set_difference_incl (a : list N) : forall (b : list N) (z : N),
  In z (set_difference a b) -> In z a.
Proof.
  induction a as [| x a IHa]; intros b z; [simpl; auto |].
  induction b as [| y b IHb].
  - rewrite set_difference_nil_r. auto.
  - rewrite set_difference_cons.
    destruct (x <? y)%N; [| destruct (y <? x)%N].
    + intros [-> | Hin]; [left; reflexivity | right; eapply IHa; exact Hin].
    + exact IHb.
    + intro Hin. right. eapply IHa. exact Hin.
Qed.

(** On ascending ranges the algorithm computes the difference of the sets. *)
Lemma set_difference_In (a : list N) : forall (b : list N) (z : N),
  ascending a -> ascending b ->
  (In z (set_difference a b) <-> In z a /\ ~ In z b).
Proof.
  unfold ascending.
  induction a as [| x a IHa]; intros b z Ha Hb; [simpl; intuition |].
  inversion Ha as [| ? ? Ha' Hx]; subst. rewrite Forall_forall in Hx.
  induction b as [| y b IHb].
  - rewrite set_difference_nil_r. simpl. intuition.
  - inversion Hb as [| ? ? Hb' Hy]; subst. rewrite Forall_forall in Hy.
    rewrite set_difference_cons.
    destruct (x <? y)%N eqn:Hxy; [| destruct (y <? x)%N eqn:Hyx].
    + apply N.ltb_lt in Hxy. simpl. rewrite (IHa (y :: b) z Ha' Hb). simpl.
      split.
      * intros [<- | [Hin Hn]]; [| tauto].
        split; [left; reflexivity |].
        intros [E | Hin]; [lia |]. specialize (Hy x Hin). lia.
      * intros [[E | Hin] Hn]; [left; exact E | right; tauto].
    + apply N.ltb_lt in Hyx. rewrite (IHb Hb'). simpl.
      split.
      * intros [Hin Hn]. split; [exact Hin |].
        intros [E | Hb0]; [| tauto]. subst z.
        destruct Hin as [E | Hin]; [lia |]. specialize (Hx y Hin). lia.
      * intros [Hin Hn]. tauto.
    + apply N.ltb_ge in Hxy. apply N.ltb_ge in Hyx.
      assert (x = y) by lia. subst y.
      rewrite (IHa b z Ha' Hb'). simpl.
      split.
      * intros [Hin Hn]. split; [right; exact Hin |].
        intros [E | Hb0]; [| tauto]. subst z. specialize (Hx x Hin). lia.
      * intros [[E | Hin] Hn]; [tauto |]. tauto.
Qed.

End SetProps.

(* ================================================================== *)
(** ** The touch device *)

Section LoopBlocks.
Context {X S E : Type}.

(** A loop of atomic blocks that leaves the state alone. *)
Lemma for_each_blocks A (body : A -> M X S E unit) (blk : A -> option (list E))
      (e : X) (s : S) :
  (forall a, body a s = match blk a with
                        | Some evs => mkRes (inr tt) s evs
                        | None => mkRes (inl e) s []
                        end) ->
  forall l, for_each l body s =
            mkRes (if fst (run_blocks blk l) then inr tt else inl e) s
                  (snd (run_blocks blk l)).
Proof.
  intros Hb l. induction l as [| a t IH]; cbn [for_each run_blocks].
  - reflexivity.
  - specialize (Hb a). destruct (blk a) as [evs |].
    + rewrite (bind_run _ _ _ _ _ _ _ _ Hb), IH. reflexivity.
    + rewrite (bind_run_inl _ _ _ _ _ _ _ _ Hb). reflexivity.
Qed.

Lemma run_blocks_total A (blk : A -> option (list E)) (l : list A) :
  (forall a, In a l -> blk a <> None) -> fst (run_blocks blk l) = true.
Proof.
  induction l as [| a t IH]; intro Hall; cbn [run_blocks]; [reflexivity |].
  destruct (blk a) eqn:Hb.
  - cbn [fst]. apply IH. intros b Hin. apply Hall. right. exact Hin.
  - exfalso. apply (Hall a); [left; reflexivity | exact Hb].
Qed.

Lemma run_blocks_through A (blk : A -> option (list E)) (f : A -> list E)
      (l : list A) :
  (forall a evs, blk a = Some evs -> evs = f a) ->
  fst (run_blocks blk l) = true -> snd (run_blocks blk l) = flat_map f l.
Proof.
  intro Hf. induction l as [| a t IH]; cbn [run_blocks flat_map]; [reflexivity |].
  destruct (blk a) as [evs |] eqn:Hb; cbn [fst snd]; [| discriminate].
  intro Ht. rewrite (IH Ht), (Hf a evs Hb). reflexivity.
Qed.

(** Whatever was written comes from the blocks of the list. *)
Lemma run_blocks_In A (blk : A -> option (list E)) (l : list A) (ev : E) :
  In ev (snd (run_blocks blk l)) ->
  exists a evs, In a l /\ blk a = Some evs /\ In ev evs.
Proof.
  induction l as [| a t IH]; cbn [run_blocks]; [intros [] |].
  destruct (blk a) as [evs |] eqn:Hb; cbn [snd]; [| intros []].
  intro Hin. apply in_app_or in Hin. destruct Hin as [Hin | Hin].
  - exists a, evs. split; [left; reflexivity | auto].
  - destruct (IH Hin) as (b & evs' & Hb' & He & Hi).
    exists b, evs'. split; [right; exact Hb' | auto].
Qed.

End LoopBlocks.

(* ================================================================== *)
(** ** Doubles: [std::round], [gsl::narrow] and the conversion from [int] *)

Section RoundingProps.
Import F64.

Lemma digits2_pos_iter (p : positive) (k : positive) :
  digits2_pos (Pos.iter xO p k) = (digits2_pos p + k)%positive.
Proof.
  induction k as [| k IH] using Pos.peano_ind.
  - cbn. lia.
  - rewrite Pos.iter_succ. cbn [digits2_pos]. rewrite IH. lia.
Qed.

Lemma iter_xO_value (p k : positive) :
  Z.pos (Pos.iter xO p k) = Z.pos p * 2 ^ Z.pos k.
Proof.
  induction k as [| k IH] using Pos.peano_ind.
  - cbn. lia.
  - rewrite Pos.iter_succ, Pos2Z.inj_xO, IH, Pos2Z.inj_succ, Z.pow_succ_r by lia. lia.
Qed.

Lemma fexp_53 (e : Z) : -1074 <= e -> fexp prec emax (53 + e) - e = 0.
Proof. intro He. unfold fexp, emin, prec, emax. lia. Qed.

Lemma binary_round_aux_canonical (s : bool) (m : positive) (e : Z) :
  Z.pos (digits2_pos m) = 53 -> -1074 <= e <= 971 ->
  binary_round_aux prec emax s (Z.pos m) e loc_Exact = S754_finite s m e.
Proof.
  intros Hd He.
  assert (Hs : shr_fexp prec emax (Z.pos m) e loc_Exact
               = (Build_shr_record (Z.pos m) false false, e)).
  { unfold shr_fexp. cbn [Zdigits2 shr_record_of_loc]. rewrite Hd, fexp_53 by lia.
    reflexivity. }
  unfold binary_round_aux. rewrite Hs.
  cbn [shr_m loc_of_shr_record round_nearest_even]. rewrite Hs. cbn [shr_m].
  unfold emax, prec.
  destruct (Z.leb e (Z.sub 1024 53)) eqn:Hle; [reflexivity |].
  apply Z.leb_gt in Hle. lia.
Qed.

Lemma binary_round_exact (s : bool) (p : positive) :
  Z.pos (digits2_pos p) <= 53 ->
  binary_round prec emax s p 0 =
  S754_finite s
    (match (53 - Z.pos (digits2_pos p))%Z with
     | Z.pos k => Pos.iter xO p k
     | _ => p
     end)
    (Z.pos (digits2_pos p) - 53).
Proof.
  intro Hd. unfold binary_round, shl_align.
  assert (Hf : fexp prec emax (Z.pos (digits2_pos p) + 0) = Z.pos (digits2_pos p) - 53).
  { unfold fexp, emin, prec, emax. lia. }
  rewrite Hf.
  remember (digits2_pos p) as d eqn:Ed.
  destruct (Z.pos d - 53 - 0) as [| q | q] eqn:Hq; try lia.
  - replace (53 - Z.pos d) with 0 by lia.
    replace (Z.pos d - 53) with 0 by lia.
    apply binary_round_aux_canonical; [rewrite <- Ed; lia | lia].
  - assert (H53 : 53 - Z.pos d = Z.pos q) by lia. rewrite H53.
    apply binary_round_aux_canonical; [| lia].
    rewrite digits2_pos_iter, <- Ed. lia.
Qed.

Lemma digits2_pos_bounds (p : positive) :
  2 ^ (Z.pos (digits2_pos p) - 1) <= Z.pos p < 2 ^ Z.pos (digits2_pos p).
Proof.
  induction p as [p IH | p IH |]; cbn [digits2_pos].
  - rewrite Pos2Z.inj_succ.
    replace (Z.succ (Z.pos (digits2_pos p)) - 1) with (Z.succ (Z.pos (digits2_pos p) - 1)) by lia.
    rewrite !Z.pow_succ_r by lia.
    set (a := 2 ^ (Z.pos (digits2_pos p) - 1)) in *.
    set (b := 2 ^ Z.pos (digits2_pos p)) in *. lia.
  - rewrite Pos2Z.inj_succ.
    replace (Z.succ (Z.pos (digits2_pos p)) - 1) with (Z.succ (Z.pos (digits2_pos p) - 1)) by lia.
    rewrite !Z.pow_succ_r by lia.
    set (a := 2 ^ (Z.pos (digits2_pos p) - 1)) in *.
    set (b := 2 ^ Z.pos (digits2_pos p)) in *. lia.
  - cbn. lia.
Qed.

Lemma digits2_pos_le (p : positive) (n : Z) :
  0 <= n -> Z.pos p < 2 ^ n -> Z.pos (digits2_pos p) <= n.
Proof.
  intros Hn Hlt. destruct (digits2_pos_bounds p) as [Hlo _].
  destruct (Z_le_gt_dec (Z.pos (digits2_pos p)) n) as [Hle | Hgt]; [exact Hle |].
  exfalso. assert (H2 : 2 ^ n <= 2 ^ (Z.pos (digits2_pos p) - 1))
    by (apply Z.pow_le_mono_r; lia). lia.
Qed.

(** The mantissa and the exponent of a double are within the format. *)
Lemma finite_bounds (d : f64) s m e :
  Prim2SF d = S754_finite s m e -> Z.pos m < 2 ^ 53 /\ -1074 <= e <= 971.
Proof.
  intro Hd. pose proof (Prim2SF_valid d) as Hv. rewrite Hd in Hv.
  unfold SpecFloat.valid_binary, bounded, canonical_mantissa, fexp, emin, prec, emax in Hv.
  apply andb_prop in Hv. destruct Hv as [Hc He].
  apply Z.eqb_eq in Hc. apply Z.leb_le in He.
  destruct (digits2_pos_bounds m) as [_ Hhi].
  assert (Hdig : Z.pos (digits2_pos m) <= 53) by lia.
  split; [| lia].
  eapply Z.lt_le_trans; [exact Hhi |]. apply Z.pow_le_mono_r; lia.
Qed.

Lemma integral_of_pos (s : bool) (p : positive) (d : f64) :
  Z.pos p < 2 ^ 53 ->
  Prim2SF d = binary_round prec emax s p 0 ->
  integral d = Some (if s then - Z.pos p else Z.pos p).
Proof.
  intros Hp Hd. unfold integral. rewrite Hd.
  rewrite binary_round_exact by (apply digits2_pos_le; lia).
  pose proof (digits2_pos_le p 53 ltac:(lia) Hp) as Hdig.
  destruct (53 - Z.pos (digits2_pos p)) as [| k | k] eqn:Hk; try lia.
  - replace (Z.pos (digits2_pos p) - 53) with 0 by lia. cbn [Z.leb Z.compare].
    rewrite Z.shiftl_0_r. reflexivity.
  - replace (Z.pos (digits2_pos p) - 53) with (Z.neg k) by lia.
    cbn [Z.leb Z.compare Z.opp]. rewrite iter_xO_value.
    rewrite Z.land_ones by lia. rewrite Z.mod_mul by lia. cbn [Z.eqb].
    rewrite Z.shiftr_div_pow2 by lia. rewrite Z.div_mul by lia. reflexivity.
Qed.

Lemma of_Z_small (z : Z) : 0 <= z < 2 ^ 53 -> Uint63.to_Z (Uint63.of_Z z) = z.
Proof.
  intro Hz. rewrite Uint63.of_Z_spec. apply Z.mod_small.
  change Uint63.wB with (2 ^ 63). split; [lia |].
  apply Z.lt_le_trans with (2 ^ 53); [lia | apply Z.pow_le_mono_r; lia].
Qed.

Lemma integral_opp (d : f64) :
  integral (PrimFloat.opp d) = option_map Z.opp (integral d).
Proof.
  unfold integral. rewrite opp_spec.
  destruct (Prim2SF d) as [s | s | | s m e]; cbn [SFopp option_map]; try reflexivity.
  destruct (0 <=? e); [destruct s; cbn [negb option_map]; f_equal; lia |].
  destruct (Z.land (Z.pos m) (Z.ones (- e)) =? 0); [| reflexivity].
  destruct s; cbn [negb option_map]; f_equal; lia.
Qed.

(** An [int] converts to the double of the same value. *)
Lemma integral_of_int (z : Z) : - 2 ^ 53 < z < 2 ^ 53 -> integral (of_int z) = Some z.
Proof.
  intro Hz. unfold of_int. destruct (z <? 0) eqn:Hneg.
  - apply Z.ltb_lt in Hneg. destruct z as [| p | p]; try lia.
    cbn [Z.opp]. rewrite integral_opp.
    rewrite (integral_of_pos false p); [reflexivity | lia |].
    rewrite of_uint63_spec, of_Z_small by lia. reflexivity.
  - apply Z.ltb_ge in Hneg. destruct z as [| p | p]; try lia.
    + unfold integral. rewrite of_uint63_spec. reflexivity.
    + apply (integral_of_pos false p); [lia |].
      rewrite of_uint63_spec, of_Z_small by lia. reflexivity.
Qed.

Lemma integral_spec (d : f64) (z : Z) : integral d = Some z <-> denotes d z.
Proof.
  unfold integral, denotes, exact, is_value.
  destruct (Prim2SF d) as [s | s | | s m e] eqn:Hd.
  - split.
    + intro H. injection H as <-. exists 0, 0. split; reflexivity.
    + intros (M & e & H & Hv). injection H as <- <-. cbn in Hv. subst z. reflexivity.
  - split; [discriminate | intros (M & e & H & _); discriminate].
  - split; [discriminate | intros (M & e & H & _); discriminate].
  - set (M0 := if s then Z.neg m else Z.pos m).
    assert (HM : M0 = if s then - Z.pos m else Z.pos m) by (destruct s; reflexivity).
    clearbody M0.
    destruct (0 <=? e) eqn:He.
    + apply Z.leb_le in He. rewrite Z.shiftl_mul_pow2 by lia.
      set (w := 2 ^ e) in *. split.
      * intro H.
        assert (Hz : z = if s then - (Z.pos m * w) else Z.pos m * w) by congruence.
        exists M0, e. split; [reflexivity |].
        apply Z.leb_le in He. rewrite He. fold w.
        rewrite Hz, HM. destruct s; ring.
      * intros (M & e' & H & Hv). injection H as <- <-.
        apply Z.leb_le in He. rewrite He in Hv. fold w in Hv. rewrite Hv, HM.
        destruct s; f_equal; ring.
    + apply Z.leb_gt in He.
      assert (Hpow : 0 < 2 ^ (- e)) by (apply Z.pow_pos_nonneg; lia).
      rewrite Z.land_ones, Z.shiftr_div_pow2 by lia.
      pose proof (Z.div_mod (Z.pos m) (2 ^ (- e)) ltac:(lia)) as Hdm.
      split.
      * destruct (Z.pos m mod 2 ^ (- e) =? 0) eqn:Hm; [| discriminate].
        apply Z.eqb_eq in Hm. intro H.
        set (q := Z.pos m / 2 ^ (- e)) in *.
        set (w := 2 ^ (- e)) in *.
        assert (Hz : z = if s then - q else q) by congruence.
        exists M0, e. split; [reflexivity |].
        apply Z.leb_gt in He. rewrite He. fold w.
        rewrite Hm in Hdm. rewrite Hz, HM. destruct s; nia.
      * intros (M & e' & H & Hv). injection H as <- <-.
        apply Z.leb_gt in He. rewrite He in Hv.
        assert (Hm : Z.pos m = (if s then - z else z) * 2 ^ (- e)).
        { set (w := 2 ^ (- e)) in *. rewrite HM in Hv. destruct s; nia. }
        rewrite Hm, Z.mod_mul, Z.div_mul by lia. cbn [Z.eqb].
        destruct s; f_equal; lia.
Qed.

Lemma halfway_bit (m k : Z) :
  0 <= m -> 1 <= k ->
  Z.testbit m (k - 1) = true <-> 2 ^ (k - 1) <= m mod 2 ^ k.
Proof.
  intros Hm Hk. rewrite Z.testbit_true by lia.
  assert (Hh : 0 < 2 ^ (k - 1)) by (apply Z.pow_pos_nonneg; lia).
  assert (Hp : 2 ^ k = 2 * 2 ^ (k - 1)).
  { replace k with (Z.succ (k - 1)) at 1 by lia. apply Z.pow_succ_r. lia. }
  set (h := 2 ^ (k - 1)) in *. rewrite Hp.
  pose proof (Z.div_mod m h ltac:(lia)) as E1.
  pose proof (Z.mod_pos_bound m h ltac:(lia)) as B1.
  pose proof (Z.div_mod (m / h) 2 ltac:(lia)) as E2.
  pose proof (Z.mod_pos_bound (m / h) 2 ltac:(lia)) as B2.
  set (t := m / h) in *. set (u := m mod h) in *.
  set (b := t mod 2) in *. set (q := t / 2) in *.
  assert (Hr : m mod (2 * h) = h * b + u).
  { symmetry. apply (Z.mod_unique m (2 * h) q); [left; nia | nia]. }
  rewrite Hr. nia.
Qed.

Lemma round_integral (d : f64) (M e : Z) :
  exact d = Some (M, e) ->
  exists z, integral (round d) = Some z /\ nearest_away M e z.
Proof.
  unfold exact, round. destruct (Prim2SF d) as [s | s | | s m e'] eqn:Hd; try discriminate.
  - intro H. injection H as <- <-. exists 0. split; [| reflexivity].
    unfold integral. rewrite Hd. reflexivity.
  - intro H. injection H as <- <-.
    destruct (finite_bounds d s m e' Hd) as [Hm He].
    destruct (0 <=? e') eqn:Hle.
    + exists ((if s then Z.neg m else Z.pos m) * 2 ^ e'). split.
      * apply integral_spec. eexists _, e'. unfold exact. rewrite Hd.
        split; [reflexivity |]. unfold is_value. rewrite Hle. reflexivity.
      * unfold nearest_away. rewrite Hle. reflexivity.
    + apply Z.leb_gt in Hle. cbv zeta.
      assert (Hk : 1 <= - e') by lia.
      assert (Hpow : 0 < 2 ^ (- e')) by (apply Z.pow_pos_nonneg; lia).
      assert (Hp : 2 ^ (- e') = 2 * 2 ^ (- e' - 1)).
      { replace (- e') with (Z.succ (- e' - 1)) at 1 by lia. apply Z.pow_succ_r. lia. }
      rewrite Z.shiftr_div_pow2 by lia.
      pose proof (Z.div_mod (Z.pos m) (2 ^ (- e')) ltac:(lia)) as Edm.
      pose proof (Z.mod_pos_bound (Z.pos m) (2 ^ (- e')) Hpow) as Bdm.
      pose proof (halfway_bit (Z.pos m) (- e') ltac:(lia) Hk) as Hbit.
      set (q := Z.pos m / 2 ^ (- e')) in *.
      set (r := Z.pos m mod 2 ^ (- e')) in *.
      assert (Hq : 0 <= q) by (apply Z.div_pos; lia).
      assert (Hqm : q < 2 ^ 52).
      { apply Z.div_lt_upper_bound; [lia |].
        apply Z.lt_le_trans with (2 ^ 53); [exact Hm |].
        replace (2 ^ 53) with (2 * 2 ^ 52) by reflexivity.
        apply Z.mul_le_mono_nonneg_r; lia. }
      set (n := if Z.testbit (Z.pos m) (- e' - 1) then q + 1 else q).
      assert (Hn : 0 <= n <= 2 ^ 52) by (unfold n; destruct (Z.testbit _ _); lia).
      assert (Hnear : 2 * Z.abs (n * 2 ^ (- e') - Z.pos m) <= 2 ^ (- e') /\
                      (2 * Z.abs (n * 2 ^ (- e') - Z.pos m) = 2 ^ (- e') ->
                       Z.pos m < n * 2 ^ (- e'))).
      { unfold n. destruct (Z.testbit (Z.pos m) (- e' - 1)) eqn:Hb.
        - assert (Hr : 2 ^ (- e' - 1) <= r) by (apply Hbit; reflexivity). nia.
        - assert (Hr : ~ 2 ^ (- e' - 1) <= r).
          { intro Hc. apply Hbit in Hc. congruence. }
          nia. }
      assert (Hint : integral (of_int n) = Some n).
      { apply integral_of_int.
        assert (H52 : 2 ^ 52 < 2 ^ 53) by reflexivity.
        assert (H53 : - 2 ^ 53 < 0) by reflexivity. lia. }
      exists (if s then - n else n). split.
      * destruct s; [rewrite integral_opp, Hint; reflexivity | exact Hint].
      * unfold nearest_away. apply Z.leb_gt in Hle. rewrite Hle.
        destruct Hnear as [H1 H2]. destruct s.
        -- replace (- n * 2 ^ (- e') - Z.neg m) with (- (n * 2 ^ (- e') - Z.pos m)) by lia.
           rewrite Z.abs_opp. split; [exact H1 |]. intro Ht. specialize (H2 Ht). lia.
        -- split; [exact H1 |]. intro Ht. specialize (H2 Ht). lia.
Qed.

Lemma nearest_away_lt (M w z1 z2 : Z) :
  0 < w -> z1 < z2 ->
  2 * Z.abs (z1 * w - M) <= w ->
  (2 * Z.abs (z1 * w - M) = w -> Z.abs M < Z.abs (z1 * w)) ->
  2 * Z.abs (z2 * w - M) <= w ->
  (2 * Z.abs (z2 * w - M) = w -> Z.abs M < Z.abs (z2 * w)) ->
  False.
Proof.
  intros Hw Hlt A1 B1 A2 B2.
  assert (Hstep : z2 * w = z1 * w + (z2 - z1) * w) by ring.
  assert (Hgap : w <= (z2 - z1) * w) by nia.
  set (a := z1 * w) in *. set (b := z2 * w) in *. set (g := (z2 - z1) * w) in *.
  assert (Ha : 2 * (M - a) = w) by lia.
  assert (Hb : 2 * (b - M) = w) by lia.
  assert (Hg : g = w) by lia.
  assert (H1 : z2 = z1 + 1) by (unfold g in Hg; nia).
  assert (T1 : Z.abs M < Z.abs a) by (apply B1; lia).
  assert (T2 : Z.abs M < Z.abs b) by (apply B2; lia).
  destruct (Z_le_gt_dec 0 M) as [Hpos | Hneg].
  - assert (Hneg1 : a < 0) by lia. assert (Hpos2 : 0 < b) by lia.
    clearbody g. subst a b. clear - Hw H1 Hneg1 Hpos2.
    assert (z1 < 0) by nia. assert (0 < z2) by nia. lia.
  - assert (Hpos2 : 0 < b) by lia. assert (Hneg1 : a < 0) by lia.
    clearbody g. subst a b. clear - Hw H1 Hneg1 Hpos2.
    assert (z1 < 0) by nia. assert (0 < z2) by nia. lia.
Qed.

Lemma nearest_away_unique (M e z1 z2 : Z) :
  nearest_away M e z1 -> nearest_away M e z2 -> z1 = z2.
Proof.
  unfold nearest_away. destruct (0 <=? e) eqn:He; [congruence |].
  apply Z.leb_gt in He.
  assert (Hpow : 0 < 2 ^ (- e)) by (apply Z.pow_pos_nonneg; lia).
  intros [A1 B1] [A2 B2].
  destruct (Z.lt_total z1 z2) as [Hd | [E | Hd]]; [exfalso | exact E | exfalso].
  - exact (nearest_away_lt M _ z1 z2 Hpow Hd A1 B1 A2 B2).
  - exact (nearest_away_lt M _ z2 z1 Hpow Hd A2 B2 A1 B1).
Qed.

Lemma exact_none (d : f64) : exact d = None -> integral (round d) = None.
Proof.
  unfold exact, round, integral.
  destruct (Prim2SF d) as [s | s | | s m e] eqn:Hd; try discriminate;
    intros _; rewrite Hd; reflexivity.
Qed.

(** [gsl::narrow<i32>(std::round(d))] returns [z] exactly when [d] is
    finite, [z] is the integer nearest to it (halfway away from zero) and
    [z] is an [i32]. *)
Lemma narrow_round_spec (d : f64) (z : Z) :
  narrow_i32 (round d) = Some z <-> rounded_i32 d z.
Proof.
  unfold narrow_i32, rounded_i32, rounds_to. split.
  - destruct (exact d) as [[M e] |] eqn:Hx.
    + destruct (round_integral d M e Hx) as (z0 & Hi & Hn). rewrite Hi.
      destruct ((INT32_MIN <=? z0) && (z0 <=? INT32_MAX)) eqn:Hr; [| discriminate].
      intro H. injection H as <-. apply andb_prop in Hr. destruct Hr as [H1 H2].
      apply Z.leb_le in H1, H2. split; [exists M, e; auto | lia].
    + rewrite (exact_none d Hx). discriminate.
  - intros [(M & e & Hx & Hn) Hr].
    destruct (round_integral d M e Hx) as (z0 & Hi & Hn0). rewrite Hi.
    rewrite (nearest_away_unique M e z0 z Hn0 Hn).
    destruct Hr as [H1 H2]. apply Z.leb_le in H1, H2. rewrite H1, H2. reflexivity.
Qed.

Lemma of_int_denotes (z : Z) : - 2 ^ 53 < z < 2 ^ 53 -> denotes (of_int z) z.
Proof. intro Hz. apply integral_spec, integral_of_int, Hz. Qed.

End RoundingProps.

Section TouchProps.
Import Touch F64.
Context {P : protocol_h}.

Local Abbreviation DM := (M exn TouchDevice input_event).

Lemma bind_narrow_usize B (n : N) (f : Z -> DM B) s :
  bind (narrow_usize n) f s =
  match usize_i32 n with
  | Some v => f v s
  | None => mkRes (inl narrowing_error) s []
  end.
Proof.
  unfold narrow_usize, usize_i32.
  destruct (Z.of_N n <=? INT32_MAX); [apply bind_ret | apply bind_throw].
Qed.

Lemma bind_narrow_f64 B (d : f64) (f : Z -> DM B) s :
  bind (narrow_f64 d) f s =
  match narrow_i32 d with
  | Some v => f v s
  | None => mkRes (inl narrowing_error) s []
  end.
Proof.
  unfold narrow_f64.
  destruct (narrow_i32 d); [apply bind_ret | apply bind_throw].
Qed.

Lemma lift_multitouch_run (i : N) (s : TouchDevice) :
  lift_multitouch i s =
  match lift_events i with
  | Some evs => mkRes (inr tt) s evs
  | None => mkRes (inl narrowing_error) s []
  end.
Proof.
  unfold lift_multitouch, lift_events. rewrite bind_narrow_usize.
  destruct (usize_i32 i); reflexivity.
Qed.

Lemma lift_all_step_run (i : N) (s : TouchDevice) :
  (v <- narrow_usize i ;; emit EV_ABS ABS_MT_SLOT v ;; lift_multitouch i) s =
  match lift_all_events i with
  | Some evs => mkRes (inr tt) s evs
  | None => mkRes (inl narrowing_error) s []
  end.
Proof.
  unfold lift_all_events. rewrite bind_narrow_usize.
  destruct (usize_i32 i) as [v |] eqn:Hv; [| reflexivity].
  unfold emit. rewrite bind_tell, lift_multitouch_run. unfold lift_events.
  rewrite Hv. reflexivity.
Qed.

Lemma emit_multitouch_run (c : Contact) (s : TouchDevice) :
  emit_multitouch c s =
  match emit_events (m_config s) c with
  | Some evs => mkRes (inr tt) s evs
  | None => mkRes (inl narrowing_error) s []
  end.
Proof.
  unfold emit_multitouch, emit_events, inverted_mean, inverted_orientation.
  rewrite bind_get.
  destruct (invert_x (m_config s)), (invert_y (m_config s));
    cbn [negb Bool.eqb xorb x y];
    rewrite bind_narrow_usize; destruct (usize_i32 _); try reflexivity;
    repeat (rewrite bind_narrow_f64; destruct (narrow_i32 _); try reflexivity).
Qed.

Lemma contact_step_run (c : Contact) (s : TouchDevice) :
  (if negb (has_value (index c)) then ret tt
   else if negb (value_or (stable c) true) then ret tt
   else if value_or (valid c) true then emit_multitouch c
   else lift_multitouch (value_or (index c) 0%N)) s =
  match contact_events (m_config s) c with
  | Some evs => mkRes (inr tt) s evs
  | None => mkRes (inl narrowing_error) s []
  end.
Proof.
  unfold contact_events. destruct (index c) as [i |]; cbn [has_value negb value_or];
    [| reflexivity].
  destruct (negb (value_or (stable c) true)); [reflexivity |].
  destruct (value_or (valid c) true).
  - apply emit_multitouch_run.
  - apply lift_multitouch_run.
Qed.

(** *** The contact tracker *)

Lemma search_loop (contacts : list Contact) : forall s : TouchDevice,
  for_each contacts (fun contact =>
    match index contact with
    | None => (ret tt : DM unit)
    | Some i => modify (fun s => set_current (StdSet.insert i (m_current s)) s)
    end) s =
  mkRes (inr tt) (set_current (fold_left track_step contacts (m_current s)) s) [].
Proof.
  induction contacts as [| c cs IH]; intro s; cbn [for_each fold_left].
  - destruct s; reflexivity.
  - unfold track_step at 2. destruct (index c) as [i |].
    + rewrite bind_modify, IH. reflexivity.
    + rewrite bind_ret, IH. reflexivity.
Qed.

Lemma search_lifted_run (contacts : list Contact) (s : TouchDevice) :
  search_lifted contacts s = mkRes (inr tt) (after_search contacts s) [].
Proof.
  unfold search_lifted. rewrite !bind_modify.
  rewrite (bind_run _ _ _ _ _ _ _ _ (search_loop contacts _)).
  rewrite bind_modify. reflexivity.
Qed.

Lemma track_In (contacts : list Contact) : forall (acc : StdSet.t) (i : N),
  In i (fold_left track_step contacts acc) <-> carried contacts i \/ In i acc.
Proof.
  unfold carried.
  induction contacts as [| c cs IH]; intros acc i; cbn [fold_left].
  - split; [auto | intros [(c & [] & _) | H]; exact H].
  - rewrite IH. unfold track_step. split.
    + intros [(c' & Hin & Hi) | Hacc].
      * left. exists c'. split; [right; exact Hin | exact Hi].
      * destruct (index c) as [j |] eqn:Hj; [| right; exact Hacc].
        apply insert_In in Hacc. destruct Hacc as [-> | Hacc]; [| right; exact Hacc].
        left. exists c. split; [left; reflexivity | exact Hj].
    + intros [(c' & [<- | Hin] & Hi) | Hacc].
      * right. rewrite Hi. apply insert_In. left. reflexivity.
      * left. exists c'. auto.
      * right. destruct (index c); [apply insert_In; right |]; exact Hacc.
Qed.

Lemma tracked_In (contacts : list Contact) (i : N) :
  In i (tracked contacts) <-> carried contacts i.
Proof.
  unfold tracked. rewrite track_In. simpl. tauto.
Qed.

Lemma track_ascending (contacts : list Contact) : forall acc : StdSet.t,
  StdSet.ascending acc -> StdSet.ascending (fold_left track_step contacts acc).
Proof.
  induction contacts as [| c cs IH]; intros acc Hacc; cbn [fold_left]; [exact Hacc |].
  apply IH. unfold track_step. destruct (index c); [apply insert_ascending |]; exact Hacc.
Qed.

Lemma tracked_ascending (contacts : list Contact) : StdSet.ascending (tracked contacts).
Proof. apply track_ascending. constructor. Qed.

(** After [search_lifted] the lift set is ascending, and it is the old
    current set less the new one provided the old one was ascending. *)
Lemma lifted_ascending (contacts : list Contact) (s : TouchDevice) :
  StdSet.ascending (m_lift (after_search contacts s)).
Proof. cbn. apply inserter_ascending. constructor. Qed.

Lemma lifted_In (contacts : list Contact) (s : TouchDevice) (i : N) :
  StdSet.ascending (m_current s) ->
  (In i (m_lift (after_search contacts s)) <->
   In i (m_current s) /\ ~ carried contacts i).
Proof.
  intro Hs. cbn. rewrite inserter_In.
  rewrite (set_difference_In _ _ i Hs (tracked_ascending contacts)), tracked_In.
  simpl. tauto.
Qed.

(** *** Lifting everything *)

Lemma run_blocks_Forall {E A} (Q : E -> Prop) (blk : A -> option (list E))
      (l : list A) :
  (forall a evs, blk a = Some evs -> Forall Q evs) ->
  Forall Q (snd (run_blocks blk l)).
Proof.
  intro Hb. apply Forall_forall. intros ev Hin.
  destruct (run_blocks_In _ _ _ _ Hin) as (a & evs & _ & Ha & He).
  specialize (Hb a evs Ha). rewrite Forall_forall in Hb. exact (Hb ev He).
Qed.

Lemma lift_all_run (s : TouchDevice) :
  lift_all s =
  let b1 := run_blocks lift_all_events (m_current s) in
  let b2 := run_blocks lift_all_events (m_last s) in
  if fst b1 then
    if fst b2 then mkRes (inr tt) s (snd b1 ++ snd b2 ++ [st_lift])
    else mkRes (inl narrowing_error) s (snd b1 ++ snd b2)
  else mkRes (inl narrowing_error) s (snd b1).
Proof.
  unfold lift_all. rewrite bind_get. cbv zeta.
  pose proof (for_each_blocks _
                (fun index => v <- narrow_usize index ;;
                              emit EV_ABS ABS_MT_SLOT v ;; lift_multitouch index)
                lift_all_events narrowing_error s
                (fun i => lift_all_step_run i s)) as Hloop.
  destruct (fst (run_blocks lift_all_events (m_current s))) eqn:H1.
  - rewrite (bind_run _ _ _ _ _ _ _ _ (eq_trans (Hloop (m_current s)) ltac:(rewrite H1; reflexivity))).
    destruct (fst (run_blocks lift_all_events (m_last s))) eqn:H2.
    + rewrite (bind_run _ _ _ _ _ _ _ _ (eq_trans (Hloop (m_last s)) ltac:(rewrite H2; reflexivity))).
      reflexivity.
    + rewrite (bind_run_inl _ _ _ _ _ _ _ _ (eq_trans (Hloop (m_last s)) ltac:(rewrite H2; reflexivity))).
      reflexivity.
  - rewrite (bind_run_inl _ _ _ _ _ _ _ _ (eq_trans (Hloop (m_current s)) ltac:(rewrite H1; reflexivity))).
    reflexivity.
Qed.

Lemma lift_all_events_block (i : N) (evs : list input_event) :
  lift_all_events i = Some evs -> evs = lift_block i.
Proof.
  unfold lift_all_events, usize_i32, lift_block.
  destruct (Z.of_N i <=? INT32_MAX); [| discriminate].
  intro Hs. injection Hs as <-. reflexivity.
Qed.

Lemma lift_all_events_fits (i : N) : fits_i32 i -> lift_all_events i <> None.
Proof.
  unfold fits_i32, lift_all_events, usize_i32. intro Hf.
  apply Z.leb_le in Hf. rewrite Hf. discriminate.
Qed.

Lemma lift_block_lift_only (i : N) : Forall (fun e => lift_only e = true) (lift_block i).
Proof. repeat constructor. Qed.

Lemma lift_all_lift_only (s : TouchDevice) :
  Forall (fun e => lift_only e = true) (out (lift_all s)).
Proof.
  assert (Hb : forall l, Forall (fun e => lift_only e = true)
                           (snd (run_blocks lift_all_events l))).
  { intro l. apply run_blocks_Forall. intros a evs Ha.
    rewrite (lift_all_events_block a evs Ha). apply lift_block_lift_only. }
  rewrite lift_all_run. cbv zeta.
  destruct (fst (run_blocks lift_all_events (m_current s)));
    [destruct (fst (run_blocks lift_all_events (m_last s))) |]; cbn [out];
    repeat (apply Forall_app; split); auto; repeat constructor.
Qed.

Lemma lift_all_state (s : TouchDevice) : st (lift_all s) = s.
Proof.
  rewrite lift_all_run. cbv zeta.
  destruct (fst (run_blocks lift_all_events (m_current s)));
    [destruct (fst (run_blocks lift_all_events (m_last s))) |]; reflexivity.
Qed.

Lemma lift_all_through (s : TouchDevice) :
  res (lift_all s) = inr tt ->
  out (lift_all s) =
  flat_map lift_block (m_current s) ++ flat_map lift_block (m_last s) ++ [st_lift].
Proof.
  rewrite lift_all_run. cbv zeta.
  destruct (fst (run_blocks lift_all_events (m_current s))) eqn:H1;
    [destruct (fst (run_blocks lift_all_events (m_last s))) eqn:H2 |];
    cbn [res out]; try discriminate.
  intros _.
  rewrite (run_blocks_through _ lift_all_events lift_block _ lift_all_events_block H1).
  rewrite (run_blocks_through _ lift_all_events lift_block _ lift_all_events_block H2).
  reflexivity.
Qed.

Lemma lift_all_returns (s : TouchDevice) :
  Forall fits_i32 (m_current s) -> Forall fits_i32 (m_last s) ->
  res (lift_all s) = inr tt.
Proof.
  intros Hc Hl. rewrite Forall_forall in Hc, Hl.
  rewrite lift_all_run. cbv zeta.
  rewrite (run_blocks_total _ lift_all_events (m_current s)
             (fun a Ha => lift_all_events_fits a (Hc a Ha))).
  rewrite (run_blocks_total _ lift_all_events (m_last s)
             (fun a Ha => lift_all_events_fits a (Hl a Ha))).
  reflexivity.
Qed.

(** *** One frame *)

Lemma update_enabled_run (contacts : list Contact) (s : TouchDevice) :
  m_enabled s = true ->
  update contacts s =
  bind (if is_blocked s contacts then lift_all
        else process_multitouch contacts ;; process_singletouch contacts)
       (fun _ => sync) (after_search contacts s).
Proof.
  intro Hen. unfold update. rewrite bind_get, Hen. cbn [negb].
  rewrite (bind_run _ _ _ _ _ _ _ _ (search_lifted_run contacts s)).
  rewrite bind_get. cbn [app]. apply res_eta.
Qed.

Lemma is_blocked_iff (s : TouchDevice) (contacts : list Contact) :
  is_blocked s contacts = true <-> palm_seen s contacts.
Proof.
  unfold is_blocked, palm_seen.
  destruct (touch_disable_on_palm (m_config s)); cbn [negb].
  - rewrite existsb_exists. split.
    + intros (c & Hin & Hv). split; [reflexivity |]. exists c. split; [exact Hin |].
      destruct (valid c) as [[|] |]; cbn in Hv; try discriminate. reflexivity.
    + intros (_ & c & Hin & Hv). exists c. split; [exact Hin |]. rewrite Hv. reflexivity.
  - split; [discriminate | intros [Hf _]; discriminate].
Qed.

Lemma update_blocked_run (contacts : list Contact) (s : TouchDevice) :
  m_enabled s = true -> is_blocked s contacts = true ->
  update contacts s = bind lift_all (fun _ => sync) (after_search contacts s).
Proof.
  intros Hen Hb. rewrite (update_enabled_run _ _ Hen), Hb. reflexivity.
Qed.

(** C1, as the code has it: while the device is disabled [update] does
    nothing at all.  It returns at once: the tracker is not run, the state
    is as it was and no event is written, not even a sync. *)
Theorem update_disabled_is_noop (contacts : list Contact) (s : TouchDevice) :
  m_enabled s = false ->
  update contacts s = mkRes (inr tt) s [].
Proof.
  intro Hen. unfold update. rewrite bind_get, Hen. reflexivity.
Qed.

(** C5: an enabled [update] is palm-blocked exactly when palm blocking is
    configured and a contact of the frame has [valid == false].  A blocked
    call leaves the single-touch index alone and writes lifts only; when it
    returns it has written a lift for every index of the current set, then
    one for every index of the previous set, a single-touch lift and one
    sync, and nothing else.  It returns whenever the tracked indices fit the
    32-bit event value.  A call that is not blocked takes the other branch. *)
Theorem palm_block (contacts : list Contact) (s : TouchDevice) :
  m_enabled s = true ->
  (is_blocked s contacts = true <-> palm_seen s contacts) /\
  (palm_seen s contacts ->
     let r := update contacts s in
     m_current (st r) = tracked contacts /\
     m_last (st r) = m_current s /\
     m_single_index (st r) = m_single_index s /\
     Forall (fun e => lift_only e = true) (out r) /\
     (res r = inr tt ->
        out r = flat_map lift_block (m_current (st r)) ++
                flat_map lift_block (m_last (st r)) ++ [st_lift; syn_report]) /\
     (Forall fits_i32 (m_current (st r)) -> Forall fits_i32 (m_last (st r)) ->
        res r = inr tt)) /\
  (~ palm_seen s contacts ->
     update contacts s =
     (search_lifted contacts ;;
      (process_multitouch contacts ;; process_singletouch contacts) ;;
      sync) s).
Proof.
  intro Hen. split; [apply is_blocked_iff |]. split.
  - intro Hp. apply is_blocked_iff in Hp. cbv zeta.
    rewrite (update_blocked_run _ _ Hen Hp).
    set (s1 := after_search contacts s).
    pose proof (lift_all_state s1) as Hst.
    pose proof (lift_all_lift_only s1) as Hlo.
    pose proof (lift_all_through s1) as Hth.
    pose proof (lift_all_returns s1) as Hret.
    destruct (res (lift_all s1)) as [e | []] eqn:Hr.
    + rewrite (bind_inl _ _ _ _ _ _ Hr). cbn [res st out]. rewrite Hst.
      repeat (split; [first [reflexivity | exact Hlo] |]).
      split; [discriminate |]. intros H1 H2. specialize (Hret H1 H2). discriminate.
    + rewrite (bind_inr _ _ _ _ _ _ Hr). cbn [sync emit tell res st out]. rewrite Hst.
      split; [reflexivity |]. split; [reflexivity |]. split; [reflexivity |].
      split; [apply Forall_app; split; [exact Hlo | repeat constructor] |].
      split; [| reflexivity]. intros _. rewrite (Hth eq_refl).
      rewrite <- !app_assoc. reflexivity.
  - intro Hn. rewrite (update_enabled_run _ _ Hen).
    destruct (is_blocked s contacts) eqn:Hb.
    + exfalso. apply Hn. apply is_blocked_iff. exact Hb.
    + rewrite (bind_run _ _ _ _ _ _ _ _ (search_lifted_run contacts s)).
      cbn [app]. symmetry. apply res_eta.
Qed.

(** *** Disabling *)

Lemma disable_run (s : TouchDevice) :
  res (disable s) = inr tt ->
  st (disable s) =
  mkTouchDevice (m_config s) [] [] [] (m_single_index s) false.
Proof.
  unfold disable. rewrite bind_modify.
  set (s0 := set_enabled false s).
  pose proof (lift_all_state s0) as Hst.
  destruct (res (lift_all s0)) as [e | []] eqn:Hr.
  - rewrite (bind_inl _ _ _ _ _ _ Hr). cbn [res]. discriminate.
  - rewrite (bind_inr _ _ _ _ _ _ Hr). cbn [st]. unfold sync, emit.
    rewrite bind_tell. cbn [st]. rewrite !bind_modify. cbn [modify st].
    rewrite Hst. reflexivity.
Qed.

Lemma disable_returns (s : TouchDevice) :
  Forall fits_i32 (m_current s) -> Forall fits_i32 (m_last s) ->
  res (disable s) = inr tt.
Proof.
  intros Hc Hl. unfold disable. rewrite bind_modify.
  pose proof (lift_all_returns (set_enabled false s) Hc Hl) as Hr.
  rewrite (bind_inr _ _ _ _ _ _ Hr). reflexivity.
Qed.

(** C9: after a [disable] that has returned, the tracking sets are empty,
    and a second [disable] writes no multi-touch lift: only the single-touch
    lift and one sync, and it leaves the state as the first call left it. *)
Theorem disable_twice (s : TouchDevice) :
  res (disable s) = inr tt ->
  let s1 := st (disable s) in
  m_enabled s1 = false /\
  m_current s1 = [] /\ m_last s1 = [] /\ m_lift s1 = [] /\
  disable s1 = mkRes (inr tt) s1 [st_lift; syn_report] /\
  (forall slot, mt_lifted slot (out (disable s1)) = []).
Proof.
  intro Hr. cbv zeta. rewrite (disable_run s Hr).
  repeat (split; [reflexivity |]). intro slot. reflexivity.
Qed.

(** *** The tracker, frame by frame *)

(** C3: [search_lifted] always returns and writes nothing.  Afterwards the
    previous set is the old current set, the current set holds exactly the
    indices the contacts of the frame carry, and the lift set is the
    previous set less the current one, each index once.  So over two
    consecutive frames: an index the first carries and the second does not
    is in the second's lift set exactly once, and an index the second
    carries is not in it, whatever the flags of its contact. *)
Theorem search_lifted_tracks (contacts : list Contact) (s : TouchDevice) :
  StdSet.ascending (m_current s) ->
  let r := search_lifted contacts s in
  res r = inr tt /\ out r = [] /\
  m_last (st r) = m_current s /\
  (forall i, In i (m_current (st r)) <-> carried contacts i) /\
  (forall i, In i (m_lift (st r)) <->
             In i (m_last (st r)) /\ ~ In i (m_current (st r))) /\
  NoDup (m_lift (st r)) /\
  StdSet.ascending (m_current (st r)) /\ StdSet.ascending (m_lift (st r)) /\
  m_single_index (st r) = m_single_index s /\
  m_enabled (st r) = m_enabled s /\
  forall next : list Contact,
    let r' := search_lifted next (st r) in
    (forall i, carried contacts i -> ~ carried next i ->
               count_occ N.eq_dec (m_lift (st r')) i = 1%nat) /\
    (forall i, carried next i -> ~ In i (m_lift (st r'))).
Proof.
  intro Hs. cbv zeta. rewrite search_lifted_run. cbn [res st out].
  split; [reflexivity |]. split; [reflexivity |]. split; [reflexivity |].
  split; [intro i; apply tracked_In |].
  split.
  { intro i. rewrite (lifted_In contacts s i Hs).
    cbn [after_search m_last m_current]. rewrite tracked_In. tauto. }
  split; [apply ascending_NoDup, lifted_ascending |].
  split; [apply tracked_ascending |].
  split; [apply lifted_ascending |].
  split; [reflexivity |]. split; [reflexivity |].
  intro next. rewrite search_lifted_run. cbn [st].
  assert (Hs' : StdSet.ascending (m_current (after_search contacts s)))
    by apply tracked_ascending.
  split.
  - intros i Hc Hn.
    apply NoDup_count_occ'; [apply ascending_NoDup, lifted_ascending |].
    apply (lifted_In next _ i Hs'). split; [| exact Hn].
    cbn [after_search m_current]. apply tracked_In. exact Hc.
  - intros i Hc Hin. apply (lifted_In next _ i Hs') in Hin. tauto.
Qed.

(** *** An active frame *)

Lemma mt_reports_app (a b : list input_event) : forall slot,
  mt_reports slot (a ++ b) = mt_reports slot a ++ mt_reports (last_slot slot a) b.
Proof.
  induction a as [| [t c v] a IH]; intro slot; [reflexivity |].
  destruct t, c; cbn [app mt_reports last_slot]; rewrite ?IH; reflexivity.
Qed.

Lemma mt_reports_In_app (a b : list input_event) slot p :
  In p (mt_reports slot (a ++ b)) ->
  In p (mt_reports slot a) \/ exists slot', In p (mt_reports slot' b).
Proof.
  rewrite mt_reports_app. intro Hin. apply in_app_or in Hin.
  destruct Hin as [Hin | Hin]; [left; exact Hin | right; eauto].
Qed.

Lemma mt_reports_none (evs : list input_event) :
  Forall (fun e => is_mt e = false) evs -> forall slot, mt_reports slot evs = [].
Proof.
  induction 1 as [| [t c v] evs He Hevs IH]; intro slot; [reflexivity |].
  destruct t, c; cbn in He; try discriminate; cbn [mt_reports]; apply IH.
Qed.

Lemma mt_reports_blocks {A} (blk : A -> option (list input_event)) (l : list A) :
  forall slot p,
    In p (mt_reports slot (snd (run_blocks blk l))) ->
    exists a evs slot', In a l /\ blk a = Some evs /\ In p (mt_reports slot' evs).
Proof.
  induction l as [| a t IH]; intros slot p; cbn [run_blocks]; [intros [] |].
  destruct (blk a) as [evs |] eqn:Hb; cbn [snd]; [| intros []].
  intro Hin. apply mt_reports_In_app in Hin. destruct Hin as [Hin | [slot' Hin]].
  - exists a, evs, slot. split; [left; reflexivity | auto].
  - destruct (IH slot' p Hin) as (b & evs' & slot'' & Hb' & He & Hi).
    exists b, evs', slot''. split; [right; exact Hb' | auto].
Qed.

Lemma usize_i32_value (n : N) (v : Z) : usize_i32 n = Some v -> v = Z.of_N n.
Proof.
  unfold usize_i32. destruct (Z.of_N n <=? INT32_MAX); [| discriminate].
  intro Hs. injection Hs as <-. reflexivity.
Qed.

Lemma lift_events_reports (i : N) (evs : list input_event) slot p :
  lift_events i = Some evs -> In p (mt_reports slot evs) -> p = (Z.of_N i, -1).
Proof.
  unfold lift_events. destruct (usize_i32 i) as [v |] eqn:Hv; [| discriminate].
  apply usize_i32_value in Hv. subst v.
  intro Hs. injection Hs as <-. cbn. intros [<- | []]. reflexivity.
Qed.

Lemma emit_events_reports cfg (c : Contact) (evs : list input_event) slot p :
  emit_events cfg c = Some evs -> In p (mt_reports slot evs) ->
  p = (Z.of_N (value_or (index c) 0%N), Z.of_N (value_or (index c) 0%N)).
Proof.
  unfold emit_events.
  destruct (usize_i32 _) as [v |] eqn:Hv; [| discriminate].
  apply usize_i32_value in Hv. subst v.
  repeat (destruct (narrow_i32 _); [| discriminate]).
  intro Hs. injection Hs as <-. cbn. intros [<- | []]. reflexivity.
Qed.

Lemma contact_events_reports cfg (c : Contact) (evs : list input_event) slot p lift :
  contact_events cfg c = Some evs -> In p (mt_reports slot evs) ->
  forall contacts, In c contacts -> report_from contacts lift p.
Proof.
  unfold contact_events. destruct (index c) as [i |] eqn:Hi.
  2: { intro Hs. injection Hs as <-. intros []. }
  destruct (negb (value_or (stable c) true)).
  { intro Hs. injection Hs as <-. intros []. }
  destruct (value_or (valid c) true) eqn:Hv; intros He Hin contacts Hc.
  - left. exists c, i. pose proof (emit_events_reports _ _ _ _ _ He Hin) as Hp.
    rewrite Hi in Hp. auto.
  - right; left. exists c, i. pose proof (lift_events_reports _ _ _ _ He Hin). auto.
Qed.

Lemma process_multitouch_run (contacts : list Contact) (s : TouchDevice) :
  process_multitouch contacts s =
  let b1 := run_blocks (contact_events (m_config s)) contacts in
  let b2 := run_blocks lift_events (m_lift s) in
  if fst b1
  then mkRes (if fst b2 then inr tt else inl narrowing_error) s (snd b1 ++ snd b2)
  else mkRes (inl narrowing_error) s (snd b1).
Proof.
  unfold process_multitouch. cbv zeta.
  pose proof (for_each_blocks _
                (fun contact =>
                   if negb (has_value (index contact)) then ret tt
                   else if negb (value_or (stable contact) true) then ret tt
                   else if value_or (valid contact) true then emit_multitouch contact
                   else lift_multitouch (value_or (index contact) 0%N))
                (contact_events (m_config s)) narrowing_error s
                (fun c => contact_step_run c s) contacts) as H1.
  pose proof (for_each_blocks _ lift_multitouch lift_events narrowing_error s
                (fun i => lift_multitouch_run i s) (m_lift s)) as H2.
  destruct (fst (run_blocks (contact_events (m_config s)) contacts)).
  - rewrite (bind_run _ _ _ _ _ _ _ _ H1), bind_get, H2. reflexivity.
  - rewrite (bind_run_inl _ _ _ _ _ _ _ _ H1). reflexivity.
Qed.

Lemma no_mt_bind A B (m : DM A) (f : A -> DM B) :
  no_mt m -> (forall a, no_mt (f a)) -> no_mt (bind m f).
Proof.
  apply quiet_bind; auto. intros a b Ha Hb. apply Forall_app. auto.
Qed.

Lemma no_mt_ret A (a : A) : no_mt (ret a : DM A).
Proof. intro s. cbn. auto. Qed.

Lemma no_mt_throw A (e : exn) : no_mt (throw e : DM A).
Proof. intro s. cbn. auto. Qed.

Lemma no_mt_get : no_mt (get : DM TouchDevice).
Proof. intro s. cbn. auto. Qed.

Lemma no_mt_modify f : no_mt (modify f : DM unit).
Proof. intro s. cbn. auto. Qed.

Lemma no_mt_emit t c v : is_mt (Event t c v) = false -> no_mt (emit t c v).
Proof. intros He s. cbn. auto. Qed.

Lemma no_mt_narrow_f64 d : no_mt (narrow_f64 d).
Proof. unfold narrow_f64. destruct (narrow_i32 d); [apply no_mt_ret | apply no_mt_throw]. Qed.

Lemma no_mt_emit_singletouch c : no_mt (emit_singletouch c).
Proof.
  unfold emit_singletouch.
  apply no_mt_bind; [apply no_mt_get |]. intro s.
  apply no_mt_bind; [apply no_mt_narrow_f64 |]. intro px.
  apply no_mt_bind; [apply no_mt_narrow_f64 |]. intro py.
  repeat (apply no_mt_bind; [apply no_mt_emit; reflexivity | intros _]).
  apply no_mt_emit; reflexivity.
Qed.

Lemma no_mt_find_selected contacts : no_mt (find_selected contacts).
Proof.
  induction contacts as [| c cs IH]; cbn [find_selected]; [apply no_mt_ret |].
  apply no_mt_bind; [apply no_mt_get |]. intro s.
  destruct (negb (opt_eq _ _)); [exact IH |].
  destruct (_ || _); [apply no_mt_ret |].
  destruct (negb (value_or (stable c) true)); [apply no_mt_ret |].
  apply no_mt_bind; [apply no_mt_emit_singletouch | intros _; apply no_mt_ret].
Qed.

Lemma no_mt_select_new contacts : no_mt (select_new contacts).
Proof.
  induction contacts as [| c cs IH]; cbn [select_new]; [apply no_mt_ret |].
  apply no_mt_bind; [apply no_mt_get |]. intro s.
  destruct (opt_eq _ _); [exact IH |].
  destruct (negb _); [exact IH | apply no_mt_modify].
Qed.

Lemma no_mt_process_singletouch contacts : no_mt (process_singletouch contacts).
Proof.
  unfold process_singletouch.
  apply no_mt_bind; [apply no_mt_get |]. intro s.
  apply no_mt_bind.
  { destruct (negb _); [apply no_mt_find_selected | apply no_mt_ret]. }
  intros [|]; [apply no_mt_ret |].
  apply no_mt_bind; [apply no_mt_emit; reflexivity |]. intros _.
  apply no_mt_bind; [apply no_mt_get |]. intro s'.
  destruct (negb _); [apply no_mt_ret | apply no_mt_select_new].
Qed.

Lemma update_active_reports (contacts : list Contact) (s : TouchDevice) :
  m_enabled s = true -> is_blocked s contacts = false ->
  forall slot p,
    In p (mt_reports slot (out (update contacts s))) ->
    report_from contacts (m_lift (after_search contacts s)) p.
Proof.
  intros Hen Hb slot p. rewrite (update_enabled_run _ _ Hen), Hb, bind_assoc.
  set (s1 := after_search contacts s).
  assert (Htail : forall s', Forall (fun e => is_mt e = false)
                    (out (bind (process_singletouch contacts) (fun _ => sync) s'))).
  { intro s'. apply no_mt_bind; [apply no_mt_process_singletouch |].
    intros _. apply no_mt_emit. reflexivity. }
  assert (H1 : forall slot',
             In p (mt_reports slot' (snd (run_blocks (contact_events (m_config s1)) contacts))) ->
             report_from contacts (m_lift s1) p).
  { intros slot' Hin.
    destruct (mt_reports_blocks _ _ _ _ Hin) as (c & evs & sl & Hc & He & Hp).
    exact (contact_events_reports _ _ _ _ _ _ He Hp contacts Hc). }
  assert (H2 : forall slot',
             In p (mt_reports slot' (snd (run_blocks lift_events (m_lift s1)))) ->
             report_from contacts (m_lift s1) p).
  { intros slot' Hin.
    destruct (mt_reports_blocks _ _ _ _ Hin) as (i & evs & sl & Hi & He & Hp).
    right; right. exists i. split; [exact Hi |].
    exact (lift_events_reports _ _ _ _ He Hp). }
  pose proof (process_multitouch_run contacts s1) as Hpm. cbv zeta in Hpm.
  destruct (fst (run_blocks (contact_events (m_config s1)) contacts)).
  - destruct (fst (run_blocks lift_events (m_lift s1))).
    + rewrite (bind_run _ _ _ _ _ _ _ _ Hpm). cbn [out].
      intro Hin. apply mt_reports_In_app in Hin. destruct Hin as [Hin | [sl Hin]].
      * apply mt_reports_In_app in Hin. destruct Hin as [Hin | [sl Hin]]; eauto.
      * rewrite (mt_reports_none _ (Htail s1)) in Hin. destruct Hin.
    + rewrite (bind_run_inl _ _ _ _ _ _ _ _ Hpm). cbn [out].
      intro Hin. apply mt_reports_In_app in Hin. destruct Hin as [Hin | [sl Hin]]; eauto.
  - rewrite (bind_run_inl _ _ _ _ _ _ _ _ Hpm). cbn [out]. eauto.
Qed.

(** C8, with the condition it needs: in an enabled frame that is not
    palm-blocked, no slot is reported both active and lifted, provided no
    tracking index comes both on a valid and on an invalid contact of the
    frame (as when the indices of the frame are pairwise distinct).  This
    holds of whatever has been written, also when a narrowing error cuts
    the frame short. *)
Theorem active_and_lifted_disjoint (contacts : list Contact) (s : TouchDevice) :
  m_enabled s = true -> is_blocked s contacts = false ->
  StdSet.ascending (m_current s) ->
  validity_agrees contacts ->
  no_duplicate_slots (out (update contacts s)).
Proof.
  intros Hen Hb Hs Hv slot id Hact Hlift.
  unfold mt_active in Hact. unfold mt_lifted in Hlift.
  apply in_map_iff in Hact. destruct Hact as ([sl tid] & Hid & Hact).
  apply filter_In in Hact. destruct Hact as [Hact Htid].
  apply in_map_iff in Hlift. destruct Hlift as ([sl' tid'] & Hid' & Hlift).
  apply filter_In in Hlift. destruct Hlift as [Hlift Htid'].
  cbn [fst snd] in *. subst sl' tid.
  apply negb_true_iff, Z.eqb_neq in Htid. apply Z.eqb_eq in Htid'. subst tid'.
  pose proof (update_active_reports _ _ Hen Hb _ _ Hact) as Ra.
  pose proof (update_active_reports _ _ Hen Hb _ _ Hlift) as Rl.
  destruct Ra as [(c1 & i1 & Hc1 & Hi1 & Hv1 & E1) | [(c1 & i1 & _ & _ & _ & E1) | (i1 & _ & E1)]].
  2, 3: exfalso; apply Htid; congruence.
  assert (Eid : id = Z.of_N i1) by congruence.
  destruct Rl as [(c2 & i2 & _ & _ & _ & E2) | [(c2 & i2 & Hc2 & Hi2 & Hv2 & E2) | (i2 & Hi2 & E2)]].
  - assert (Z.of_N i2 = -1) by congruence. lia.
  - assert (E3 : id = Z.of_N i2) by congruence.
    assert (i2 = i1) by (apply N2Z.inj; congruence). subst i2.
    pose proof (Hv c1 c2 i1 Hc1 Hc2 Hi1 Hi2). congruence.
  - assert (E3 : id = Z.of_N i2) by congruence.
    assert (i2 = i1) by (apply N2Z.inj; congruence). subst i2.
    apply (lifted_In contacts s i1 Hs) in Hi2. destruct Hi2 as [_ Hn].
    apply Hn. exists c1. auto.
Qed.

(** *** The single-touch pointer *)

Lemma find_In (x : N) (l : StdSet.t) : StdSet.find x l = true <-> In x l.
Proof.
  induction l as [| y r IH]; cbn [StdSet.find In]; [split; [discriminate | tauto] |].
  destruct (x =? y)%N eqn:He.
  - apply N.eqb_eq in He. subst. tauto.
  - apply N.eqb_neq in He. rewrite IH. split; [auto | intros [E | H]; [congruence | exact H]].
Qed.

(** When no contact of the frame carries the single-touch index, the first
    loop runs to its end: nothing is written. *)
Lemma find_selected_absent (contacts : list Contact) (s : TouchDevice) :
  (forall c, In c contacts -> opt_eq (index c) (m_single_index s) = false) ->
  find_selected contacts s = mkRes (inr false) s [].
Proof.
  induction contacts as [| c cs IH]; intro Habs; cbn [find_selected]; [reflexivity |].
  rewrite bind_get, (Habs c (or_introl eq_refl)). cbn [negb].
  apply IH. intros c' Hin. apply Habs. right. exact Hin.
Qed.

Lemma select_new_silent (contacts : list Contact) (s : TouchDevice) :
  res (select_new contacts s) = inr tt /\ out (select_new contacts s) = [].
Proof.
  induction contacts as [| c cs IH]; cbn [select_new]; [split; reflexivity |].
  rewrite bind_get.
  destruct (opt_eq _ _); [exact IH |].
  destruct (negb _); [exact IH | split; reflexivity].
Qed.

(** In a frame the tracker has just processed, [process_singletouch] writes
    the single-touch lift and nothing else: [emit_singletouch] is only
    reached when the single-touch index is in the lift set, and then no
    contact of the frame carries it. *)
Lemma process_singletouch_lifts (contacts : list Contact) (s : TouchDevice) :
  StdSet.ascending (m_current s) ->
  let s1 := after_search contacts s in
  res (process_singletouch contacts s1) = inr tt /\
  out (process_singletouch contacts s1) = [st_lift].
Proof.
  intros Hs s1. unfold process_singletouch. rewrite bind_get.
  assert (Hfirst : (if negb (negb (StdSet.find (m_single_index s1) (m_lift s1)))
                    then find_selected contacts else ret false) s1
                   = mkRes (inr false) s1 []).
  { destruct (StdSet.find (m_single_index s1) (m_lift s1)) eqn:Hf; cbn [negb];
      [| reflexivity].
    apply find_selected_absent. intros c Hin.
    destruct (opt_eq (index c) (m_single_index s1)) eqn:He; [| reflexivity].
    exfalso. apply find_In in Hf. apply (lifted_In contacts s _ Hs) in Hf.
    destruct Hf as [_ Hn]. apply Hn. exists c. split; [exact Hin |].
    unfold opt_eq in He. destruct (index c) as [i |]; [| discriminate].
    apply N.eqb_eq in He. congruence. }
  rewrite (bind_run _ _ _ _ _ _ _ _ Hfirst). cbn [res st out app].
  unfold lift_singletouch, emit. rewrite bind_tell, bind_get. cbn [res out].
  destruct (negb (m_enabled s1)); [split; reflexivity |].
  destruct (select_new_silent contacts s1) as [Hr Ho]. rewrite Hr, Ho.
  split; reflexivity.
Qed.

Lemma emit_events_abs cfg (c : Contact) (evs : list input_event) :
  emit_events cfg c = Some evs -> Forall (fun e => type e = EV_ABS) evs.
Proof.
  unfold emit_events. destruct (usize_i32 _); [| discriminate].
  repeat (destruct (narrow_i32 _); [| discriminate]).
  intro Hs. injection Hs as <-. repeat constructor.
Qed.

Lemma lift_events_abs (i : N) (evs : list input_event) :
  lift_events i = Some evs -> Forall (fun e => type e = EV_ABS) evs.
Proof.
  unfold lift_events. destruct (usize_i32 _); [| discriminate].
  intro Hs. injection Hs as <-. repeat constructor.
Qed.

Lemma contact_events_abs cfg (c : Contact) (evs : list input_event) :
  contact_events cfg c = Some evs -> Forall (fun e => type e = EV_ABS) evs.
Proof.
  unfold contact_events. destruct (index c) as [i |].
  2: { intro Hs. injection Hs as <-. constructor. }
  destruct (negb _). { intro Hs. injection Hs as <-. constructor. }
  destruct (value_or (valid c) true); [apply emit_events_abs | apply lift_events_abs].
Qed.

Lemma process_multitouch_abs (contacts : list Contact) (s : TouchDevice) :
  Forall (fun e => type e = EV_ABS) (out (process_multitouch contacts s)).
Proof.
  rewrite process_multitouch_run. cbv zeta.
  pose proof (run_blocks_Forall (fun e => type e = EV_ABS)
                (contact_events (m_config s)) contacts
                (contact_events_abs (m_config s))) as H1.
  pose proof (run_blocks_Forall (fun e => type e = EV_ABS)
                lift_events (m_lift s) lift_events_abs) as H2.
  destruct (fst (run_blocks (contact_events (m_config s)) contacts)); cbn [out];
    [apply Forall_app; split |]; assumption.
Qed.

(** No [update] ever reports the single-touch pointer down. *)
Lemma update_never_touch_down (contacts : list Contact) (s : TouchDevice) :
  StdSet.ascending (m_current s) ->
  ~ In st_down (out (update contacts s)).
Proof.
  intros Hs Hin.
  destruct (m_enabled s) eqn:Hen.
  2: { unfold update in Hin. rewrite bind_get, Hen in Hin. exact Hin. }
  rewrite (update_enabled_run _ _ Hen) in Hin.
  set (s1 := after_search contacts s) in *.
  destruct (is_blocked s contacts).
  - assert (Hlo : Forall (fun e => lift_only e = true)
                    (out (bind lift_all (fun _ => sync) s1))).
    { pose proof (lift_all_lift_only s1) as Hl. unfold bind.
      destruct (res (lift_all s1)); cbn [out]; [exact Hl |].
      apply Forall_app. split; [exact Hl | repeat constructor]. }
    rewrite Forall_forall in Hlo. specialize (Hlo _ Hin). discriminate.
  - rewrite bind_assoc in Hin.
    pose proof (process_multitouch_abs contacts s1) as Hpm.
    rewrite Forall_forall in Hpm.
    assert (Hst : st (process_multitouch contacts s1) = s1).
    { rewrite process_multitouch_run. cbv zeta.
      destruct (fst (run_blocks _ contacts)); reflexivity. }
    destruct (res (process_multitouch contacts s1)) as [e | []] eqn:Hr.
    + rewrite (bind_inl _ _ _ _ _ _ Hr) in Hin. cbn [out] in Hin.
      specialize (Hpm _ Hin). discriminate.
    + rewrite (bind_inr _ _ _ _ _ _ Hr) in Hin. cbn [out] in Hin.
      apply in_app_or in Hin. destruct Hin as [Hin | Hin].
      { specialize (Hpm _ Hin). discriminate. }
      rewrite Hst in Hin.
      destruct (process_singletouch_lifts contacts s Hs) as [Hps Hpo].
      fold s1 in Hps, Hpo.
      rewrite (bind_inr _ _ _ _ _ _ Hps), Hpo in Hin. cbn in Hin.
      destruct Hin as [E | [E | []]]; discriminate.
Qed.

(** *** Contacts without an index *)

Lemma track_app (a b : list Contact) (acc : StdSet.t) :
  fold_left track_step (a ++ b) acc = fold_left track_step b (fold_left track_step a acc).
Proof. apply fold_left_app. Qed.

(** A contact without an index leaves no trace in the tracker, wherever it
    stands in the frame, and the multi-touch loop writes nothing for it. *)
Lemma untracked_contact_not_tracked (before after : list Contact) (c : Contact)
      (s : TouchDevice) :
  index c = None ->
  search_lifted (before ++ c :: after) s = search_lifted (before ++ after) s /\
  contact_events (m_config s) c = Some [].
Proof.
  intro Hn. split.
  - rewrite !search_lifted_run. unfold after_search, tracked.
    rewrite !track_app. cbn [fold_left]. unfold track_step at 2 5.
    rewrite Hn. reflexivity.
  - unfold contact_events. rewrite Hn. reflexivity.
Qed.

(** *** The sets stay ascending *)

Lemma same_sets_bind A B (m : DM A) (f : A -> DM B) :
  same_sets m -> (forall a, same_sets (f a)) -> same_sets (bind m f).
Proof.
  apply quiet_bind; auto.
  intros a b c (H1 & H2 & H3) (H4 & H5 & H6). repeat split; congruence.
Qed.

Lemma same_sets_still A (m : DM A) : (forall s, st (m s) = s) -> same_sets m.
Proof. intros Hm s. rewrite Hm. auto. Qed.

Lemma same_sets_emit_singletouch c : same_sets (emit_singletouch c).
Proof.
  unfold emit_singletouch.
  apply same_sets_bind; [apply same_sets_still; reflexivity |]. intro s.
  apply same_sets_bind;
    [apply same_sets_still; intro s'; unfold narrow_f64;
     destruct (narrow_i32 _); reflexivity |]. intro px.
  apply same_sets_bind;
    [apply same_sets_still; intro s'; unfold narrow_f64;
     destruct (narrow_i32 _); reflexivity |]. intro py.
  apply same_sets_still. reflexivity.
Qed.

Lemma same_sets_find_selected contacts : same_sets (find_selected contacts).
Proof.
  induction contacts as [| c cs IH]; cbn [find_selected];
    [apply same_sets_still; reflexivity |].
  apply same_sets_bind; [apply same_sets_still; reflexivity |]. intro s.
  destruct (negb (opt_eq _ _)); [exact IH |].
  destruct (_ || _); [apply same_sets_still; reflexivity |].
  destruct (negb (value_or (stable c) true)); [apply same_sets_still; reflexivity |].
  apply same_sets_bind; [apply same_sets_emit_singletouch |].
  intros _. apply same_sets_still. reflexivity.
Qed.

Lemma same_sets_select_new contacts : same_sets (select_new contacts).
Proof.
  induction contacts as [| c cs IH]; cbn [select_new];
    [apply same_sets_still; reflexivity |].
  apply same_sets_bind; [apply same_sets_still; reflexivity |]. intro s.
  destruct (opt_eq _ _); [exact IH |].
  destruct (negb _); [exact IH |]. intro s'. cbn. auto.
Qed.

Lemma same_sets_process_singletouch contacts :
  same_sets (process_singletouch contacts).
Proof.
  unfold process_singletouch.
  apply same_sets_bind; [apply same_sets_still; reflexivity |]. intro s.
  apply same_sets_bind.
  { destruct (negb _); [apply same_sets_find_selected | apply same_sets_still; reflexivity]. }
  intros [|]; [apply same_sets_still; reflexivity |].
  apply same_sets_bind; [apply same_sets_still; reflexivity |]. intros _.
  apply same_sets_bind; [apply same_sets_still; reflexivity |]. intro s'.
  destruct (negb _); [apply same_sets_still; reflexivity | apply same_sets_select_new].
Qed.

Lemma process_multitouch_state contacts (s : TouchDevice) :
  st (process_multitouch contacts s) = s.
Proof.
  rewrite process_multitouch_run. cbv zeta.
  destruct (fst (run_blocks _ contacts)); reflexivity.
Qed.

Lemma keeps_sets_same A (m : DM A) : same_sets m -> keeps_sets m.
Proof.
  intros Hm s. destruct (Hm s) as [(H1 & H2 & H3) _]. split; [| exact Logic.I].
  unfold sets_ascending. rewrite H1, H2, H3. auto.
Qed.

Lemma keeps_sets_bind A B (m : DM A) (f : A -> DM B) :
  keeps_sets m -> (forall a, keeps_sets (f a)) -> keeps_sets (bind m f).
Proof. apply quiet_bind; auto. Qed.

Lemma keeps_sets_search_lifted contacts : keeps_sets (search_lifted contacts).
Proof.
  intro s. rewrite search_lifted_run. cbn [st out]. split; [| exact Logic.I].
  intros (Hc & _ & _). repeat split.
  - apply tracked_ascending.
  - exact Hc.
  - apply lifted_ascending.
Qed.

(** The state the constructor leaves has ascending sets, and [update],
    [disable] and [enable] keep them so, however they end. *)
Lemma sets_ascending_new config : sets_ascending (TouchDevice_new config).
Proof. repeat split; constructor. Qed.

Lemma keeps_sets_update contacts : keeps_sets (update contacts).
Proof.
  unfold update.
  apply keeps_sets_bind; [apply keeps_sets_same, same_sets_still; reflexivity |].
  intro s. destruct (negb (m_enabled s));
    [apply keeps_sets_same, same_sets_still; reflexivity |].
  apply keeps_sets_bind; [apply keeps_sets_search_lifted |]. intros _.
  apply keeps_sets_bind; [apply keeps_sets_same, same_sets_still; reflexivity |].
  intro s'. apply keeps_sets_same.
  apply same_sets_bind; [| intros _; apply same_sets_still; reflexivity].
  destruct (is_blocked s' contacts).
  - apply same_sets_still. apply lift_all_state.
  - apply same_sets_bind; [apply same_sets_still, process_multitouch_state |].
    intros _. apply same_sets_process_singletouch.
Qed.

Lemma keeps_sets_disable : keeps_sets disable.
Proof.
  unfold disable.
  apply keeps_sets_bind; [apply keeps_sets_same; intro s; cbn; auto |]. intros _.
  apply keeps_sets_bind; [apply keeps_sets_same, same_sets_still, lift_all_state |].
  intros _.
  apply keeps_sets_bind; [apply keeps_sets_same, same_sets_still; reflexivity |].
  intros _.
  apply keeps_sets_bind;
    [intro s; split; [| exact Logic.I]; intros (H1 & H2 & H3);
     repeat split; cbn; auto; constructor |]. intros _.
  apply keeps_sets_bind;
    [intro s; split; [| exact Logic.I]; intros (H1 & H2 & H3);
     repeat split; cbn; auto; constructor |]. intros _.
  intro s; split; [| exact Logic.I]; intros (H1 & H2 & H3);
    repeat split; cbn; auto; constructor.
Qed.

Lemma keeps_sets_enable : keeps_sets enable.
Proof. apply keeps_sets_same. intro s. cbn. auto. Qed.

(** *** Inversion *)

(** C7: a multi-touch contact update that is written carries, for each
    axis, the coordinate scaled to device units and rounded, taken from
    [1 - coordinate] when that axis is inverted; and its orientation is
    taken from [1 - orientation] exactly when one of the two inversion flags
    is set and the other is not.  "Scaled" is the product in doubles with
    the limit converted from [int], which is the limit itself; "rounded"
    is to the nearest integer, halfway cases away from zero, and the
    result is an [i32].  So with [invert_x], [mean.x = 0.25] and
    [IPTS_MAX_X = 1000] the X written is 750. *)
Theorem emit_multitouch_inversion (c : Contact) (s : TouchDevice) :
  res (emit_multitouch c s) = inr tt ->
  exists i px py angle major minor,
    out (emit_multitouch c s) =
      [Event EV_ABS ABS_MT_SLOT i;
       Event EV_ABS ABS_MT_TRACKING_ID i;
       Event EV_ABS ABS_MT_POSITION_X px;
       Event EV_ABS ABS_MT_POSITION_Y py;
       Event EV_ABS ABS_MT_ORIENTATION angle;
       Event EV_ABS ABS_MT_TOUCH_MAJOR major;
       Event EV_ABS ABS_MT_TOUCH_MINOR minor] /\
    i = Z.of_N (value_or (index c) 0%N) /\
    rounded_i32 ((if invert_x (m_config s) then 1 - x (mean c) else x (mean c))
                 * of_int IPTS_MAX_X)%float px /\
    rounded_i32 ((if invert_y (m_config s) then 1 - y (mean c) else y (mean c))
                 * of_int IPTS_MAX_Y)%float py /\
    (invert_x (m_config s) <> invert_y (m_config s) ->
     rounded_i32 ((1 - orientation c) * of_int 180)%float angle) /\
    (invert_x (m_config s) = invert_y (m_config s) ->
     rounded_i32 (orientation c * of_int 180)%float angle) /\
    rounded_i32 (maxCoeff (size c) * of_int IPTS_DIAGONAL)%float major /\
    rounded_i32 (minCoeff (size c) * of_int IPTS_DIAGONAL)%float minor /\
    denotes (of_int 180) 180 /\
    (- 2 ^ 53 < IPTS_MAX_X < 2 ^ 53 -> denotes (of_int IPTS_MAX_X) IPTS_MAX_X) /\
    (- 2 ^ 53 < IPTS_MAX_Y < 2 ^ 53 -> denotes (of_int IPTS_MAX_Y) IPTS_MAX_Y) /\
    (- 2 ^ 53 < IPTS_DIAGONAL < 2 ^ 53 ->
     denotes (of_int IPTS_DIAGONAL) IPTS_DIAGONAL) /\
    (invert_x (m_config s) = true -> x (mean c) = 0.25%float ->
     IPTS_MAX_X = 1000 -> px = 750).
Proof.
  rewrite emit_multitouch_run. unfold emit_events, inverted_mean, inverted_orientation.
  cbn [x y].
  destruct (usize_i32 _) as [i |] eqn:Hi; [| discriminate].
  destruct (narrow_i32 _) as [px |] eqn:Hpx; [| discriminate].
  destruct (narrow_i32 _) as [py |] eqn:Hpy in |- *; [| discriminate].
  destruct (narrow_i32 _) as [angle |] eqn:Ha in |- *; [| discriminate].
  destruct (narrow_i32 _) as [major |] eqn:Hmaj in |- *; [| discriminate].
  destruct (narrow_i32 _) as [minor |] eqn:Hmin in |- *; [| discriminate].
  intros _. exists i, px, py, angle, major, minor. cbn [out].
  split; [reflexivity |].
  split; [exact (usize_i32_value _ _ Hi) |].
  split; [apply narrow_round_spec; exact Hpx |].
  split; [apply narrow_round_spec; exact Hpy |].
  split.
  { intro Hne. apply narrow_round_spec.
    destruct (invert_x (m_config s)), (invert_y (m_config s));
      cbn [xorb] in Ha; congruence. }
  split.
  { intro He. apply narrow_round_spec.
    rewrite He in Ha. rewrite xorb_nilpotent in Ha. exact Ha. }
  split; [apply narrow_round_spec; exact Hmaj |].
  split; [apply narrow_round_spec; exact Hmin |].
  split.
  { apply of_int_denotes. split; reflexivity. }
  split; [apply of_int_denotes |]. split; [apply of_int_denotes |].
  split; [apply of_int_denotes |].
  intros Hx Hm Hmax. rewrite Hx, Hm, Hmax in Hpx.
  vm_compute in Hpx. congruence.
Qed.

End TouchProps.

(* ================================================================== *)
(** ** The properties at the sample inputs *)

Section TouchWitnesses.
Import Touch Samples.

Lemma update_disabled_is_noop_witness :
  m_enabled switched_off = false /\
  update (P := limits) [finger 3] switched_off = mkRes (inr tt) switched_off [].
Proof.
  split; [reflexivity |].
  apply (update_disabled_is_noop (P := limits) [finger 3] switched_off).
  reflexivity.
Defined.

(** C1 as it stands fails: the device is disabled, a frame with a finger
    comes in, and [update] neither runs the tracker nor writes anything. *)
Lemma update_disabled_counterexample :
  m_enabled switched_off = false /\
  ~ lifts_while_disabled (P := limits) [finger 3] switched_off.
Proof.
  split; [reflexivity |].
  intros (Hcur & _). vm_compute in Hcur. discriminate.
Qed.

Lemma ascending_1_3 : StdSet.ascending [1%N; 3%N].
Proof. repeat constructor. Qed.

Lemma search_lifted_tracks_witness :
  StdSet.ascending (m_current (tracking_1_3 plain)) /\
  let r := search_lifted [finger 3; untracked; finger 5] (tracking_1_3 plain) in
  m_last (st r) = [1%N; 3%N] /\
  (forall i, In i (m_lift (st r)) <->
             In i (m_last (st r)) /\ ~ In i (m_current (st r))) /\
  NoDup (m_lift (st r)).
Proof.
  split; [exact ascending_1_3 |].
  destruct (search_lifted_tracks [finger 3; untracked; finger 5]
              (tracking_1_3 plain) ascending_1_3)
    as (_ & _ & Hlast & _ & Hlift & Hnd & _).
  cbv zeta. split; [exact Hlast |]. split; [exact Hlift | exact Hnd].
Defined.

Lemma palm_seen_sample :
  palm_seen (tracking_1_3 minding_palms) [finger 3; palm 7; finger 9].
Proof.
  split; [reflexivity |]. exists (palm 7). split; [right; left; reflexivity | reflexivity].
Qed.

Lemma palm_block_witness :
  let s := tracking_1_3 minding_palms in
  let frame := [finger 3; palm 7; finger 9] in
  m_enabled s = true /\ palm_seen s frame /\
  res (update (P := limits) frame s) = inr tt /\
  out (update (P := limits) frame s) =
    flat_map lift_block [3%N; 7%N; 9%N] ++ flat_map lift_block [1%N; 3%N] ++
    [st_lift; syn_report] /\
  m_single_index (st (update (P := limits) frame s)) = 1%N.
Proof.
  cbv zeta.
  destruct (palm_block (P := limits) [finger 3; palm 7; finger 9]
              (tracking_1_3 minding_palms) eq_refl)
    as (_ & Hblocked & _).
  destruct (Hblocked palm_seen_sample) as (Hc & Hl & Hsi & _ & Hout & Hret).
  split; [reflexivity |]. split; [exact palm_seen_sample |].
  assert (Hr : res (update (P := limits) [finger 3; palm 7; finger 9]
                      (tracking_1_3 minding_palms)) = inr tt) by reflexivity.
  split; [exact Hr |]. split; [| exact Hsi].
  rewrite (Hout Hr), Hc, Hl. reflexivity.
Defined.

Lemma emit_multitouch_inversion_witness :
  let s := TouchDevice_new mirrored_x in
  res (emit_multitouch (P := scenario_limits) scenario_contact s) = inr tt /\
  In (Event EV_ABS ABS_MT_POSITION_X 750)
     (out (emit_multitouch (P := scenario_limits) scenario_contact s)) /\
  out (emit_multitouch (P := scenario_limits) scenario_contact s) =
    [Event EV_ABS ABS_MT_SLOT 0;
     Event EV_ABS ABS_MT_TRACKING_ID 0;
     Event EV_ABS ABS_MT_POSITION_X 750;
     Event EV_ABS ABS_MT_POSITION_Y 600;
     Event EV_ABS ABS_MT_ORIENTATION 135;
     Event EV_ABS ABS_MT_TOUCH_MAJOR 125;
     Event EV_ABS ABS_MT_TOUCH_MINOR 63] /\
  out (emit_multitouch (P := scenario_limits) MoreSamples.fractional
         (TouchDevice_new plain)) =
    [Event EV_ABS ABS_MT_SLOT 2;
     Event EV_ABS ABS_MT_TRACKING_ID 2;
     Event EV_ABS ABS_MT_POSITION_X 333;
     Event EV_ABS ABS_MT_POSITION_Y (-63);
     Event EV_ABS ABS_MT_ORIENTATION 126;
     Event EV_ABS ABS_MT_TOUCH_MAJOR 63;
     Event EV_ABS ABS_MT_TOUCH_MINOR 2] /\
  res (emit_multitouch (P := scenario_limits) MoreSamples.far_out
         (TouchDevice_new plain)) = inl narrowing_error.
Proof.
  cbv zeta.
  assert (Hr : res (emit_multitouch (P := scenario_limits) scenario_contact
                      (TouchDevice_new mirrored_x)) = inr tt) by reflexivity.
  destruct (emit_multitouch_inversion (P := scenario_limits) scenario_contact
              (TouchDevice_new mirrored_x) Hr)
    as (i & px & py & angle & major & minor & Hout
        & _ & _ & _ & _ & _ & _ & _ & _ & _ & _ & _ & Hpx).
  split; [exact Hr |]. split.
  { rewrite Hout, (Hpx eq_refl eq_refl eq_refl). right; right; left; reflexivity. }
  split; [reflexivity |]. split; reflexivity.
Defined.

Lemma validity_agrees_sample : validity_agrees [finger 3; palm 4; untracked].
Proof.
  intros c1 c2 i H1 H2 E1 E2.
  destruct H1 as [<- | [<- | [<- | []]]]; destruct H2 as [<- | [<- | [<- | []]]];
    cbn in E1, E2; try reflexivity; congruence.
Qed.

Lemma active_and_lifted_disjoint_witness :
  let s := tracking_1_3 plain in
  let frame := [finger 3; palm 4; untracked] in
  m_enabled s = true /\ is_blocked s frame = false /\
  StdSet.ascending (m_current s) /\ validity_agrees frame /\
  no_duplicate_slots (out (update (P := limits) frame s)).
Proof.
  cbv zeta. split; [reflexivity |]. split; [reflexivity |].
  split; [exact ascending_1_3 |]. split; [exact validity_agrees_sample |].
  exact (active_and_lifted_disjoint (P := limits) [finger 3; palm 4; untracked]
           (tracking_1_3 plain) eq_refl eq_refl ascending_1_3
           validity_agrees_sample).
Defined.

(** C8 as it stands fails on a frame in which one index comes on two
    contacts, one valid and one not: slot 3 is reported active and then
    lifted in the same frame. *)
Lemma duplicate_slot_counterexample :
  let s := tracking_1_3 plain in
  let frame := [finger 3; palm 3] in
  m_enabled s = true /\ is_blocked s frame = false /\
  res (update (P := limits) frame s) = inr tt /\
  ~ no_duplicate_slots (out (update (P := limits) frame s)).
Proof.
  cbv zeta. split; [reflexivity |]. split; [reflexivity |]. split; [reflexivity |].
  intro Hno. apply (Hno 0 3).
  - vm_compute. left. reflexivity.
  - vm_compute. left. reflexivity.
Qed.

Lemma disable_twice_witness :
  let s := tracking_1_3 plain in
  res (disable s) = inr tt /\
  m_current (st (disable s)) = [] /\
  disable (st (disable s)) = mkRes (inr tt) (st (disable s)) [st_lift; syn_report].
Proof.
  cbv zeta.
  assert (Hr : res (disable (tracking_1_3 plain)) = inr tt) by reflexivity.
  destruct (disable_twice (tracking_1_3 plain) Hr) as (_ & Hc & _ & _ & Hd & _).
  split; [exact Hr |]. split; [exact Hc | exact Hd].
Defined.

(** C4, where the code departs from it: index 3 is tracked and is the
    single-touch index.  A frame with that contact alone keeps it; when a
    contact without an index comes first in the frame, the second loop of
    [process_singletouch] takes it for the new pointer and the single-touch
    index becomes [value_or(0) = 0]. *)
Theorem untracked_contact_moves_pointer :
  res (update (P := limits) [finger 3] pointer_on_3) = inr tt /\
  m_single_index (st (update (P := limits) [finger 3] pointer_on_3)) = 3%N /\
  res (update (P := limits) [untracked; finger 3] pointer_on_3) = inr tt /\
  m_single_index (st (update (P := limits) [untracked; finger 3] pointer_on_3)) = 0%N /\
  m_current (st (update (P := limits) [untracked; finger 3] pointer_on_3)) = [3%N] /\
  m_lift (st (update (P := limits) [untracked; finger 3] pointer_on_3)) = [].
Proof. vm_compute. repeat split; reflexivity. Qed.

(** C6, where the code departs from it: ten enabled frames, each with the
    valid and stable contact 3, on a device whose single-touch index is 3
    already.  Every frame writes a single-touch lift and none writes a
    single-touch down.  From the state the constructor leaves it is the
    same. *)
Theorem ten_frames_no_touch_down :
  let frames := repeat [finger 3] 10 in
  res (run_frames (P := limits) frames pointer_on_3) = inr tt /\
  occurrences st_down (out (run_frames (P := limits) frames pointer_on_3)) = 0%nat /\
  occurrences st_lift (out (run_frames (P := limits) frames pointer_on_3)) = 10%nat /\
  m_single_index (st (run_frames (P := limits) frames pointer_on_3)) = 3%N /\
  occurrences st_down
    (out (run_frames (P := limits) frames (TouchDevice_new plain))) = 0%nat /\
  occurrences st_lift
    (out (run_frames (P := limits) frames (TouchDevice_new plain))) = 10%nat.
Proof. vm_compute. repeat split; reflexivity. Qed.

End TouchWitnesses.

(* ================================================================== *)
(** ** More on the device transport *)

Section TransportMoreProps.
Import Control ControlMore.
Context {K : Type} {KM : KernelModel K} {H : ipts_h}.

Local Abbreviation TK := (T (K := K)).

Lemma selected_buffer (c : IptsControl) :
  well_formed c -> exists fd, buffer_at c (slot_of (current_doorbell c)) = Some fd.
Proof.
  intros [_ Hl]. unfold buffer_at, slot_of.
  assert (Hb : 0 <= current_doorbell c mod Z.pos IPTS_BUFFERS < Z.pos IPTS_BUFFERS)
    by (apply Z.mod_pos_bound; lia).
  destruct (nth_error (files c) _) as [fd |] eqn:Hn; [eauto |].
  apply nth_error_None in Hn. lia.
Qed.

Lemma current_selected (m : Machine K) (fd : Z) :
  buffer_at (self m) (slot_of (current_doorbell (self m))) = Some fd ->
  current m = mkRes (inr fd) m [].
Proof.
  intro Hb. destruct (current_run m) as [(fd' & Hfd & Hc) | Hc].
  - unfold buffer_at, slot_of in Hb. rewrite Hb in Hfd. injection Hfd as <-. exact Hc.
  - exfalso. unfold current in Hc. rewrite bind_get in Hc. unfold array_at in Hc.
    unfold buffer_at, slot_of in Hb.
    assert (Hge : 0 <= current_doorbell (self m) mod Z.pos IPTS_BUFFERS)
      by (apply Z.mod_pos_bound; lia).
    apply Z.ltb_ge in Hge. rewrite Hge, Hb in Hc. discriminate.
Qed.

Lemma ready_run (m : Machine K) (fd : Z) :
  buffer_at (self m) (slot_of (current_doorbell (self m))) = Some fd ->
  exists rv av k',
    ready m = mkRes (inr (says_ready rv av)) (mkMachine (self m) k')
                    [sys_ioctl fd IPTS_IOCTL_GET_DEVICE_READY rv av].
Proof.
  intro Hb. unfold ready.
  rewrite (bind_run _ _ _ _ _ _ _ _ (current_selected m fd Hb)).
  destruct (ioctl_run fd IPTS_IOCTL_GET_DEVICE_READY m) as (rv & av & k' & Hio).
  rewrite (bind_run _ _ _ _ _ _ _ _ Hio). cbn [fst snd app].
  exists rv, av, k'. unfold says_ready.
  destruct (rv =? -1); reflexivity.
Qed.

(** The loop of the wait, [n] rounds left: some idle rounds, then either a
    poll answered "ready" or, the rounds used up, nothing more. *)
Lemma wait_loop_shape (n : nat) : forall (m : Machine K) (fd : Z),
  buffer_at (self m) (slot_of (current_doorbell (self m))) = Some fd ->
  exists (rounds : list (Z * Z)) (final : list syscall),
    res (wait_loop n m) = inr tt /\
    self (st (wait_loop n m)) = self m /\
    out (wait_loop n m) = flat_map (idle_round fd) rounds ++ final /\
    Forall (fun a => says_ready (fst a) (snd a) = false) rounds /\
    ((final = [] /\ List.length rounds = n) \/
     ((List.length rounds < n)%nat /\
      exists rv av, final = [sys_ioctl fd IPTS_IOCTL_GET_DEVICE_READY rv av] /\
                    says_ready rv av = true)).
Proof.
  induction n as [| n IH]; intros m fd Hb; cbn [wait_loop].
  - exists [], []. cbn. repeat split; auto.
  - destruct (ready_run m fd Hb) as (rv & av & k' & Hr).
    rewrite (bind_run _ _ _ _ _ _ _ _ Hr).
    destruct (says_ready rv av) eqn:Hs.
    + exists [], [sys_ioctl fd IPTS_IOCTL_GET_DEVICE_READY rv av].
      cbn. repeat split; auto. right. split; [lia |]. eauto.
    + unfold sleep. rewrite bind_tell. cbn [res st out].
      destruct (IH (mkMachine (self m) k') fd Hb)
        as (rounds & final & Hres & Hself & Hout & Hall & Hend).
      exists ((rv, av) :: rounds), final.
      rewrite Hres, Hself, Hout. cbn [self flat_map idle_round fst snd app List.length].
      split; [reflexivity |]. split; [reflexivity |]. split; [reflexivity |].
      split; [constructor; [exact Hs | exact Hall] |].
      destruct Hend as [[Hf Hl] | [Hl Hf]]; [left | right]; split; auto; lia.
Qed.

(** X1: with its [IPTS_BUFFERS] descriptors in place, [wait_for_device]
    always returns and leaves the fields alone.  It polls the buffer the
    counter selects, at most five times: each poll that is not answered
    "ready" (a failed ioctl counts as such) is followed by a sleep of one
    second, a poll answered "ready" ends the wait at once; after five idle
    rounds it gives up and returns all the same. *)
Theorem wait_for_device_is_bounded (m : Machine K) :
  well_formed (self m) ->
  exists (fd : Z) (rounds : list (Z * Z)) (final : list syscall),
    buffer_at (self m) (slot_of (current_doorbell (self m))) = Some fd /\
    res (wait_for_device m) = inr tt /\
    self (st (wait_for_device m)) = self m /\
    out (wait_for_device m) = flat_map (idle_round fd) rounds ++ final /\
    Forall (fun a => says_ready (fst a) (snd a) = false) rounds /\
    ((final = [] /\ List.length rounds = 5%nat) \/
     ((List.length rounds < 5)%nat /\
      exists rv av, final = [sys_ioctl fd IPTS_IOCTL_GET_DEVICE_READY rv av] /\
                    says_ready rv av = true)).
Proof.
  intro Hwf. destruct (selected_buffer _ Hwf) as [fd Hb].
  destruct (wait_loop_shape 5 m fd Hb) as (rounds & final & Hr).
  exists fd, rounds, final. split; [exact Hb | exact Hr].
Qed.

Lemma not_waiting_app (a b : list syscall) :
  not_waiting (a ++ b) = not_waiting a ++ not_waiting b.
Proof. apply filter_app. Qed.

Lemma not_waiting_rounds fd (rounds : list (Z * Z)) :
  not_waiting (flat_map (idle_round fd) rounds) = [].
Proof. induction rounds as [| a r IH]; [reflexivity | exact IH]. Qed.

(** Nothing but polls and sleeps is left behind by the wait. *)
Lemma wait_for_device_run (m : Machine K) (fd : Z) :
  buffer_at (self m) (slot_of (current_doorbell (self m))) = Some fd ->
  res (wait_for_device m) = inr tt /\
  self (st (wait_for_device m)) = self m /\
  not_waiting (out (wait_for_device m)) = [].
Proof.
  intro Hb.
  destruct (wait_loop_shape 5 m fd Hb) as (rounds & final & Hres & Hself & Hout & _ & Hend).
  split; [exact Hres |]. split; [exact Hself |].
  fold wait_for_device in Hout. rewrite Hout, not_waiting_app, not_waiting_rounds.
  destruct Hend as [[-> _] | [_ (rv & av & -> & _)]]; reflexivity.
Qed.

Lemma read_call_run fd count (m : Machine K) :
  exists r k',
    sys_read_call fd count m =
    mkRes (inr r) (mkMachine (self m) k') [sys_read fd count r].
Proof.
  unfold sys_read_call. destruct (kernel_read fd count (kernel m)) as [r k'].
  exists r, k'. reflexivity.
Qed.

Lemma on_machine_run E A (m : M exn (Machine K) E A) (d : Device K) r s' o :
  m (machine d) = mkRes r s' o ->
  on_machine m d = mkRes r (mkDevice s' (info d)) o.
Proof. intro Hm. unfold on_machine. rewrite Hm. reflexivity. Qed.

(** [get_device_info] on an object with a buffer to talk to: the wait, one
    ioctl, and [info] as the ioctl leaves it. *)
Lemma get_device_info_run (d : Device K) (fd : Z) :
  buffer_at (self (machine d)) (slot_of (current_doorbell (self (machine d)))) = Some fd ->
  exists ret arg k',
    get_device_info d =
    mkRes (if ret =? -1 then inl (cerror "Failed to get device info") else inr tt)
          (mkDevice (mkMachine (self (machine d)) k') arg)
          (out (wait_for_device (machine d)) ++
           [sys_ioctl fd IPTS_IOCTL_GET_DEVICE_INFO ret arg]).
Proof.
  intro Hb. destruct (wait_for_device_run (machine d) fd Hb) as (Hw & Hs & _).
  assert (Hwait : wait_for_device (machine d)
                  = mkRes (inr tt) (st (wait_for_device (machine d)))
                          (out (wait_for_device (machine d)))).
  { rewrite <- Hw. symmetry. apply res_eta. }
  remember (st (wait_for_device (machine d))) as m1 eqn:Em1.
  assert (Hb1 : buffer_at (self m1) (slot_of (current_doorbell (self m1))) = Some fd)
    by (rewrite Hs; exact Hb).
  pose proof (current_selected m1 fd Hb1) as Hc.
  destruct (ioctl_run fd IPTS_IOCTL_GET_DEVICE_INFO m1) as (rv & av & k' & Hio).
  exists rv, av, k'. unfold get_device_info.
  rewrite (bind_run _ _ _ _ _ _ _ _ (on_machine_run _ _ _ d _ _ _ Hwait)).
  rewrite (bind_run _ _ _ _ _ _ _ _
             (on_machine_run _ _ _ (mkDevice m1 (info d)) _ _ _ Hc)).
  rewrite (bind_run _ _ _ _ _ _ _ _
             (on_machine_run _ _ _ (mkDevice m1 (info d)) _ _ _ Hio)).
  rewrite bind_modify. cbn [fst snd set_info machine info app].
  rewrite Hs. destruct (rv =? -1); reflexivity.
Qed.

(** X2: [read], [reset] and [get_device_info] each make, besides the
    readiness wait, exactly one call, on the buffer the counter selects;
    an answer of [-1] becomes the operation's own [cerror], and any other
    answer of [read] is the value returned.  [read] and [reset] leave the
    fields alone; [get_device_info] leaves the counter and the descriptors
    alone and stores in [info] what its ioctl has written there. *)
Theorem one_call_on_selected_buffer (m : Machine K) (count old_info : Z) :
  well_formed (self m) ->
  exists fd,
    buffer_at (self m) (slot_of (current_doorbell (self m))) = Some fd /\
    (exists ret,
       not_waiting (out (read count m)) = [sys_read fd count ret] /\
       res (read count m) =
         (if ret =? -1 then inl (cerror "Failed to read from buffer") else inr ret) /\
       self (st (read count m)) = self m) /\
    (exists ret arg,
       not_waiting (out (reset m)) = [sys_ioctl fd IPTS_IOCTL_SEND_RESET ret arg] /\
       res (reset m) =
         (if ret =? -1 then inl (cerror "Failed to reset IPTS") else inr tt) /\
       self (st (reset m)) = self m) /\
    (let d := mkDevice m old_info in
     exists ret arg,
       not_waiting (out (get_device_info d)) =
         [sys_ioctl fd IPTS_IOCTL_GET_DEVICE_INFO ret arg] /\
       res (get_device_info d) =
         (if ret =? -1 then inl (cerror "Failed to get device info") else inr tt) /\
       self (machine (st (get_device_info d))) = self m /\
       info (st (get_device_info d)) = arg).
Proof.
  intro Hwf. destruct (selected_buffer _ Hwf) as [fd Hb]. exists fd.
  split; [exact Hb |].
  destruct (wait_for_device_run m fd Hb) as (Hw & Hs & Hnw).
  remember (st (wait_for_device m)) as m1 eqn:Em1.
  assert (Hb1 : buffer_at (self m1) (slot_of (current_doorbell (self m1))) = Some fd)
    by (rewrite Hs; exact Hb).
  pose proof (current_selected m1 fd Hb1) as Hc.
  split; [| split].
  - unfold read. rewrite (bind_inr _ _ _ _ _ _ Hw), <- Em1.
    rewrite (bind_run _ _ _ _ _ _ _ _ Hc).
    destruct (read_call_run fd count m1) as (r & k' & Hrd).
    rewrite (bind_run _ _ _ _ _ _ _ _ Hrd).
    exists r. cbn [res st out app]. rewrite not_waiting_app, Hnw.
    destruct (r =? -1); cbn; rewrite Hs; auto.
  - unfold reset. rewrite (bind_inr _ _ _ _ _ _ Hw), <- Em1.
    rewrite (bind_run _ _ _ _ _ _ _ _ Hc).
    destruct (ioctl_run fd IPTS_IOCTL_SEND_RESET m1) as (rv & av & k' & Hio).
    rewrite (bind_run _ _ _ _ _ _ _ _ Hio).
    exists rv, av. cbn [res st out app fst]. rewrite not_waiting_app, Hnw.
    destruct (rv =? -1); cbn; rewrite Hs; auto.
  - cbv zeta.
    destruct (get_device_info_run (mkDevice m old_info) fd Hb) as (rv & av & k' & ->).
    exists rv, av. cbn [res st out machine info self].
    rewrite not_waiting_app, Hnw. auto.
Qed.

(** X3: a [send_feedback()] that returns moves the selection to the next
    buffer of the ring, as long as the u32 counter does not wrap.  At the
    wrap from [2^32 - 1] to 0 it still does so exactly when [IPTS_BUFFERS]
    divides [2^32]. *)
Theorem feedback_selects_next_buffer (m : Machine K) (u : unit) :
  res (send_feedback m) = inr u ->
  0 <= current_doorbell (self m) < 2 ^ 32 ->
  let slot := slot_of (current_doorbell (self m)) in
  let slot' := slot_of (current_doorbell (self (st (send_feedback m)))) in
  (current_doorbell (self m) < 2 ^ 32 - 1 ->
   slot' = (slot + 1) mod Z.pos IPTS_BUFFERS) /\
  (current_doorbell (self m) = 2 ^ 32 - 1 ->
   (slot' = (slot + 1) mod Z.pos IPTS_BUFFERS <-> (Z.pos IPTS_BUFFERS | 2 ^ 32))).
Proof.
  intros Hr Hrange. cbv zeta.
  destruct (send_feedback_run m) as (_ & Hrun). rewrite Hr in Hrun.
  destruct Hrun as (fd & _ & _ & _ & Hc). rewrite Hc. unfold slot_of, wrap.
  split.
  - intro Hlt. rewrite (Z.mod_small (_ + 1)) by lia.
    rewrite Z.add_mod_idemp_l by lia. reflexivity.
  - intro Heq. rewrite Heq.
    replace (2 ^ 32 - 1 + 1) with (2 ^ 32) by lia.
    rewrite Z.mod_same by lia. rewrite Z.mod_0_l by lia.
    rewrite Z.add_mod_idemp_l by lia.
    replace (2 ^ 32 - 1 + 1) with (2 ^ 32) by lia.
    rewrite <- Z.mod_divide by lia. split; intro E; symmetry; exact E.
Qed.

(** X4: when a [doorbell] has returned, a second [doorbell] whose hardware
    value is not below the first one's acknowledges no buffer and leaves the
    counter where it was. *)
Theorem doorbell_again_does_not_flush (m : Machine K) (hw1 hw2 : Z) :
  res (doorbell m) = inr hw1 ->
  res (doorbell (st (doorbell m))) = inr hw2 ->
  hw1 <= hw2 ->
  feedbacks (out (doorbell (st (doorbell m)))) = [] /\
  current_doorbell (self (st (doorbell (st (doorbell m))))) =
  current_doorbell (self (st (doorbell m))).
Proof.
  intros H1 H2 Hle.
  destruct (doorbell_run m hw1 H1) as (_ & _ & Hlt & Hge).
  assert (Hloc : current_doorbell (self (st (doorbell m))) <= hw1).
  { destruct (Z.lt_ge_cases hw1 (current_doorbell (self m))) as [Hc | Hc].
    - destruct (Hlt Hc) as (_ & _ & E). lia.
    - destruct (Hge Hc) as (_ & E). lia. }
  destruct (doorbell_run _ hw2 H2) as (_ & _ & _ & Hge2).
  apply Hge2. lia.
Qed.

(** A [doorbell] that throws has not touched the fields. *)
Lemma doorbell_throws_clean (m : Machine K) (e : exn) :
  res (doorbell m) = inl e -> self (st (doorbell m)) = self m.
Proof.
  unfold doorbell.
  destruct (silent_wait_for_device m) as (Hs & _).
  destruct (res (wait_for_device m)) as [x | []] eqn:Hw.
  { rewrite (bind_inl _ _ _ _ _ _ Hw). cbn [st]. auto. }
  rewrite (bind_inr _ _ _ _ _ _ Hw). cbn [res st].
  remember (st (wait_for_device m)) as m1 eqn:Em1.
  destruct (current_run m1) as [(fd & _ & Hc) | Hc].
  2: { rewrite (bind_run_inl _ _ _ _ _ _ _ _ Hc). cbn [st]. auto. }
  rewrite (bind_run _ _ _ _ _ _ _ _ Hc). cbn [res st].
  destruct (ioctl_run fd IPTS_IOCTL_GET_DOORBELL m1) as (rv & av & k' & Hio).
  rewrite (bind_run _ _ _ _ _ _ _ _ Hio). cbn [res st fst snd].
  destruct (rv =? -1).
  { cbn [throw st self]. auto. }
  rewrite bind_get. cbn [self].
  remember (mkMachine (self m1) k') as m3 eqn:Em3.
  destruct (wrap 32 av <? current_doorbell (self m1)).
  - rewrite bind_assoc. destruct (flush_run m3) as (Hs3 & _).
    destruct (res (flush m3)) as [x | []] eqn:Hfl.
    + rewrite (bind_inl _ _ _ _ _ _ Hfl). cbn [st]. intros _.
      rewrite Hs3, Em3. cbn [self]. exact Hs.
    + rewrite (bind_inr _ _ _ _ _ _ Hfl), bind_modify. cbn [ret res]. discriminate.
  - rewrite bind_ret. cbn [ret res]. discriminate.
Qed.

(** X5: a [doorbell] or a [send_feedback()] that throws leaves the counter
    and the descriptors exactly as they were; in particular a resync whose
    flush fails does not lower the counter, so the next [doorbell] sees the
    regression again. *)
Theorem throwing_calls_leave_the_fields (m : Machine K) (e : exn) :
  (res (doorbell m) = inl e -> self (st (doorbell m)) = self m) /\
  (res (send_feedback m) = inl e -> self (st (send_feedback m)) = self m).
Proof.
  split.
  - apply doorbell_throws_clean.
  - intro Hr. destruct (send_feedback_run m) as (_ & Hrun).
    rewrite Hr in Hrun. apply Hrun.
Qed.

Lemma flush_loop_throws (n : nat) : forall (a : nat) (m : Machine K) (e : exn),
  res (for_each (seq a n) flush_step m) = inl e ->
  exists k, (k < n)%nat /\
    feedbacks (out (for_each (seq a n) flush_step m)) =
    firstn k (skipn a (files (self m))).
Proof.
  induction n as [| n IH]; intros a m e; cbn [seq for_each].
  - cbn. discriminate.
  - destruct (flush_step_run a m) as (Hs & Hd & Hf).
    destruct (res (flush_step a m)) as [x | []] eqn:Hr.
    + rewrite (bind_inl _ _ _ _ _ _ Hr). cbn [res out]. intros _.
      exists 0%nat. split; [lia |]. rewrite Hf. reflexivity.
    + rewrite (bind_inr _ _ _ _ _ _ Hr). cbn [res out]. intro He.
      destruct (IH (S a) _ e He) as (k & Hk & Hfk).
      destruct Hf as (v & Hv & Hfv).
      exists (S k). split; [lia |].
      rewrite feedbacks_app, Hfv, Hfk, Hs, (skipn_nth_error _ _ _ Hv). reflexivity.
Qed.

(** X6: a [flush] that throws has acknowledged the first [k] buffers, for
    some [k] below [IPTS_BUFFERS], and none after them; the fields are as
    they were. *)
Theorem failed_flush_stops_short (m : Machine K) (e : exn) :
  res (flush m) = inl e ->
  self (st (flush m)) = self m /\
  exists k, (k < Pos.to_nat IPTS_BUFFERS)%nat /\
            feedbacks (out (flush m)) = firstn k (files (self m)).
Proof.
  intro Hr. split; [apply (flush_run m) |].
  rewrite flush_unfold in *.
  exact (flush_loop_throws _ 0%nat m e Hr).
Qed.

(** *** Once around the ring *)

Lemma map_nth_seq {A} (d : A) (l : list A) (n : nat) : forall a : nat,
  (a + n <= List.length l)%nat ->
  map (fun i => nth i l d) (seq a n) = firstn n (skipn a l).
Proof.
  induction n as [| n IH]; intros a Hle; cbn [seq map]; [reflexivity |].
  rewrite (IH (S a)) by lia.
  rewrite (skipn_nth_error l a (nth a l d)) by (apply nth_error_nth'; lia).
  reflexivity.
Qed.

Lemma rotated_index (c : Z) (n j : nat) :
  0 <= c -> (0 < n)%nat -> (j < n)%nat ->
  Z.to_nat ((c + Z.of_nat j) mod Z.of_nat n) =
  let k := Z.to_nat (c mod Z.of_nat n) in
  if (k + j <? n)%nat then (k + j)%nat else (k + j - n)%nat.
Proof.
  intros Hc Hn Hj. cbv zeta.
  assert (Hk : 0 <= c mod Z.of_nat n < Z.of_nat n) by (apply Z.mod_pos_bound; lia).
  rewrite <- Z.add_mod_idemp_l by lia.
  destruct (Nat.ltb_spec (Z.to_nat (c mod Z.of_nat n) + j) n) as [Hlt | Hge].
  - rewrite Z.mod_small by lia. lia.
  - replace (c mod Z.of_nat n + Z.of_nat j)
      with ((c mod Z.of_nat n + Z.of_nat j - Z.of_nat n) + 1 * Z.of_nat n) by lia.
    rewrite Z_mod_plus_full, Z.mod_small by lia. lia.
Qed.

Lemma seq_shift_k (a n k : nat) : map (fun i => (k + i)%nat) (seq a n) = seq (k + a) n.
Proof.
  revert a. induction n as [| n IH]; intro a; cbn [seq map]; [reflexivity |].
  rewrite IH. f_equal. f_equal. lia.
Qed.

(** The buffers selected by [n] consecutive counter values, [n] the length
    of the ring, are the ring rotated. *)
Lemma ring_rotation (l : list Z) (c : Z) :
  0 <= c -> l <> [] ->
  map (fun i => nth (Z.to_nat ((c + Z.of_nat i) mod Z.of_nat (List.length l))) l 0)
      (seq 0 (List.length l)) =
  skipn (Z.to_nat (c mod Z.of_nat (List.length l))) l ++
  firstn (Z.to_nat (c mod Z.of_nat (List.length l))) l.
Proof.
  intros Hc Hne.
  assert (Hn : (0 < List.length l)%nat) by (destruct l; [congruence | cbn; lia]).
  remember (List.length l) as n eqn:En.
  assert (Hk : 0 <= c mod Z.of_nat n < Z.of_nat n) by (apply Z.mod_pos_bound; lia).
  remember (Z.to_nat (c mod Z.of_nat n)) as k eqn:Ek.
  assert (Hkn : (k < n)%nat) by lia.
  assert (Hseq : seq 0 n = seq 0 (n - k) ++ seq (n - k) k)
    by (rewrite <- seq_app; f_equal; lia).
  rewrite Hseq, map_app. f_equal.
  - rewrite <- (firstn_all2 (n := n - k) (skipn k l))
      by (rewrite length_skipn; lia).
    rewrite <- (map_nth_seq 0 l (n - k) k) by lia.
    replace (seq k (n - k)) with (seq (k + 0) (n - k)) by (f_equal; lia).
    rewrite <- seq_shift_k, map_map. apply map_ext_in.
    intros j Hj. apply in_seq in Hj.
    rewrite (rotated_index c n j) by lia. cbv zeta. rewrite <- Ek.
    destruct (Nat.ltb_spec (k + j) n); [reflexivity | lia].
  - transitivity (firstn k (skipn 0 l)); [| reflexivity].
    rewrite <- (map_nth_seq 0 l k 0) by lia.
    replace (seq (n - k) k) with (seq ((n - k) + 0) k) by (f_equal; lia).
    rewrite <- (seq_shift_k 0 k (n - k)), map_map. apply map_ext_in.
    intros j Hj. apply in_seq in Hj.
    rewrite (rotated_index c n ((n - k) + j)) by lia. cbv zeta. rewrite <- Ek.
    destruct (Nat.ltb_spec (k + (n - k + j)) n); [lia |].
    f_equal. lia.
Qed.

(** [n] acknowledgements in a row, the counter not wrapping: they return,
    the counter has moved on by [n], and the buffers acknowledged are those
    the [n] counter values select, in order. *)
Lemma send_feedback_in_a_row (n : nat) : forall (a : nat) (m : Machine K),
  never_fails (K := K) -> well_formed (self m) ->
  current_doorbell (self m) + Z.of_nat n < 2 ^ 32 ->
  let r := for_each (seq a n) (fun _ => send_feedback) m in
  res r = inr tt /\
  files (self (st r)) = files (self m) /\
  current_doorbell (self (st r)) = current_doorbell (self m) + Z.of_nat n /\
  feedbacks (out r) =
    map (fun i => nth (Z.to_nat (slot_of (current_doorbell (self m) + Z.of_nat i)))
                      (files (self m)) 0)
        (seq 0 n).
Proof.
  induction n as [| n IH]; intros a m Hk Hm Hlt; cbv zeta; cbn [seq for_each].
  - cbn. repeat split; auto. lia.
  - destruct (returns_send_feedback Hk m Hm) as ([] & Hu & _ & Hm').
    destruct (send_feedback_run m) as (_ & Hrun). rewrite Hu in Hrun.
    destruct Hrun as (fd & Hfd & Hf & Hfiles & Hc).
    assert (Hc' : current_doorbell (self (st (send_feedback m)))
                  = current_doorbell (self m) + 1).
    { rewrite Hc. unfold wrap. apply Z.mod_small. destruct Hm as [Hr _]. lia. }
    rewrite (bind_inr _ _ _ _ _ _ Hu). cbn [res st out].
    destruct (IH (S a) (st (send_feedback m)) Hk Hm' ltac:(lia))
      as (Hres & Hfl & Hcur & Hfb).
    rewrite Hres, Hfl, Hcur, Hfiles, Hc', feedbacks_app, Hf, Hfb, Hfiles, Hc'.
    split; [reflexivity |]. split; [reflexivity |]. split; [lia |].
    cbn [app map]. rewrite <- seq_shift, map_map. f_equal.
    + rewrite Z.add_0_r. symmetry. apply nth_error_nth. exact Hfd.
    + apply map_ext. intro i. do 2 f_equal. f_equal. lia.
Qed.

(** X7: [IPTS_BUFFERS] calls of [send_feedback()] in a row, with a kernel
    that does not fail and the counter not wrapping, return and acknowledge
    every buffer of the ring exactly once: the ring in its order, started
    at the buffer the counter selected.  The counter has moved on by
    [IPTS_BUFFERS]. *)
Theorem once_around_the_ring (m : Machine K) :
  never_fails (K := K) -> well_formed (self m) ->
  current_doorbell (self m) + Z.pos IPTS_BUFFERS < 2 ^ 32 ->
  let r := times (Pos.to_nat IPTS_BUFFERS) send_feedback m in
  let k := Z.to_nat (slot_of (current_doorbell (self m))) in
  res r = inr tt /\
  feedbacks (out r) = skipn k (files (self m)) ++ firstn k (files (self m)) /\
  Permutation.Permutation (feedbacks (out r)) (files (self m)) /\
  files (self (st r)) = files (self m) /\
  current_doorbell (self (st r)) = current_doorbell (self m) + Z.pos IPTS_BUFFERS.
Proof.
  intros Hk Hm Hlt. cbv zeta. unfold times.
  destruct (send_feedback_in_a_row (Pos.to_nat IPTS_BUFFERS) 0%nat m Hk Hm
              ltac:(lia)) as (Hres & Hfl & Hcur & Hfb).
  destruct Hm as [Hrange Hlen].
  assert (Hrot : feedbacks (out (for_each (seq 0 (Pos.to_nat IPTS_BUFFERS))
                                   (fun _ => send_feedback) m))
                 = skipn (Z.to_nat (slot_of (current_doorbell (self m)))) (files (self m)) ++
                   firstn (Z.to_nat (slot_of (current_doorbell (self m)))) (files (self m))).
  { rewrite Hfb. unfold slot_of.
    rewrite <- (positive_nat_Z IPTS_BUFFERS), <- Hlen.
    apply ring_rotation; [lia |].
    intro E. rewrite E in Hlen. cbn in Hlen. lia. }
  split; [exact Hres |]. split; [exact Hrot |].
  split; [| split; [exact Hfl | lia]].
  rewrite Hrot.
  eapply Permutation.Permutation_trans; [apply Permutation.Permutation_app_comm |].
  rewrite firstn_skipn. apply Permutation.Permutation_refl.
Qed.

End TransportMoreProps.

(* ================================================================== *)
(** ** Construction and teardown *)

Section LifecycleProps.
Import Control ControlMore Lifecycle.
Context {K : Type} {KM : KernelModel K} {FM : FileModel K} {H : ipts_h}.

Local Abbreviation LK := (L (K := K)).

Lemma opens_app (a b : list call) : opens (a ++ b) = opens a ++ opens b.
Proof.
  induction a as [| c a IH]; [reflexivity |].
  destruct c; cbn [app opens]; rewrite IH; reflexivity.
Qed.

Lemma closes_app (a b : list call) : closes (a ++ b) = closes a ++ closes b.
Proof.
  induction a as [| c a IH]; [reflexivity |].
  destruct c; cbn [app closes]; rewrite IH; reflexivity.
Qed.

Lemma syscalls_app (a b : list call) : syscalls (a ++ b) = syscalls a ++ syscalls b.
Proof.
  induction a as [| c a IH]; [reflexivity |].
  destruct c; cbn [app syscalls]; rewrite IH; reflexivity.
Qed.

Lemma lifted_trace (tr : list syscall) :
  opens (map sys tr) = [] /\ closes (map sys tr) = [] /\ syscalls (map sys tr) = tr.
Proof.
  induction tr as [| c tr (H1 & H2 & H3)]; [auto |].
  cbn. rewrite H3. auto.
Qed.

Lemma replace_nth_length (l : list Z) : forall i v,
  List.length (replace_nth i v l) = List.length l.
Proof.
  induction l as [| x l IH]; intros [| i] v; cbn; auto.
Qed.

Lemma replace_nth_firstn (l : list Z) : forall i v,
  (i < List.length l)%nat -> firstn (S i) (replace_nth i v l) = firstn i l ++ [v].
Proof.
  induction l as [| x l IH]; intros [| i] v Hi; cbn in *; try lia; [reflexivity |].
  rewrite IH by lia. reflexivity.
Qed.

Lemma replace_nth_skipn (l : list Z) : forall i k v,
  (i < k)%nat -> skipn k (replace_nth i v l) = skipn k l.
Proof.
  induction l as [| x l IH]; intros [| i] [| k] v Hi; cbn; try lia; auto.
  apply IH. lia.
Qed.

(** The body of the loop of the constructor. *)
Lemma open_step_run (i : nat) (m : Machine K) :
  (i < List.length (files (self m)))%nat ->
  exists r k',
    kernel_open (node_name i) (kernel m) = (r, k') /\
    (r <- open (node_name i) ;;
     if r =? -1 then throw (cerror ("Failed to open " ++ node_name i))
     else set_file i r) m =
    if r =? -1
    then mkRes (inl (cerror ("Failed to open " ++ node_name i)))
               (mkMachine (self m) k') [sys_open (node_name i) r]
    else mkRes (inr tt)
               (mkMachine (mkIptsControl (current_doorbell (self m))
                                         (replace_nth i r (files (self m)))) k')
               [sys_open (node_name i) r].
Proof.
  intro Hi. destruct (kernel_open (node_name i) (kernel m)) as [r k'] eqn:Hk.
  exists r, k'. split; [reflexivity |].
  assert (Ho : open (node_name i) m
               = mkRes (inr r) (mkMachine (self m) k') [sys_open (node_name i) r]).
  { unfold open. rewrite Hk. reflexivity. }
  rewrite (bind_run _ _ _ _ _ _ _ _ Ho).
  destruct (r =? -1); [reflexivity |].
  unfold set_file. rewrite bind_get. cbn [self].
  apply Nat.ltb_lt in Hi. rewrite Hi. reflexivity.
Qed.

Lemma open_loop (n : nat) : forall (a : nat) (m : Machine K),
  (a + n <= List.length (files (self m)))%nat ->
  let r := for_each (seq a n) (fun i =>
             let name := node_name i in
             r <- open name ;;
             if r =? -1 then throw (cerror ("Failed to open " ++ name))
             else set_file i r) m in
  out r = map (fun p => sys_open (fst p) (snd p)) (opens (out r)) /\
  current_doorbell (self (st r)) = current_doorbell (self m) /\
  List.length (files (self (st r))) = List.length (files (self m)) /\
  match res r with
  | inr _ =>
      map fst (opens (out r)) = map node_name (seq a n) /\
      Forall (fun fd => fd <> -1) (map snd (opens (out r))) /\
      files (self (st r)) =
        firstn a (files (self m)) ++ map snd (opens (out r)) ++
        skipn (a + n) (files (self m))
  | inl e =>
      exists j good, (j < n)%nat /\
        List.length good = j /\
        Forall (fun fd => fd <> -1) good /\
        e = cerror ("Failed to open " ++ node_name (a + j)) /\
        opens (out r) =
          combine (map node_name (seq a j)) good ++ [(node_name (a + j), -1)]
  end.
Proof.
  induction n as [| n IH]; intros a m Hle; cbv zeta; cbn [seq for_each].
  - cbn [ret res st out opens map app]. rewrite Nat.add_0_r, firstn_skipn.
    repeat split; auto.
  - destruct (open_step_run a m ltac:(lia)) as (r & k' & _ & Hstep).
    cbv zeta in Hstep.
    destruct (r =? -1) eqn:Hr.
    + apply Z.eqb_eq in Hr. subst r.
      rewrite (bind_run_inl _ _ _ _ _ _ _ _ Hstep). cbn [res st out self opens map fst snd].
      repeat split; auto. exists 0%nat, []. rewrite Nat.add_0_r.
      repeat split; auto; lia.
    + apply Z.eqb_neq in Hr.
      rewrite (bind_run _ _ _ _ _ _ _ _ Hstep). cbn [res st out].
      set (m1 := mkMachine _ k').
      assert (Hl1 : List.length (files (self m1)) = List.length (files (self m)))
        by apply replace_nth_length.
      specialize (IH (S a) m1 ltac:(rewrite Hl1; lia)). cbv zeta in IH.
      destruct IH as (Hout & Hcur & Hlen & Hres).
      set (rest := for_each (seq (S a) n) _ m1) in *.
      cbn [app opens map fst snd]. rewrite Hcur, Hlen, Hl1.
      split; [f_equal; exact Hout |]. split; [reflexivity |]. split; [reflexivity |].
      destruct (res rest) as [e | u].
      * destruct Hres as (j & good & Hj & Hgl & Hgood & He & Hops).
        exists (S j), (r :: good). rewrite Nat.add_succ_r.
        split; [lia |]. split; [cbn [List.length]; f_equal; exact Hgl |].
        split; [constructor; [exact Hr | exact Hgood] |].
        split; [exact He |].
        rewrite Hops. reflexivity.
      * destruct Hres as (Hnames & Hall & Hfiles).
        split; [f_equal; exact Hnames |].
        split; [constructor; [exact Hr | exact Hall] |].
        rewrite Hfiles. cbn [m1 self files].
        rewrite replace_nth_firstn by lia.
        rewrite (replace_nth_skipn _ a (S a + n)) by lia.
        rewrite <- app_assoc. cbn [app].
        replace (a + S n)%nat with (S a + n)%nat by lia. reflexivity.
Qed.


Lemma doorbell_reads_range (tr : list syscall) :
  Forall (fun d => 0 <= d < 2 ^ 32) (doorbell_reads tr).
Proof.
  induction tr as [| c tr IH]; cbn [doorbell_reads]; [constructor |].
  destruct c as [fd req r v | |]; auto. destruct req; auto.
  destruct (r =? -1); auto. constructor; [| exact IH].
  apply wrap_range. lia.
Qed.

Lemma set_doorbell_fields d (m : Machine K) :
  current_doorbell (self (set_doorbell d m)) = d /\
  files (self (set_doorbell d m)) = files (self m).
Proof. split; reflexivity. Qed.

Lemma bind_on_machine E A B (m : M exn (Machine K) E A)
      (f : A -> M exn (Device K) E B) (d : Device K) :
  bind (on_machine m) f d =
  match res (m (machine d)) with
  | inl e => mkRes (inl e) (mkDevice (st (m (machine d))) (info d)) (out (m (machine d)))
  | inr a =>
      mkRes (res (f a (mkDevice (st (m (machine d))) (info d))))
            (st (f a (mkDevice (st (m (machine d))) (info d))))
            (out (m (machine d)) ++ out (f a (mkDevice (st (m (machine d))) (info d))))
  end.
Proof.
  unfold bind, on_machine. cbn [res st out].
  destruct (res (m (machine d))); reflexivity.
Qed.

Lemma lift_res S A (m : M exn S syscall A) (s : S) : res (lift m s) = res (m s).
Proof. reflexivity. Qed.

Lemma lift_st S A (m : M exn S syscall A) (s : S) : st (lift m s) = st (m s).
Proof. reflexivity. Qed.

Lemma lift_out S A (m : M exn S syscall A) (s : S) :
  out (lift m s) = map sys (out (m s)).
Proof. reflexivity. Qed.

(** The calls of the constructor after its loop, by cases on where the
    first exception is thrown. *)
Lemma lifted_sequence (a : LK unit) (b : LD (K := K) unit) (c : LK Z) (dv : Device K) :
  let r := (on_machine a ;; b ;;
            d <- on_machine c ;; on_machine (modify (set_doorbell d))) dv in
  let d1 := mkDevice (st (a (machine dv))) (info dv) in
  let d2 := st (b d1) in
  let m3 := st (c (machine d2)) in
  match res (a (machine dv)) with
  | inl e => r = mkRes (inl e) d1 (out (a (machine dv)))
  | inr _ =>
      match res (b d1) with
      | inl e => r = mkRes (inl e) d2 (out (a (machine dv)) ++ out (b d1))
      | inr _ =>
          match res (c (machine d2)) with
          | inl e =>
              r = mkRes (inl e) (mkDevice m3 (info d2))
                        (out (a (machine dv)) ++ out (b d1) ++ out (c (machine d2)))
          | inr d =>
              r = mkRes (inr tt) (mkDevice (set_doorbell d m3) (info d2))
                        (out (a (machine dv)) ++ out (b d1) ++ out (c (machine d2)))
          end
      end
  end.
Proof.
  cbv zeta. unfold bind, on_machine, modify. cbn [res st out machine info].
  destruct (res (a (machine dv))) as [e | u]; [reflexivity |].
  destruct (res (b _)) as [e | v]; [reflexivity |].
  destruct (res (c _)) as [e | d]; rewrite ?app_nil_r; reflexivity.
Qed.

(** The constructor after its loop, on an object whose counter is 0: one
    flush, the device info, and the counter set from the doorbell, which
    flushes no second time. *)
Lemma startup_run (dv : Device K) :
  current_doorbell (self (machine dv)) = 0 ->
  List.length (files (self (machine dv))) = Pos.to_nat IPTS_BUFFERS ->
  let r := (on_machine (lift flush) ;; lift get_device_info ;;
            d <- on_machine (lift doorbell) ;;
            on_machine (modify (set_doorbell d))) dv in
  exists tr,
    out r = map sys tr /\
    (res r = inr tt ->
     feedbacks tr = files (self (machine dv)) /\
     doorbell_reads tr = [current_doorbell (self (machine (st r)))] /\
     files (self (machine (st r))) = files (self (machine dv)) /\
     0 <= current_doorbell (self (machine (st r))) < 2 ^ 32 /\
     exists fd ret,
       In (sys_ioctl fd IPTS_IOCTL_GET_DEVICE_INFO ret (info (st r))) tr).
Proof.
  intros Hzero Hlen.
  pose proof (lifted_sequence (lift flush) (lift get_device_info) (lift doorbell) dv)
    as Hseq.
  cbv zeta in *.
  set (r := (on_machine (lift flush) ;; _) dv) in *. clearbody r.
  rewrite !lift_res, !lift_st, !lift_out in Hseq.
  destruct (flush_run (machine dv)) as (Hs1 & Hd1 & Hf1).
  set (m1 := st (flush (machine dv))) in *.
  assert (Hwf1 : well_formed (self m1)).
  { rewrite Hs1. split; [rewrite Hzero; lia | exact Hlen]. }
  destruct (selected_buffer _ Hwf1) as [fd Hb].
  destruct (get_device_info_run (mkDevice m1 (info dv)) fd Hb) as (rv & av & k' & Hgdi).
  cbn [machine info] in Hgdi.
  rewrite Hgdi in Hseq. cbn [res st out machine info] in Hseq.
  set (m2 := mkMachine (self m1) k') in *.
  destruct (silent_wait_for_device m1) as (_ & Hfw & Hdw).
  destruct (res (flush (machine dv))) as [e | []] eqn:Hr1.
  { subst r. eexists. split; [reflexivity | discriminate]. }
  destruct (rv =? -1) eqn:Hrv.
  { subst r. eexists. split; [rewrite <- map_app; reflexivity | discriminate]. }
  destruct (res (doorbell m2)) as [e | hw] eqn:Hr3.
  { subst r. eexists. split; [rewrite <- !map_app; reflexivity | discriminate]. }
  subst r. eexists. split; [rewrite <- !map_app; reflexivity |]. intros _.
  cbn [st machine info].
  destruct (doorbell_run m2 hw Hr3) as (Hd3 & Hfiles3 & _ & Hge).
  assert (Hhw : 0 <= hw < 2 ^ 32).
  { pose proof (doorbell_reads_range (out (doorbell m2))) as Hrange.
    rewrite Hd3 in Hrange. inversion Hrange. assumption. }
  assert (Hcur2 : current_doorbell (self m2) = 0) by (cbn [m2 self]; rewrite Hs1; exact Hzero).
  destruct (Hge ltac:(lia)) as (Hf3 & _).
  destruct (Hf1 tt eq_refl) as (Hfb & Hfl).
  rewrite !feedbacks_app, !doorbell_reads_app, Hfw, Hdw, Hf3, Hd1, Hd3.
  cbn [feedbacks doorbell_reads app]. rewrite !app_nil_r.
  destruct (set_doorbell_fields hw (st (doorbell m2))) as [-> ->].
  rewrite Hfiles3. cbn [m2 self]. rewrite Hs1.
  split; [rewrite Hfb; apply firstn_all2; lia |].
  split; [reflexivity |]. split; [reflexivity |]. split; [exact Hhw |].
  exists fd, rv. apply in_or_app. right. apply in_or_app. left.
  apply in_or_app. right. left. reflexivity.
Qed.

(** The constructor, whole: what a run that returns has done, and what
    one that stops at an [open] has done. *)
Lemma construct_run (k : K) :
  let r := IptsControl_new k in
  out r = map (fun p => sys_open (fst p) (snd p)) (opens (out r))
          ++ map sys (syscalls (out r)) /\
  match res r with
  | inr _ =>
      map fst (opens (out r)) = map node_name (seq 0 (Pos.to_nat IPTS_BUFFERS)) /\
      map snd (opens (out r)) = files (self (machine (st r))) /\
      Forall (fun fd => fd <> -1) (files (self (machine (st r)))) /\
      feedbacks (syscalls (out r)) = files (self (machine (st r))) /\
      doorbell_reads (syscalls (out r)) = [current_doorbell (self (machine (st r)))] /\
      well_formed (self (machine (st r))) /\
      exists fd ret,
        In (sys_ioctl fd IPTS_IOCTL_GET_DEVICE_INFO ret (info (st r)))
           (syscalls (out r))
  | inl e =>
      (Forall (fun fd => fd <> -1) (map snd (opens (out r))) /\
       List.length (opens (out r)) = Pos.to_nat IPTS_BUFFERS) \/
      (exists i good, (i < Pos.to_nat IPTS_BUFFERS)%nat /\
         List.length good = i /\
         Forall (fun fd => fd <> -1) good /\
         e = cerror ("Failed to open " ++ node_name i) /\
         opens (out r) = combine (map node_name (seq 0 i)) good ++ [(node_name i, -1)] /\
         syscalls (out r) = [])
  end.
Proof.
  cbv zeta. unfold IptsControl_new, construct.
  pose proof (open_loop (Pos.to_nat IPTS_BUFFERS) 0%nat (machine (blank k))) as Hloop.
  cbn [blank machine self files] in Hloop. rewrite repeat_length in Hloop.
  specialize (Hloop ltac:(lia)). cbv zeta in Hloop.
  destruct Hloop as (Hout & Hcur & Hlen & Hres).
  remember (for_each (seq 0 (Pos.to_nat IPTS_BUFFERS)) _
              (mkMachine (mkIptsControl 0 (repeat 0 (Pos.to_nat IPTS_BUFFERS))) k))
    as r0 eqn:Er0.
  assert (Hsys0 : syscalls (out r0) = []).
  { rewrite Hout. clear. induction (opens (out r0)) as [| p l IH]; [reflexivity | exact IH]. }
  rewrite bind_on_machine. cbn [blank machine info]. cbv zeta. rewrite <- Er0.
  destruct (res r0) as [e | []] eqn:Hr0.
  - cbn [res st out]. rewrite Hsys0. cbn [map]. rewrite app_nil_r.
    split; [exact Hout |]. right.
    destruct Hres as (j & good & Hj & Hgl & Hgood & He & Hops).
    exists j, good. cbn [Nat.add] in He, Hops. auto 8.
  - cbn [res st out].
    destruct Hres as (Hnames & Hall & Hfiles).
    cbn [firstn app Nat.add self files] in Hfiles.
    rewrite skipn_all2, app_nil_r in Hfiles by (rewrite repeat_length; lia).
    cbn [self current_doorbell files] in Hcur.
    destruct (startup_run (mkDevice (st r0) 0) Hcur Hlen) as (tr & Htr & Hok).
    cbv zeta in Htr, Hok. cbn [machine] in Hok.
    remember ((on_machine (lift flush) ;; lift get_device_info ;;
               d <- on_machine (lift doorbell) ;;
               on_machine (modify (set_doorbell d))) (mkDevice (st r0) 0)) as r1 eqn:Er1.
    destruct (lifted_trace tr) as (Ho1 & Hc1 & Hs1).
    assert (Hop : opens (out r0 ++ out r1) = opens (out r0)).
    { rewrite opens_app, Htr, Ho1. apply app_nil_r. }
    assert (Hsy : syscalls (out r0 ++ out r1) = tr).
    { rewrite syscalls_app, Htr, Hs1, Hsys0. reflexivity. }
    rewrite Hop, Hsy, <- Hout, Htr. split; [reflexivity |].
    destruct (res r1) as [e | []] eqn:Hr1.
    + left. split; [exact Hall |].
      rewrite <- (length_map snd), <- Hfiles. exact Hlen.
    + destruct (Hok eq_refl) as (Hfb & Hdr & Hfs & Hrange & Hinfo).
      rewrite Hnames, Hfs, <- Hfiles.
      split; [reflexivity |]. split; [reflexivity |]. split; [rewrite Hfiles; exact Hall |].
      split; [exact Hfb |].
      split; [exact Hdr |].
      split; [| exact Hinfo].
      split; [exact Hrange |]. rewrite Hfs. exact Hlen.
Qed.

(** The body of the loop of the destructor. *)
Lemma close_step_run (i : nat) (m : Machine K) (fd : Z) :
  nth_error (files (self m)) i = Some fd ->
  (m' <- get ;;
   fd <- lift (array_at (files (self m')) (Z.of_nat i)) ;;
   close fd ;; ret tt) m =
  mkRes (inr tt) (mkMachine (self m) (snd (kernel_close fd (kernel m))))
        [sys_close fd (fst (kernel_close fd (kernel m)))].
Proof.
  intro Hn. rewrite bind_get.
  assert (Ha : lift (array_at (files (self m)) (Z.of_nat i)) m = mkRes (inr fd) m []).
  { unfold lift, array_at.
    destruct (Z.of_nat i <? 0) eqn:Hneg; [apply Z.ltb_lt in Hneg; lia |].
    rewrite Nat2Z.id, Hn. reflexivity. }
  rewrite (bind_run _ _ _ _ _ _ _ _ Ha). cbn [app].
  unfold bind, close, ret.
  destruct (kernel_close fd (kernel m)) as [r k']. reflexivity.
Qed.

Lemma destroy_loop (n : nat) : forall (a : nat) (m : Machine K),
  (a + n <= List.length (files (self m)))%nat ->
  let r := for_each (seq a n) (fun i =>
             m' <- get ;;
             fd <- lift (array_at (files (self m')) (Z.of_nat i)) ;;
             close fd ;; ret tt) m in
  res r = inr tt /\
  self (st r) = self m /\
  closes (out r) = firstn n (skipn a (files (self m))) /\
  List.length (out r) = n.
Proof.
  induction n as [| n IH]; intros a m Hle; cbv zeta; cbn [seq for_each].
  - cbn [ret res st out closes firstn List.length]. auto.
  - destruct (nth_error (files (self m)) a) as [fd |] eqn:Hn;
      [| apply nth_error_None in Hn; lia].
    rewrite (bind_run _ _ _ _ _ _ _ _ (close_step_run a m fd Hn)). cbn [res st out].
    set (m1 := mkMachine (self m) _).
    specialize (IH (S a) m1 ltac:(cbn [m1 self]; lia)). cbv zeta in IH.
    destruct IH as (Hres & Hself & Hcl & Hlen).
    split; [exact Hres |]. split; [exact Hself |].
    cbn [app closes List.length]. rewrite Hcl, Hlen. cbn [m1 self].
    split; [| reflexivity].
    rewrite (skipn_nth_error _ _ _ Hn). reflexivity.
Qed.

(** X8: A constructor that returns has opened the nodes [/dev/ipts/0],
    [/dev/ipts/1], ... in this order and nothing else, and keeps the
    descriptors it was given, none of them [-1], in the array in the same
    order; it has closed nothing; after the opens it has acknowledged every
    buffer exactly once, in the order of the array, and has read the doorbell
    successfully exactly once; the counter of the new object is the value
    read, and the object is well formed.  Its [info] is what the
    [GET_DEVICE_INFO] ioctl has written. *)
Theorem constructor_opens_flushes_and_syncs (k : K) :
  res (IptsControl_new k) = inr tt ->
  let r := IptsControl_new k in
  map fst (opens (out r)) = map node_name (seq 0 (Pos.to_nat IPTS_BUFFERS)) /\
  map snd (opens (out r)) = files (self (machine (st r))) /\
  Forall (fun fd => fd <> -1) (files (self (machine (st r)))) /\
  closes (out r) = [] /\
  out r = map (fun p => sys_open (fst p) (snd p)) (opens (out r))
          ++ map sys (syscalls (out r)) /\
  feedbacks (syscalls (out r)) = files (self (machine (st r))) /\
  doorbell_reads (syscalls (out r)) = [current_doorbell (self (machine (st r)))] /\
  well_formed (self (machine (st r))) /\
  exists fd ret,
    In (sys_ioctl fd IPTS_IOCTL_GET_DEVICE_INFO ret (info (st r))) (syscalls (out r)).
Proof.
  intro Hres. cbv zeta.
  destruct (construct_run k) as (Hout & Hrun). cbv zeta in Hout, Hrun.
  rewrite Hres in Hrun.
  destruct Hrun as (Hnames & Hfds & Hall & Hfb & Hdr & Hwf & Hinfo).
  split; [exact Hnames |]. split; [exact Hfds |]. split; [exact Hall |].
  split; [| auto 6].
  rewrite Hout, closes_app.
  destruct (lifted_trace (syscalls (out (IptsControl_new k)))) as (_ & -> & _).
  rewrite app_nil_r. clear.
  induction (opens (out (IptsControl_new k))) as [| p l IH]; [reflexivity | exact IH].
Qed.

(** X9: When an [open] answers [-1], the constructor throws the error
    "Failed to open " followed by the path of that node; the failing open
    is its last call: every earlier one was of the nodes before it, in
    order, and succeeded; no ioctl has been issued and none of the
    descriptors opened so far has been closed. *)
Theorem failed_open_stops_construction (k : K) (name : string) :
  In (name, -1) (opens (out (IptsControl_new k))) ->
  let r := IptsControl_new k in
  exists i good,
    (i < Pos.to_nat IPTS_BUFFERS)%nat /\
    name = node_name i /\
    res r = inl (cerror ("Failed to open " ++ name)) /\
    List.length good = i /\
    Forall (fun fd => fd <> -1) good /\
    out r = map (fun p => sys_open (fst p) (snd p))
                (combine (map node_name (seq 0 i)) good ++ [(name, -1)]).
Proof.
  intro Hin. cbv zeta.
  destruct (construct_run k) as (Hout & Hrun). cbv zeta in Hout, Hrun.
  assert (Hbad : ~ Forall (fun fd => fd <> -1)
                   (map snd (opens (out (IptsControl_new k))))).
  { intro Hall. rewrite Forall_forall in Hall.
    apply (Hall (-1)); [| reflexivity].
    apply in_map_iff. exists (name, -1). auto. }
  destruct (res (IptsControl_new k)) as [e | u].
  - destruct Hrun as [[Hall _] | (i & good & Hi & Hgl & Hgood & He & Hops & Hsys)];
      [contradiction |].
    assert (Hname : name = node_name i).
    { rewrite Hops in Hin. apply in_app_or in Hin. destruct Hin as [Hin | [Heq | []]].
      - apply in_combine_r in Hin. rewrite Forall_forall in Hgood.
        exfalso. apply (Hgood (-1) Hin). reflexivity.
      - injection Heq as Heq. symmetry. exact Heq. }
    exists i, good. subst name e.
    split; [exact Hi |]. split; [reflexivity |]. split; [reflexivity |].
    split; [exact Hgl |]. split; [exact Hgood |].
    rewrite Hout at 1. rewrite Hsys, Hops. cbn [map]. apply app_nil_r.
  - destruct Hrun as (_ & Hfds & Hall & _). rewrite <- Hfds in Hall. contradiction.
Qed.

(** X10: The destructor of an object with its [IPTS_BUFFERS] descriptors
    closes each of them exactly once, in the order of the array, whatever
    the closes answer; it makes no other call, throws nothing and leaves
    the fields as they are. *)
Theorem destructor_closes_every_descriptor (m : Machine K) :
  List.length (files (self m)) = Pos.to_nat IPTS_BUFFERS ->
  res (destroy m) = inr tt /\
  closes (out (destroy m)) = files (self m) /\
  List.length (out (destroy m)) = Pos.to_nat IPTS_BUFFERS /\
  self (st (destroy m)) = self m.
Proof.
  intro Hlen. unfold destroy.
  destruct (destroy_loop (Pos.to_nat IPTS_BUFFERS) 0%nat m ltac:(lia))
    as (Hres & Hself & Hcl & Hl).
  split; [exact Hres |]. split; [| auto].
  rewrite Hcl. cbn [skipn]. apply firstn_all2. lia.
Qed.

(** X11: Construction and destruction match: on an object the constructor
    has returned, the destructor closes exactly the descriptors the opens
    returned, each once and in the order they were opened. *)
Theorem destructor_closes_what_was_opened (k : K) :
  res (IptsControl_new k) = inr tt ->
  let r := IptsControl_new k in
  res (destroy (machine (st r))) = inr tt /\
  closes (out (destroy (machine (st r)))) = map snd (opens (out r)).
Proof.
  intro Hres. cbv zeta.
  destruct (construct_run k) as (_ & Hrun). cbv zeta in Hrun.
  rewrite Hres in Hrun. destruct Hrun as (_ & Hfds & _ & _ & _ & (_ & Hlen) & _).
  unfold destroy.
  destruct (destroy_loop (Pos.to_nat IPTS_BUFFERS) 0%nat
              (machine (st (IptsControl_new k))) ltac:(lia)) as (Hr & _ & Hcl & _).
  split; [exact Hr |].
  rewrite Hcl, Hfds. cbn [skipn]. apply firstn_all2. lia.
Qed.

End LifecycleProps.

(* ================================================================== *)
(** ** Frames of the touch device, whole

    Several statements below assume [StdSet.ascending (m_current s)]: that
    the list standing for [m_current] is a proper set, as a [std::set]
    always is.  [session_keeps_the_sets] shows it of every state a device
    can be in. *)

Section TouchMoreProps.
Import Touch TouchMore F64.
Context {P : protocol_h}.

Local Abbreviation DM := (M exn TouchDevice input_event).

Lemma select_new_run (contacts : list Contact) : forall s : TouchDevice,
  select_new contacts s =
  mkRes (inr tt)
        (match List.find (candidate (m_single_index s)) contacts with
         | Some c => set_single_index (value_or (index c) 0%N) s
         | None => s
         end) [].
Proof.
  induction contacts as [| c l IH]; intro s; cbn [select_new List.find]; [reflexivity |].
  rewrite bind_get. unfold candidate at 1.
  destruct (opt_eq (index c) (m_single_index s)); cbn [negb andb]; [apply IH |].
  destruct (value_or (valid c) true); cbn [negb]; [reflexivity | apply IH].
Qed.

(** [process_singletouch] right after [search_lifted]: the first loop
    never finds a contact to report. *)
Lemma process_singletouch_run (contacts : list Contact) (s : TouchDevice) :
  StdSet.ascending (m_current s) -> m_enabled s = true ->
  process_singletouch contacts (after_search contacts s) =
  mkRes (inr tt)
        (set_single_index (next_pointer (m_single_index s) contacts)
                          (after_search contacts s))
        [st_lift].
Proof.
  intros Hs Hen. set (s1 := after_search contacts s).
  unfold process_singletouch. rewrite bind_get.
  assert (Hfirst : (if negb (negb (StdSet.find (m_single_index s1) (m_lift s1)))
                    then find_selected contacts else ret false) s1
                   = mkRes (inr false) s1 []).
  { destruct (StdSet.find (m_single_index s1) (m_lift s1)) eqn:Hf; cbn [negb];
      [| reflexivity].
    apply find_selected_absent. intros c Hin.
    destruct (opt_eq (index c) (m_single_index s1)) eqn:He; [| reflexivity].
    exfalso. apply find_In in Hf. apply (lifted_In contacts s _ Hs) in Hf.
    destruct Hf as [_ Hn]. apply Hn. exists c. split; [exact Hin |].
    unfold opt_eq in He. destruct (index c) as [i |]; [| discriminate].
    apply N.eqb_eq in He. congruence. }
  rewrite (bind_run _ _ _ _ _ _ _ _ Hfirst). cbn [res st out app].
  unfold lift_singletouch, emit. rewrite bind_tell, bind_get.
  assert (Hen1 : m_enabled s1 = true) by exact Hen.
  rewrite Hen1. cbn [negb]. rewrite select_new_run. cbn [res st out].
  unfold next_pointer. cbn [s1 after_search m_single_index].
  destruct (List.find _ contacts); reflexivity.
Qed.

Lemma is_blocked_after_search (contacts frame : list Contact) (s : TouchDevice) :
  is_blocked (after_search frame s) contacts = is_blocked s contacts.
Proof. reflexivity. Qed.

(** A frame that is not blocked, on an enabled device. *)
Lemma update_unblocked_run (contacts : list Contact) (s : TouchDevice) :
  m_enabled s = true -> is_blocked s contacts = false ->
  StdSet.ascending (m_current s) ->
  let s1 := after_search contacts s in
  let b1 := run_blocks (contact_events (m_config s)) contacts in
  let b2 := run_blocks lift_events (m_lift s1) in
  update contacts s =
  if fst b1 then
    if fst b2 then
      mkRes (inr tt)
            (set_single_index (next_pointer (m_single_index s) contacts) s1)
            (snd b1 ++ snd b2 ++ [st_lift; syn_report])
    else mkRes (inl narrowing_error) s1 (snd b1 ++ snd b2)
  else mkRes (inl narrowing_error) s1 (snd b1).
Proof.
  intros Hen Hb Hs. cbv zeta.
  rewrite (update_enabled_run _ _ Hen), Hb, bind_assoc.
  pose proof (process_multitouch_run contacts (after_search contacts s)) as Hpm.
  cbv zeta in Hpm. change (m_config (after_search contacts s)) with (m_config s) in Hpm.
  destruct (fst (run_blocks (contact_events (m_config s)) contacts)).
  - destruct (fst (run_blocks lift_events (m_lift (after_search contacts s)))).
    + rewrite (bind_run _ _ _ _ _ _ _ _ Hpm).
      rewrite (bind_run _ _ _ _ _ _ _ _ (process_singletouch_run contacts s Hs Hen)).
      cbn [res st out sync emit tell app]. rewrite <- app_assoc. reflexivity.
    + rewrite (bind_run_inl _ _ _ _ _ _ _ _ Hpm). reflexivity.
  - rewrite (bind_run_inl _ _ _ _ _ _ _ _ Hpm). reflexivity.
Qed.

(** A frame that is blocked. *)
Lemma update_blocked_closed (contacts : list Contact) (s : TouchDevice) :
  m_enabled s = true -> is_blocked s contacts = true ->
  let s1 := after_search contacts s in
  let b1 := run_blocks lift_all_events (m_current s1) in
  let b2 := run_blocks lift_all_events (m_last s1) in
  update contacts s =
  if fst b1 then
    if fst b2 then mkRes (inr tt) s1 (snd b1 ++ snd b2 ++ [st_lift; syn_report])
    else mkRes (inl narrowing_error) s1 (snd b1 ++ snd b2)
  else mkRes (inl narrowing_error) s1 (snd b1).
Proof.
  intros Hen Hb. cbv zeta. rewrite (update_blocked_run _ _ Hen Hb).
  pose proof (lift_all_run (after_search contacts s)) as Hl. cbv zeta in Hl.
  destruct (fst (run_blocks lift_all_events (m_current (after_search contacts s)))).
  - destruct (fst (run_blocks lift_all_events (m_last (after_search contacts s)))).
    + rewrite (bind_run _ _ _ _ _ _ _ _ Hl).
      cbn [res st out sync emit tell app]. rewrite <- !app_assoc. reflexivity.
    + rewrite (bind_run_inl _ _ _ _ _ _ _ _ Hl). reflexivity.
  - rewrite (bind_run_inl _ _ _ _ _ _ _ _ Hl). reflexivity.
Qed.

Lemma contact_events_part cfg (c : Contact) (evs : list input_event) :
  contact_events cfg c = Some evs -> evs = contact_part cfg c.
Proof. intro He. unfold contact_part. rewrite He. reflexivity. Qed.

Lemma lift_events_pair (i : N) (evs : list input_event) :
  lift_events i = Some evs -> evs = lift_pair i.
Proof.
  unfold lift_events, lift_pair. destruct (usize_i32 i) as [v |] eqn:Hv; [| discriminate].
  apply usize_i32_value in Hv. subst v. intro He. injection He as <-. reflexivity.
Qed.

(** X12: A frame that is not blocked and that [update] gets through, on an
    enabled device: the events are, in this order, what each contact of the
    frame gives in the order of the frame (nothing for a contact without
    index or not stable, the seven events of [emit_multitouch] for a valid
    one, a lift of its slot for an invalid one), a lift for every index of
    the lift set in ascending order, one single-touch lift and one sync,
    which comes last.  The state is the one [search_lifted] leaves, with
    the pointer index reselected. *)
Theorem unblocked_frame_events (contacts : list Contact) (s : TouchDevice) :
  m_enabled s = true -> is_blocked s contacts = false ->
  StdSet.ascending (m_current s) ->
  res (update contacts s) = inr tt ->
  out (update contacts s) =
    flat_map (contact_part (m_config s)) contacts ++
    flat_map lift_pair (m_lift (st (update contacts s))) ++
    [st_lift; syn_report] /\
  st (update contacts s) =
    set_single_index (next_pointer (m_single_index s) contacts)
                     (after_search contacts s).
Proof.
  intros Hen Hb Hs. rewrite (update_unblocked_run _ _ Hen Hb Hs). cbv zeta.
  destruct (fst (run_blocks (contact_events (m_config s)) contacts)) eqn:H1;
    [| discriminate].
  destruct (fst (run_blocks lift_events (m_lift (after_search contacts s)))) eqn:H2;
    [| discriminate].
  intros _. cbn [res st out]. split; [| reflexivity].
  rewrite (run_blocks_through _ _ (contact_part (m_config s)) contacts
             (contact_events_part _) H1).
  rewrite (run_blocks_through _ _ lift_pair _ lift_events_pair H2).
  reflexivity.
Qed.

Lemma lift_block_multitouch (i : N) :
  Forall (fun e => multitouch_event e = true) (lift_block i).
Proof. repeat constructor. Qed.

Lemma lift_events_multitouch (i : N) (evs : list input_event) :
  lift_events i = Some evs -> Forall (fun e => multitouch_event e = true) evs.
Proof.
  unfold lift_events. destruct (usize_i32 _); [| discriminate].
  intro Hs. injection Hs as <-. repeat constructor.
Qed.

Lemma emit_events_multitouch cfg (c : Contact) (evs : list input_event) :
  emit_events cfg c = Some evs -> Forall (fun e => multitouch_event e = true) evs.
Proof.
  unfold emit_events. destruct (usize_i32 _); [| discriminate].
  repeat (destruct (narrow_i32 _); [| discriminate]).
  intro Hs. injection Hs as <-. repeat constructor.
Qed.

Lemma contact_events_multitouch cfg (c : Contact) (evs : list input_event) :
  contact_events cfg c = Some evs -> Forall (fun e => multitouch_event e = true) evs.
Proof.
  unfold contact_events. destruct (index c) as [i |].
  - destruct (negb (value_or (stable c) true)).
    { intro Hs. injection Hs as <-. constructor. }
    destruct (value_or (valid c) true);
      [apply emit_events_multitouch | apply lift_events_multitouch].
  - intro Hs. injection Hs as <-. constructor.
Qed.

Lemma blocks_multitouch_contacts cfg (l : list Contact) :
  Forall (fun e => multitouch_event e = true)
         (snd (run_blocks (contact_events cfg) l)).
Proof. apply run_blocks_Forall. intros a evs. apply contact_events_multitouch. Qed.

Lemma blocks_multitouch_lifts (l : list N) :
  Forall (fun e => multitouch_event e = true) (snd (run_blocks lift_events l)).
Proof. apply run_blocks_Forall. intros a evs. apply lift_events_multitouch. Qed.

Lemma blocks_multitouch_lift_all (l : list N) :
  Forall (fun e => multitouch_event e = true) (snd (run_blocks lift_all_events l)).
Proof.
  apply run_blocks_Forall. intros a evs Ha.
  rewrite (lift_all_events_block a evs Ha). apply lift_block_multitouch.
Qed.

(** The state an [update] on an enabled device ends in, however it ends:
    the one [search_lifted] leaves, up to the pointer index. *)
Lemma update_state (contacts : list Contact) (s : TouchDevice) :
  m_enabled s = true -> StdSet.ascending (m_current s) ->
  exists p, st (update contacts s) = set_single_index p (after_search contacts s).
Proof.
  intros Hen Hs. destruct (is_blocked s contacts) eqn:Hb.
  - rewrite (update_blocked_closed _ _ Hen Hb). cbv zeta.
    exists (m_single_index s).
    destruct (fst (run_blocks lift_all_events _));
      [destruct (fst (run_blocks lift_all_events _)) |]; reflexivity.
  - rewrite (update_unblocked_run _ _ Hen Hb Hs). cbv zeta.
    destruct (fst (run_blocks (contact_events _) _));
      [destruct (fst (run_blocks lift_events _)) |].
    + eexists. reflexivity.
    + exists (m_single_index s). reflexivity.
    + exists (m_single_index s). reflexivity.
Qed.

(** X13: An [update] that throws, on an enabled device, has written events
    of the multi-touch protocol only (slot, tracking id, position,
    orientation, major and minor axis): no sync, so they are left
    uncommitted, and no single-touch event, neither [BTN_TOUCH] nor [ABS_X]
    nor [ABS_Y].  The tracker has advanced all the same: the state is the
    one [search_lifted] leaves for this frame, so the frame counts as the
    last one for the next [update]; the pointer index is unchanged. *)
Theorem throwing_update_commits_nothing (contacts : list Contact) (s : TouchDevice)
        (e : exn) :
  m_enabled s = true -> StdSet.ascending (m_current s) ->
  res (update contacts s) = inl e ->
  Forall (fun ev => multitouch_event ev = true) (out (update contacts s)) /\
  ~ In syn_report (out (update contacts s)) /\
  ~ In st_lift (out (update contacts s)) /\
  st (update contacts s) = after_search contacts s.
Proof.
  intros Hen Hs.
  assert (Hgoal : res (update contacts s) = inl e ->
                  Forall (fun ev => multitouch_event ev = true)
                         (out (update contacts s)) /\
                  st (update contacts s) = after_search contacts s).
  { destruct (is_blocked s contacts) eqn:Hb.
    - rewrite (update_blocked_closed _ _ Hen Hb). cbv zeta.
      destruct (fst (run_blocks lift_all_events _));
        [destruct (fst (run_blocks lift_all_events _)) |]; cbn [res st out];
        [discriminate | |]; intros _; (split; [| reflexivity]);
        repeat (apply Forall_app; split); apply blocks_multitouch_lift_all.
    - rewrite (update_unblocked_run _ _ Hen Hb Hs). cbv zeta.
      destruct (fst (run_blocks (contact_events _) _));
        [destruct (fst (run_blocks lift_events _)) |]; cbn [res st out];
        [discriminate | |]; intros _; (split; [| reflexivity]);
        repeat (apply Forall_app; split);
        first [apply blocks_multitouch_contacts | apply blocks_multitouch_lifts]. }
  intro Hr. destruct (Hgoal Hr) as [Hmt Hst].
  split; [exact Hmt |].
  rewrite Forall_forall in Hmt.
  split; [| split; [| exact Hst]]; intro Hin; specialize (Hmt _ Hin); discriminate.
Qed.

Lemma tracked_empty (contacts : list Contact) :
  match tracked contacts with [] => false | _ => true end =
  existsb (fun c => has_value (index c)) contacts.
Proof.
  destruct (existsb _ contacts) eqn:He.
  - apply existsb_exists in He. destruct He as (c & Hin & Hv).
    destruct (index c) as [i |] eqn:Hi; [| discriminate].
    assert (Ht : In i (tracked contacts)) by (apply tracked_In; exists c; auto).
    destruct (tracked contacts); [destruct Ht | reflexivity].
  - destruct (tracked contacts) as [| i t] eqn:Ht; [reflexivity |].
    assert (Hc : carried contacts i) by (apply tracked_In; rewrite Ht; left; reflexivity).
    destruct Hc as (c & Hin & Hi).
    assert (Hex : existsb (fun c => has_value (index c)) contacts = true).
    { apply existsb_exists. exists c. rewrite Hi. auto. }
    congruence.
Qed.

(** X14: After an [update] on an enabled device, [active()] tells whether
    the frame had a contact with a tracking index, whatever else is true
    of the frame: the contact may be invalid or unstable, the frame may
    have been blocked by a palm and everything lifted, and the [update]
    may have thrown. *)
Theorem active_after_update (contacts : list Contact) (s : TouchDevice) :
  m_enabled s = true -> StdSet.ascending (m_current s) ->
  active (st (update contacts s)) =
  existsb (fun c => has_value (index c)) contacts.
Proof.
  intros Hen Hs. destruct (update_state contacts s Hen Hs) as [p ->].
  unfold active. cbn [set_single_index after_search m_current].
  apply tracked_empty.
Qed.

Lemma update_off (contacts : list Contact) (s : TouchDevice) :
  m_enabled s = false -> update contacts s = mkRes (inr tt) s [].
Proof. intro Hen. unfold update. rewrite bind_get, Hen. reflexivity. Qed.

Lemma run_frames_off (frames : list (list Contact)) (s : TouchDevice) :
  m_enabled s = false -> run_frames frames s = mkRes (inr tt) s [].
Proof.
  intro Hen. unfold run_frames.
  induction frames as [| f l IH]; cbn [for_each]; [reflexivity |].
  rewrite (bind_run _ _ _ _ _ _ _ _ (update_off f s Hen)), IH. reflexivity.
Qed.

(** X15: Switching the device off and on again starts the tracking afresh.
    When [disable] has returned, the frames passed before [enable] leave no
    trace, and after [enable] the device is as the constructor makes it
    for the same configuration, except for the pointer index, which is
    kept: nothing of the contacts that were down is remembered, so none of
    them is lifted by the next frame. *)
Theorem reenable_starts_afresh (frames : list (list Contact)) (s : TouchDevice) :
  res (disable s) = inr tt ->
  let off := st (disable s) in
  run_frames frames off = mkRes (inr tt) off [] /\
  st (enable (st (run_frames frames off))) =
    set_single_index (m_single_index s) (TouchDevice_new (m_config s)).
Proof.
  intro Hr. cbv zeta. rewrite (disable_run s Hr).
  rewrite run_frames_off by reflexivity. split; reflexivity.
Qed.

(** X16: Where the pointer index is after a frame that [update] gets
    through: a blocked frame leaves it; any other frame moves it to the
    first contact of the frame that is not flagged invalid and does not
    carry the present pointer index, to 0 when that contact has no index.
    So it stays when the frame has no such contact, and it changes
    whenever the frame has one and every contact of the frame has an index
    (a contact without index sets it to 0, which may be where it was). *)
Theorem pointer_reselected_every_frame (contacts : list Contact) (s : TouchDevice) :
  m_enabled s = true -> StdSet.ascending (m_current s) ->
  res (update contacts s) = inr tt ->
  let old := m_single_index s in
  let new := m_single_index (st (update contacts s)) in
  new = (if is_blocked s contacts then old else next_pointer old contacts) /\
  (is_blocked s contacts = false ->
   (forall c, In c contacts -> candidate old c = false) -> new = old) /\
  (is_blocked s contacts = false ->
   (forall c, In c contacts -> has_value (index c) = true) ->
   (exists c, In c contacts /\ candidate old c = true) -> new <> old).
Proof.
  intros Hen Hs Hr. cbv zeta.
  assert (Hnew : m_single_index (st (update contacts s)) =
                 if is_blocked s contacts then m_single_index s
                 else next_pointer (m_single_index s) contacts).
  { revert Hr. destruct (is_blocked s contacts) eqn:Hb.
    - rewrite (update_blocked_closed _ _ Hen Hb). cbv zeta.
      destruct (fst (run_blocks lift_all_events _));
        [destruct (fst (run_blocks lift_all_events _)) |]; reflexivity.
    - rewrite (update_unblocked_run _ _ Hen Hb Hs). cbv zeta.
      destruct (fst (run_blocks (contact_events _) _));
        [destruct (fst (run_blocks lift_events _)) |]; cbn [res]; try discriminate.
      reflexivity. }
  split; [exact Hnew |]. rewrite Hnew. split.
  - intros -> Hnone. unfold next_pointer.
    destruct (List.find _ contacts) as [c |] eqn:Hf; [| reflexivity].
    apply find_some in Hf. destruct Hf as [Hin Hc].
    rewrite (Hnone c Hin) in Hc. discriminate.
  - intros -> Hidx (c & Hin & Hc). unfold next_pointer.
    destruct (List.find _ contacts) as [c0 |] eqn:Hf.
    + apply find_some in Hf. destruct Hf as [Hin0 Hc0].
      specialize (Hidx c0 Hin0). unfold candidate in Hc0.
      destruct (index c0) as [j |]; [| discriminate].
      cbn [value_or opt_eq] in *. apply andb_prop in Hc0. destruct Hc0 as [Hne _].
      apply negb_true_iff, N.eqb_neq in Hne. exact Hne.
    + rewrite (find_none _ _ Hf c Hin) in Hc. discriminate.
Qed.

(** *** A contact that vanishes, in the events *)

Lemma filter_none {A} (f : A -> bool) (l : list A) :
  (forall a, In a l -> f a = false) -> filter f l = [].
Proof.
  induction l as [| a l IH]; intro Hall; cbn [filter]; [reflexivity |].
  rewrite (Hall a (or_introl eq_refl)). apply IH. intros b Hb. apply Hall. right. exact Hb.
Qed.

Lemma reports_of_parts cfg (l : list Contact) : forall slot p,
  In p (mt_reports slot (flat_map (contact_part cfg) l)) ->
  exists c j, In c l /\ index c = Some j /\ fst p = Z.of_N j.
Proof.
  induction l as [| c l IH]; intros slot p Hin; cbn [flat_map] in Hin.
  - destruct Hin.
  - apply mt_reports_In_app in Hin. destruct Hin as [Hin | [slot' Hin]].
    + unfold contact_part in Hin.
      destruct (contact_events cfg c) as [evs |] eqn:He; [| destruct Hin].
      pose proof (contact_events_reports cfg c evs slot p [] He Hin [c]
                    (or_introl eq_refl)) as Hfrom.
      destruct Hfrom as [(c' & j & [<- | []] & Hj & _ & ->)
                        | [(c' & j & [<- | []] & Hj & _ & ->) | (j & [] & _)]];
        exists c, j; (split; [left; reflexivity |]); auto.
    + destruct (IH slot' p Hin) as (c' & j & Hc & Hj & Hp).
      exists c', j. split; [right; exact Hc |]. auto.
Qed.

Lemma reports_of_lifts (l : list N) : forall slot,
  mt_reports slot (flat_map lift_pair l) = map (fun j => (Z.of_N j, -1)) l.
Proof.
  induction l as [| j l IH]; intro slot; [reflexivity |].
  cbn [flat_map lift_pair app mt_reports map]. f_equal. apply IH.
Qed.

Lemma reports_on_lifts (i : N) (l : list N) :
  NoDup l -> In i l ->
  reports_on i (map (fun j => (Z.of_N j, -1)) l) = [(Z.of_N i, -1)].
Proof.
  unfold reports_on.
  induction l as [| j l IH]; intros Hnd Hin; [destruct Hin |].
  inversion Hnd as [| ? ? Hnot Hnd']; subst. cbn [map filter fst].
  destruct Hin as [-> | Hin].
  - rewrite Z.eqb_refl. f_equal. apply filter_none.
    intros p Hp. apply in_map_iff in Hp. destruct Hp as (k & <- & Hk). cbn [fst].
    apply Z.eqb_neq. intro E. apply N2Z.inj in E. subst k. contradiction.
  - destruct (Z.of_N j =? Z.of_N i) eqn:E.
    + apply Z.eqb_eq, N2Z.inj in E. subst j. contradiction.
    + apply IH; assumption.
Qed.

(** X17: A contact that vanishes is lifted once, in the events themselves.
    Let the index [i] be tracked and carried by no contact of the next frame
    nor of the one after, both frames unblocked.  Then all that the first of
    them reports on slot [i] is one lift, whichever slot was selected
    before; and the second reports nothing on slot [i]. *)
Theorem vanished_contact_lifted_once (f1 f2 : list Contact) (s : TouchDevice) (i : N) :
  m_enabled s = true -> StdSet.ascending (m_current s) ->
  is_blocked s f1 = false -> is_blocked s f2 = false ->
  res (update f1 s) = inr tt ->
  In i (m_current s) -> ~ carried f1 i -> ~ carried f2 i ->
  (forall slot,
     reports_on i (mt_reports slot (out (update f1 s))) = [(Z.of_N i, -1)]) /\
  (forall slot,
     reports_on i (mt_reports slot (out (update f2 (st (update f1 s))))) = []).
Proof.
  intros Hen Hs Hb1 Hb2 Hr Hin Hn1 Hn2.
  pose proof (update_unblocked_run f1 s Hen Hb1 Hs) as Hrun. cbv zeta in Hrun.
  rewrite Hrun in Hr |- *.
  destruct (fst (run_blocks (contact_events (m_config s)) f1)) eqn:H1;
    [| discriminate].
  destruct (fst (run_blocks lift_events (m_lift (after_search f1 s)))) eqn:H2;
    [| discriminate].
  cbn [res st out].
  rewrite (run_blocks_through _ _ (contact_part (m_config s)) f1
             (contact_events_part _) H1).
  rewrite (run_blocks_through _ _ lift_pair _ lift_events_pair H2).
  split; intro slot.
  - rewrite !mt_reports_app, reports_of_lifts. unfold reports_on at 1.
    rewrite !filter_app. cbn [mt_reports filter app].
    rewrite filter_none, app_nil_r.
    + apply reports_on_lifts.
      * apply ascending_NoDup, lifted_ascending.
      * apply (lifted_In f1 s i Hs). auto.
    + intros p Hp. apply reports_of_parts in Hp.
      destruct Hp as (c & j & Hc & Hj & ->).
      apply Z.eqb_neq. intro E. apply N2Z.inj in E. subst j.
      apply Hn1. exists c. auto.
  - set (s' := set_single_index _ (after_search f1 s)).
    assert (Hen' : m_enabled s' = true) by exact Hen.
    assert (Hb' : is_blocked s' f2 = false) by exact Hb2.
    assert (Hs' : StdSet.ascending (m_current s')) by apply tracked_ascending.
    apply filter_none. intros p Hp.
    apply (update_active_reports f2 s' Hen' Hb') in Hp.
    apply Z.eqb_neq. intro E.
    destruct Hp as [(c & j & Hc & Hj & _ & ->)
                   | [(c & j & Hc & Hj & _ & ->) | (j & Hl & ->)]];
      cbn [fst] in E; apply N2Z.inj in E; subst j.
    + apply Hn2. exists c. auto.
    + apply Hn2. exists c. auto.
    + apply (lifted_In f2 s' i Hs') in Hl. destruct Hl as [Hcur _].
      apply Hn1. apply tracked_In. exact Hcur.
Qed.

(** *** Sessions *)

Lemma disable_throws_state (s : TouchDevice) (e : exn) :
  res (disable s) = inl e -> st (disable s) = set_enabled false s.
Proof.
  unfold disable. rewrite bind_modify.
  set (s0 := set_enabled false s).
  pose proof (lift_all_state s0) as Hst.
  destruct (res (lift_all s0)) as [x | []] eqn:Hr.
  - rewrite (bind_inl _ _ _ _ _ _ Hr). cbn [st]. intros _. exact Hst.
  - rewrite (bind_inr _ _ _ _ _ _ Hr). cbn [res]. unfold sync, emit.
    rewrite bind_tell. cbn [res]. rewrite !bind_modify. cbn [modify res]. discriminate.
Qed.

Lemma perform_keeps cfg (c : call) (s : TouchDevice) :
  between_calls cfg s -> between_calls cfg (st (perform c s)).
Proof.
  intro Hinv. pose proof Hinv as ((Hc & Hl & Hf) & Hd & Hcfg). destruct c as [contacts | |]; cbn [perform].
  - destruct (m_enabled s) eqn:Hen.
    + destruct (update_state contacts s Hen Hc) as [p ->].
      split; [| split].
      * split; [apply tracked_ascending |]. split; [exact Hc | apply lifted_ascending].
      * intros i Hi.
        change (In i (m_lift (after_search contacts s))) in Hi.
        apply (lifted_In contacts s i Hc) in Hi. destruct Hi as [Hin Hn].
        split; [exact Hin |]. intro Ht. apply Hn. apply tracked_In. exact Ht.
      * exact Hcfg.
    + rewrite (update_off _ _ Hen). exact Hinv.
  - destruct (res (disable s)) as [e | []] eqn:Hr.
    + rewrite (disable_throws_state s e Hr). exact Hinv.
    + rewrite (disable_run s Hr). split; [| split].
      * repeat split; constructor.
      * intros i [].
      * exact Hcfg.
  - exact Hinv.
Qed.

Lemma session_keeps cfg (calls : list call) : forall s : TouchDevice,
  between_calls cfg s -> between_calls cfg (st (session calls s)).
Proof.
  unfold session.
  induction calls as [| c l IH]; intros s Hs; cbn [for_each]; [exact Hs |].
  unfold bind. pose proof (perform_keeps cfg c s Hs) as Hc.
  destruct (res (perform c s)); cbn [st]; [exact Hc | apply IH; exact Hc].
Qed.

(** X18: Whatever calls of [update], [disable] and [enable] a device has
    gone through since its construction, and whether or not the last one
    threw: its three sets are proper sets, every index of the lift set is
    in the set of the last frame and not in the set of the current one, and
    the configuration is the one it was constructed with. *)
Theorem session_keeps_the_sets (cfg : Config) (calls : list call) :
  let s := st (session calls (TouchDevice_new cfg)) in
  sets_ascending s /\
  (forall i, In i (m_lift s) -> In i (m_last s) /\ ~ In i (m_current s)) /\
  m_config s = cfg.
Proof.
  apply (session_keeps cfg calls). split; [apply sets_ascending_new |].
  split; [intros i [] | reflexivity].
Qed.

(** *** Slots *)

Lemma selects_nil : selects_its_slots [].
Proof. exists []. split; [constructor | reflexivity]. Qed.

Lemma selects_app (a b : list input_event) :
  selects_its_slots a -> selects_its_slots b -> selects_its_slots (a ++ b).
Proof.
  intros (ra & Fa & Ha) (rb & Fb & Hb). exists (ra ++ rb).
  split; [apply Forall_app; auto |].
  intro slot. rewrite mt_reports_app, Ha, Hb. reflexivity.
Qed.

Lemma selects_blocks {A} (blk : A -> option (list input_event)) (l : list A) :
  (forall a evs, blk a = Some evs -> selects_its_slots evs) ->
  selects_its_slots (snd (run_blocks blk l)).
Proof.
  intro Hblk. induction l as [| a l IH]; cbn [run_blocks snd]; [apply selects_nil |].
  destruct (blk a) as [evs |] eqn:Ha; cbn [snd]; [| apply selects_nil].
  apply selects_app; [exact (Hblk a evs Ha) | exact IH].
Qed.

Lemma usize_i32_range (n : N) (v : Z) : usize_i32 n = Some v -> 0 <= v <= INT32_MAX.
Proof.
  unfold usize_i32. destruct (Z.of_N n <=? INT32_MAX) eqn:Hle; [| discriminate].
  intro Hv. injection Hv as <-. apply Z.leb_le in Hle. lia.
Qed.

Lemma selects_lift_events (i : N) (evs : list input_event) :
  lift_events i = Some evs -> selects_its_slots evs.
Proof.
  unfold lift_events. destruct (usize_i32 i) as [v |] eqn:Hv; [| discriminate].
  intro He. injection He as <-. exists [(v, -1)]. split; [| reflexivity].
  constructor; [| constructor]. split; [exact (usize_i32_range _ _ Hv) | right; reflexivity].
Qed.

Lemma selects_lift_all_events (i : N) (evs : list input_event) :
  lift_all_events i = Some evs -> selects_its_slots evs.
Proof.
  unfold lift_all_events. destruct (usize_i32 i) as [v |] eqn:Hv; [| discriminate].
  intro He. injection He as <-. exists [(v, -1)]. split; [| reflexivity].
  constructor; [| constructor]. split; [exact (usize_i32_range _ _ Hv) | right; reflexivity].
Qed.

Lemma selects_contact_events cfg (c : Contact) (evs : list input_event) :
  contact_events cfg c = Some evs -> selects_its_slots evs.
Proof.
  unfold contact_events. destruct (index c) as [i |].
  - destruct (negb (value_or (stable c) true)).
    { intro He. injection He as <-. apply selects_nil. }
    destruct (value_or (valid c) true); [| apply selects_lift_events].
    unfold emit_events. destruct (usize_i32 _) as [v |] eqn:Hv; [| discriminate].
    repeat (destruct (narrow_i32 _); [| discriminate]).
    intro He. injection He as <-. exists [(v, v)]. split; [| reflexivity].
    constructor; [| constructor]. split; [exact (usize_i32_range _ _ Hv) | left; reflexivity].
  - intro He. injection He as <-. apply selects_nil.
Qed.

Lemma selects_tail : selects_its_slots [st_lift; syn_report].
Proof. exists []. split; [constructor | reflexivity]. Qed.

Lemma selects_lift_all (s : TouchDevice) : selects_its_slots (out (lift_all s)).
Proof.
  rewrite lift_all_run. cbv zeta.
  pose proof (fun l => selects_blocks lift_all_events l selects_lift_all_events) as Hb.
  destruct (fst (run_blocks lift_all_events (m_current s)));
    [destruct (fst (run_blocks lift_all_events (m_last s))) |]; cbn [out];
    repeat (apply selects_app); auto.
  exists []. split; [constructor | reflexivity].
Qed.

(** X19: No call relies on the slot an earlier call has selected: in the
    events of any one call of [update], [disable] or [enable] every
    tracking id is written to a slot selected in the same call, so what the
    call reports is the same whichever slot was selected before it.  Each
    report is on a slot between 0 and [INT32_MAX] and is either a lift or
    the slot's own number as tracking id. *)
Theorem calls_select_their_slots (c : call) (s : TouchDevice) :
  StdSet.ascending (m_current s) ->
  exists reports,
    Forall own_report reports /\
    forall slot, mt_reports slot (out (perform c s)) = reports.
Proof.
  intro Hs. change (selects_its_slots (out (perform c s))).
  pose proof (fun l => selects_blocks lift_all_events l selects_lift_all_events) as Hb.
  pose proof (fun l => selects_blocks lift_events l selects_lift_events) as Hl.
  pose proof (fun cfg l => selects_blocks (contact_events cfg) l
                             (selects_contact_events cfg)) as Hc.
  destruct c as [contacts | |]; cbn [perform].
  - destruct (m_enabled s) eqn:Hen; [| rewrite (update_off _ _ Hen); apply selects_nil].
    destruct (is_blocked s contacts) eqn:Hbl.
    + rewrite (update_blocked_closed _ _ Hen Hbl). cbv zeta.
      destruct (fst (run_blocks lift_all_events _));
        [destruct (fst (run_blocks lift_all_events _)) |]; cbn [out];
        repeat (apply selects_app); auto using selects_tail.
    + rewrite (update_unblocked_run _ _ Hen Hbl Hs). cbv zeta.
      destruct (fst (run_blocks (contact_events _) _));
        [destruct (fst (run_blocks lift_events _)) |]; cbn [out];
        repeat (apply selects_app); auto using selects_tail.
  - unfold disable. rewrite bind_modify.
    pose proof (selects_lift_all (set_enabled false s)) as Hall.
    destruct (res (lift_all (set_enabled false s))) as [e | []] eqn:Hr.
    + rewrite (bind_inl _ _ _ _ _ _ Hr). exact Hall.
    + rewrite (bind_inr _ _ _ _ _ _ Hr). cbn [out].
      apply selects_app; [exact Hall |].
      exists []. split; [constructor | reflexivity].
  - apply selects_nil.
Qed.

(** *** Indices beyond [i32] *)

Lemma run_blocks_stops {E A} (blk : A -> option (list E)) (l : list A) (a : A) :
  In a l -> blk a = None -> fst (run_blocks blk l) = false.
Proof.
  intros Hin Ha. induction l as [| b l IH]; [destruct Hin |].
  cbn [run_blocks]. destruct (blk b) as [evs |] eqn:Hb; [| reflexivity].
  cbn [fst]. destruct Hin as [-> | Hin]; [congruence | exact (IH Hin)].
Qed.

Lemma usize_i32_beyond (i : N) : INT32_MAX < Z.of_N i -> usize_i32 i = None.
Proof.
  intro Hlt. unfold usize_i32.
  destruct (Z.of_N i <=? INT32_MAX) eqn:Hle; [| reflexivity].
  apply Z.leb_le in Hle. lia.
Qed.

(** X20: A tracking index above [INT32_MAX] cannot be written as a slot:
    a frame with a contact that carries one makes [update] throw the
    narrowing error, when the frame is blocked (every tracked index is
    lifted) and when the contact is stable (it is reported or lifted). *)
Theorem oversized_index_throws (contacts : list Contact) (s : TouchDevice)
        (c : Contact) (i : N) :
  m_enabled s = true -> StdSet.ascending (m_current s) ->
  In c contacts -> index c = Some i -> INT32_MAX < Z.of_N i ->
  is_blocked s contacts = true \/ value_or (stable c) true = true ->
  res (update contacts s) = inl narrowing_error.
Proof.
  intros Hen Hs Hin Hi Hbig Hcase.
  pose proof (usize_i32_beyond i Hbig) as Hnone.
  destruct (is_blocked s contacts) eqn:Hb.
  - rewrite (update_blocked_closed _ _ Hen Hb). cbv zeta.
    assert (Ht : In i (m_current (after_search contacts s))).
    { apply tracked_In. exists c. auto. }
    rewrite (run_blocks_stops lift_all_events _ i Ht);
      [reflexivity | unfold lift_all_events; rewrite Hnone; reflexivity].
  - destruct Hcase as [Hf | Hst]; [discriminate |].
    rewrite (update_unblocked_run _ _ Hen Hb Hs). cbv zeta.
    rewrite (run_blocks_stops (contact_events (m_config s)) _ c Hin); [reflexivity |].
    unfold contact_events. rewrite Hi, Hst. cbn [negb].
    destruct (value_or (valid c) true).
    + unfold emit_events. rewrite Hi. cbn [value_or]. rewrite Hnone. reflexivity.
    + unfold lift_events. rewrite Hnone. reflexivity.
Qed.
End TouchMoreProps.

(** ** The properties above on concrete runs *)

Section MoreWitnesses.
Import Control ControlMore Lifecycle Samples MoreSamples.

Lemma at_wrap_well_formed : well_formed (H := three_buffers) (self at_wrap).
Proof. split; [cbn; lia | reflexivity]. Qed.

(** The device of [regressed] answers "not ready" twice: two idle rounds,
    then the poll that ends the wait. *)
Lemma wait_for_device_is_bounded_witness :
  let run := wait_for_device (KM := steady_kernel) (H := four_buffers) regressed in
  well_formed (H := four_buffers) (self regressed) /\
  res run = inr tt /\
  exists rounds final,
    out run = flat_map (idle_round 13) rounds ++ final /\
    (List.length rounds <= 5)%nat /\
    (List.length final <= 1)%nat.
Proof.
  cbv zeta. split; [exact regressed_well_formed |].
  destruct (wait_for_device_is_bounded (KM := steady_kernel) (H := four_buffers)
              regressed regressed_well_formed)
    as (fd & rounds & final & Hb & Hres & _ & Hout & _ & Hend).
  cbn in Hb. injection Hb as <-.
  split; [exact Hres |]. exists rounds, final. split; [exact Hout |].
  destruct Hend as [[-> ->] | [Hl (rv & av & -> & _)]]; cbn; lia.
Defined.

Lemma one_call_on_selected_buffer_witness :
  well_formed (H := three_buffers) (self at_wrap) /\
  (exists ret,
     not_waiting (out (read (KM := ready_kernel) (H := three_buffers) 64 at_wrap))
     = [sys_read 10 64 ret] /\
     res (read (KM := ready_kernel) (H := three_buffers) 64 at_wrap)
     = (if ret =? -1 then inl (cerror "Failed to read from buffer") else inr ret)) /\
  (let d := mkDevice at_wrap 0 in
   res (get_device_info (KM := ready_kernel) (H := three_buffers) d) = inr tt /\
   self (machine (st (get_device_info (KM := ready_kernel) (H := three_buffers) d)))
   = self at_wrap /\
   info (st (get_device_info (KM := ready_kernel) (H := three_buffers) d)) = 7).
Proof.
  split; [exact at_wrap_well_formed |].
  destruct (one_call_on_selected_buffer (KM := ready_kernel) (H := three_buffers)
              at_wrap 64 0 at_wrap_well_formed)
    as (fd & Hb & (ret & Hout & Hres & _) & _ & Hinfo).
  cbn in Hb. injection Hb as <-. cbv zeta in Hinfo.
  destruct Hinfo as (r & arg & _ & _ & Hself & _).
  split; [exists ret; split; [exact Hout | exact Hres] |].
  cbv zeta. split; [reflexivity |]. split; [exact Hself | reflexivity].
Defined.

(** Three buffers and the counter at [2^32 - 1]: buffer 0 is selected, and
    after the acknowledgement buffer 0 again, not buffer 1. *)
Lemma feedback_selects_next_buffer_witness :
  let run := send_feedback (KM := ready_kernel) (H := three_buffers) at_wrap in
  res run = inr tt /\
  0 <= current_doorbell (self at_wrap) < 2 ^ 32 /\
  slot_of (H := three_buffers) (current_doorbell (self at_wrap)) = 0 /\
  slot_of (H := three_buffers) (current_doorbell (self (st run))) = 0 /\
  ~ (3 | 2 ^ 32).
Proof.
  cbv zeta.
  assert (Hres : res (send_feedback (KM := ready_kernel) (H := three_buffers) at_wrap)
                 = inr tt) by reflexivity.
  assert (Hrange : 0 <= current_doorbell (self at_wrap) < 2 ^ 32) by (cbn; lia).
  destruct (feedback_selects_next_buffer (KM := ready_kernel) (H := three_buffers)
              at_wrap tt Hres Hrange) as [_ Hwrap].
  cbv zeta in Hwrap.
  split; [exact Hres |]. split; [exact Hrange |].
  split; [reflexivity |]. split; [reflexivity |].
  intro Hdiv. apply (Hwrap eq_refl) in Hdiv. vm_compute in Hdiv. discriminate.
Defined.

Lemma doorbell_again_does_not_flush_witness :
  let first := doorbell (KM := steady_kernel) (H := four_buffers) regressed in
  let second := doorbell (KM := steady_kernel) (H := four_buffers) (st first) in
  res first = inr 3 /\ res second = inr 3 /\
  feedbacks (out first) = [10; 11; 12; 13] /\
  feedbacks (out second) = [] /\
  current_doorbell (self (st second)) = current_doorbell (self (st first)).
Proof.
  cbv zeta.
  assert (H1 : res (doorbell (KM := steady_kernel) (H := four_buffers) regressed) = inr 3)
    by reflexivity.
  assert (H2 : res (doorbell (KM := steady_kernel) (H := four_buffers)
                      (st (doorbell (KM := steady_kernel) (H := four_buffers) regressed)))
               = inr 3) by reflexivity.
  destruct (doorbell_again_does_not_flush (KM := steady_kernel) (H := four_buffers)
              regressed 3 3 H1 H2 ltac:(lia)) as [Hf Hc].
  split; [exact H1 |]. split; [exact H2 |]. split; [reflexivity |].
  split; [exact Hf | exact Hc].
Defined.

(** The resync of [regressed] against a kernel that takes two
    acknowledgements and refuses the third: the counter stays at 7. *)
Lemma throwing_calls_leave_the_fields_witness :
  let d := doorbell (KM := deaf_kernel) (H := four_buffers) regressed in
  let f := send_feedback (KM := deaf_kernel) (H := three_buffers) at_wrap in
  res d = inl (cerror "Failed to send feedback") /\
  res f = inl (cerror "Failed to send feedback") /\
  self (st d) = self regressed /\
  self (st f) = self at_wrap.
Proof.
  cbv zeta.
  assert (Hd : res (doorbell (KM := deaf_kernel) (H := four_buffers) regressed)
               = inl (cerror "Failed to send feedback")) by reflexivity.
  assert (Hf : res (send_feedback (KM := deaf_kernel) (H := three_buffers) at_wrap)
               = inl (cerror "Failed to send feedback")) by reflexivity.
  split; [exact Hd |]. split; [exact Hf |]. split.
  - exact (proj1 (throwing_calls_leave_the_fields (KM := deaf_kernel)
                    (H := four_buffers) regressed _) Hd).
  - exact (proj2 (throwing_calls_leave_the_fields (KM := deaf_kernel)
                    (H := three_buffers) at_wrap _) Hf).
Defined.

Lemma failed_flush_stops_short_witness :
  let run := flush (KM := deaf_kernel) (H := four_buffers) regressed in
  res run = inl (cerror "Failed to send feedback") /\
  self (st run) = self regressed /\
  exists k, (k < 4)%nat /\ feedbacks (out run) = firstn k [10; 11; 12; 13].
Proof.
  cbv zeta.
  assert (Hr : res (flush (KM := deaf_kernel) (H := four_buffers) regressed)
               = inl (cerror "Failed to send feedback")) by reflexivity.
  split; [exact Hr |].
  exact (failed_flush_stops_short (KM := deaf_kernel) (H := four_buffers) regressed _ Hr).
Defined.

(** From the counter 7 on a ring of four: buffers 3, 0, 1, 2. *)
Lemma once_around_the_ring_witness :
  let run := times 4 (send_feedback (KM := steady_kernel) (H := four_buffers)) regressed in
  never_fails (KM := steady_kernel) /\
  well_formed (H := four_buffers) (self regressed) /\
  res run = inr tt /\
  feedbacks (out run) = [13; 10; 11; 12] /\
  current_doorbell (self (st run)) = 11.
Proof.
  cbv zeta.
  destruct (once_around_the_ring (KM := steady_kernel) (H := four_buffers) regressed
              steady_kernel_never_fails regressed_well_formed ltac:(cbn; lia))
    as (Hres & Hfb & _ & _ & Hcur).
  split; [exact steady_kernel_never_fails |]. split; [exact regressed_well_formed |].
  split; [exact Hres |]. split; [exact Hfb | exact Hcur].
Defined.

(** Three nodes, none broken, the hardware doorbell at 9. *)
Lemma constructor_opens_flushes_and_syncs_witness :
  let r := IptsControl_new (KM := ready_kernel) (FM := nodes "") (H := three_buffers)
             (0%nat, 9) in
  res r = inr tt /\
  map fst (opens (out r)) = ["/dev/ipts/0"; "/dev/ipts/1"; "/dev/ipts/2"]%string /\
  files (self (machine (st r))) = [10; 11; 12] /\
  feedbacks (syscalls (out r)) = files (self (machine (st r))) /\
  doorbell_reads (syscalls (out r)) = [current_doorbell (self (machine (st r)))] /\
  closes (out r) = [] /\
  info (st r) = 7.
Proof.
  cbv zeta.
  assert (Hr : res (IptsControl_new (KM := ready_kernel) (FM := nodes "")
                      (H := three_buffers) (0%nat, 9)) = inr tt) by reflexivity.
  destruct (constructor_opens_flushes_and_syncs (KM := ready_kernel) (FM := nodes "")
              (H := three_buffers) (0%nat, 9) Hr)
    as (Hnames & _ & _ & Hcl & _ & Hfb & Hdr & _ & _).
  split; [exact Hr |]. split; [exact Hnames |]. split; [reflexivity |].
  split; [exact Hfb |]. split; [exact Hdr |]. split; [exact Hcl | reflexivity].
Defined.

(** The second of three nodes cannot be opened. *)
Lemma failed_open_stops_construction_witness :
  let r := IptsControl_new (KM := ready_kernel) (FM := nodes "/dev/ipts/1")
             (H := three_buffers) (0%nat, 9) in
  In ("/dev/ipts/1"%string, -1) (opens (out r)) /\
  res r = inl (cerror "Failed to open /dev/ipts/1") /\
  syscalls (out r) = [] /\ closes (out r) = [].
Proof.
  cbv zeta.
  assert (Hin : In ("/dev/ipts/1"%string, -1)
                   (opens (out (IptsControl_new (KM := ready_kernel)
                                  (FM := nodes "/dev/ipts/1") (H := three_buffers)
                                  (0%nat, 9))))) by (right; left; reflexivity).
  destruct (failed_open_stops_construction (KM := ready_kernel)
              (FM := nodes "/dev/ipts/1") (H := three_buffers) (0%nat, 9) _ Hin)
    as (i & good & _ & _ & Hres & _ & _ & Hout).
  split; [exact Hin |]. split; [exact Hres |].
  rewrite Hout. clear.
  induction (combine (map node_name (seq 0 i)) good) as [| p l IH]; [split; reflexivity |].
  exact IH.
Defined.

Lemma destructor_closes_every_descriptor_witness :
  let run := destroy (FM := nodes "") (H := three_buffers) at_wrap in
  List.length (files (self at_wrap)) = 3%nat /\
  res run = inr tt /\
  closes (out run) = [10; 11; 12] /\
  List.length (out run) = 3%nat.
Proof.
  cbv zeta.
  destruct (destructor_closes_every_descriptor (FM := nodes "") (H := three_buffers)
              at_wrap eq_refl) as (Hres & Hcl & Hlen & _).
  split; [reflexivity |]. split; [exact Hres |]. split; [exact Hcl | exact Hlen].
Defined.

Lemma destructor_closes_what_was_opened_witness :
  let r := IptsControl_new (KM := ready_kernel) (FM := nodes "") (H := three_buffers)
             (0%nat, 9) in
  res r = inr tt /\
  closes (out (destroy (FM := nodes "") (H := three_buffers) (machine (st r))))
  = map snd (opens (out r)).
Proof.
  cbv zeta.
  assert (Hr : res (IptsControl_new (KM := ready_kernel) (FM := nodes "")
                      (H := three_buffers) (0%nat, 9)) = inr tt) by reflexivity.
  split; [exact Hr |].
  exact (proj2 (destructor_closes_what_was_opened (KM := ready_kernel) (FM := nodes "")
                  (H := three_buffers) (0%nat, 9) Hr)).
Defined.

End MoreWitnesses.

Section TouchMoreWitnesses.
Import Touch TouchMore Samples.

(** Indices 1 and 3 are tracked; the frame has 3 again, a palm on 4 and a
    contact without index: 1 is lifted. *)
Lemma unblocked_frame_events_witness :
  let s := tracking_1_3 plain in
  let frame := [finger 3; palm 4; untracked] in
  m_enabled s = true /\ is_blocked s frame = false /\
  StdSet.ascending (m_current s) /\
  res (update (P := limits) frame s) = inr tt /\
  out (update (P := limits) frame s) =
    contact_part (P := limits) plain (finger 3) ++ lift_pair 4 ++ lift_pair 1 ++
    [st_lift; syn_report].
Proof.
  cbv zeta.
  assert (Hr : res (update (P := limits) [finger 3; palm 4; untracked]
                      (tracking_1_3 plain)) = inr tt) by reflexivity.
  destruct (unblocked_frame_events (P := limits) [finger 3; palm 4; untracked]
              (tracking_1_3 plain) eq_refl eq_refl ascending_1_3 Hr) as [Hout _].
  split; [reflexivity |]. split; [reflexivity |]. split; [exact ascending_1_3 |].
  split; [exact Hr |]. rewrite Hout. reflexivity.
Defined.

(** A contact whose index is [2^32]. *)
Lemma throwing_update_commits_nothing_witness :
  let s := tracking_1_3 plain in
  let frame := [finger 3; finger 4294967296] in
  m_enabled s = true /\ StdSet.ascending (m_current s) /\
  res (update (P := limits) frame s) = inl narrowing_error /\
  Forall (fun ev => multitouch_event ev = true) (out (update (P := limits) frame s)) /\
  ~ In syn_report (out (update (P := limits) frame s)) /\
  m_current (st (update (P := limits) frame s)) = [3%N; 4294967296%N] /\
  m_last (st (update (P := limits) frame s)) = [1%N; 3%N].
Proof.
  cbv zeta.
  assert (Hr : res (update (P := limits) [finger 3; finger 4294967296]
                      (tracking_1_3 plain)) = inl narrowing_error) by reflexivity.
  destruct (throwing_update_commits_nothing (P := limits)
              [finger 3; finger 4294967296] (tracking_1_3 plain) narrowing_error
              eq_refl ascending_1_3 Hr) as (Hmt & Hsyn & _ & Hst).
  split; [reflexivity |]. split; [exact ascending_1_3 |]. split; [exact Hr |].
  split; [exact Hmt |].
  split; [exact Hsyn |]. rewrite Hst. split; reflexivity.
Defined.

(** A palm blocks the frame and everything is lifted; the device is active
    all the same. *)
Lemma active_after_update_witness :
  let s := tracking_1_3 minding_palms in
  m_enabled s = true /\ StdSet.ascending (m_current s) /\
  is_blocked s [palm 4] = true /\
  active (st (update (P := limits) [palm 4] s)) = true /\
  active (st (update (P := limits) [untracked] s)) = false.
Proof.
  cbv zeta. split; [reflexivity |]. split; [exact ascending_1_3 |].
  split; [reflexivity |]. split.
  - exact (active_after_update (P := limits) [palm 4] (tracking_1_3 minding_palms)
             eq_refl ascending_1_3).
  - exact (active_after_update (P := limits) [untracked] (tracking_1_3 minding_palms)
             eq_refl ascending_1_3).
Defined.

Lemma reenable_starts_afresh_witness :
  let s := tracking_1_3 plain in
  let frames := [[finger 3]; [finger 5; palm 1]] in
  res (disable s) = inr tt /\
  out (run_frames (P := limits) frames (st (disable s))) = [] /\
  st (enable (st (run_frames (P := limits) frames (st (disable s))))) =
    mkTouchDevice plain [] [] [] 1%N true.
Proof.
  cbv zeta.
  assert (Hr : res (disable (tracking_1_3 plain)) = inr tt) by reflexivity.
  destruct (reenable_starts_afresh (P := limits) [[finger 3]; [finger 5; palm 1]]
              (tracking_1_3 plain) Hr) as [Hrun Hst].
  cbv zeta in Hrun, Hst.
  split; [exact Hr |]. split; [rewrite Hrun; reflexivity | exact Hst].
Defined.

(** Two fingers that stay down: the pointer goes from one to the other.
    A contact without index, on a new device: the pointer stays at 0. *)
Lemma pointer_reselected_every_frame_witness :
  let s := tracking_1_3 plain in
  let frame := [finger 1; finger 3] in
  m_enabled s = true /\ StdSet.ascending (m_current s) /\
  res (update (P := limits) frame s) = inr tt /\
  m_single_index s = 1%N /\
  m_single_index (st (update (P := limits) frame s)) = 3%N /\
  m_single_index (st (update (P := limits) frame s)) <> m_single_index s /\
  candidate 0 untracked = true /\
  m_single_index (st (update (P := limits) [untracked] (TouchDevice_new plain))) = 0%N.
Proof.
  cbv zeta.
  assert (Hr : res (update (P := limits) [finger 1; finger 3] (tracking_1_3 plain))
               = inr tt) by reflexivity.
  assert (Hr0 : res (update (P := limits) [untracked] (TouchDevice_new plain))
                = inr tt) by reflexivity.
  destruct (pointer_reselected_every_frame (P := limits) [finger 1; finger 3]
              (tracking_1_3 plain) eq_refl ascending_1_3 Hr) as (Hnew & _ & Hmoves).
  destruct (pointer_reselected_every_frame (P := limits) [untracked]
              (TouchDevice_new plain) eq_refl ltac:(constructor) Hr0) as (Hnew0 & _ & _).
  cbv zeta in Hnew, Hmoves, Hnew0.
  split; [reflexivity |]. split; [exact ascending_1_3 |]. split; [exact Hr |].
  split; [reflexivity |]. split; [exact Hnew |]. split.
  - apply (Hmoves eq_refl).
    + intros c [<- | [<- | []]]; reflexivity.
    + exists (finger 3). split; [right; left; reflexivity | reflexivity].
  - split; [reflexivity | exact Hnew0].
Defined.

Lemma not_carried_1 (frame : list Contact) :
  Forall (fun c => index c <> Some 1%N) frame -> ~ carried frame 1.
Proof.
  intros Hall (c & Hin & Hi). rewrite Forall_forall in Hall. exact (Hall c Hin Hi).
Qed.

(** Index 1 goes away and stays away. *)
Lemma vanished_contact_lifted_once_witness :
  let s := tracking_1_3 plain in
  let f1 := [finger 3] in
  let f2 := [finger 3; finger 5] in
  m_enabled s = true /\ StdSet.ascending (m_current s) /\
  is_blocked s f1 = false /\ is_blocked s f2 = false /\
  res (update (P := limits) f1 s) = inr tt /\
  In 1%N (m_current s) /\ ~ carried f1 1 /\ ~ carried f2 1 /\
  reports_on 1 (mt_reports 0 (out (update (P := limits) f1 s))) = [(1, -1)] /\
  reports_on 1 (mt_reports 0 (out (update (P := limits) f2
                                     (st (update (P := limits) f1 s))))) = [].
Proof.
  cbv zeta.
  assert (Hr : res (update (P := limits) [finger 3] (tracking_1_3 plain)) = inr tt)
    by reflexivity.
  assert (Hin : In 1%N (m_current (tracking_1_3 plain))) by (left; reflexivity).
  assert (Hn1 : ~ carried [finger 3] 1).
  { apply not_carried_1. repeat constructor; discriminate. }
  assert (Hn2 : ~ carried [finger 3; finger 5] 1).
  { apply not_carried_1. repeat constructor; discriminate. }
  destruct (vanished_contact_lifted_once (P := limits) [finger 3] [finger 3; finger 5]
              (tracking_1_3 plain) 1 eq_refl ascending_1_3 eq_refl eq_refl Hr
              Hin Hn1 Hn2) as [H1 H2].
  split; [reflexivity |]. split; [exact ascending_1_3 |].
  split; [reflexivity |]. split; [reflexivity |]. split; [exact Hr |].
  split; [exact Hin |]. split; [exact Hn1 |]. split; [exact Hn2 |].
  split; [exact (H1 0) | exact (H2 0)].
Defined.

Lemma calls_select_their_slots_witness :
  let s := tracking_1_3 plain in
  let c := Update [finger 3; palm 4; untracked] in
  StdSet.ascending (m_current s) /\
  mt_reports 0 (out (perform (P := limits) c s)) = [(3, 3); (4, -1); (1, -1)] /\
  mt_reports 7 (out (perform (P := limits) c s)) =
  mt_reports 0 (out (perform (P := limits) c s)).
Proof.
  cbv zeta. split; [exact ascending_1_3 |]. split; [reflexivity |].
  destruct (calls_select_their_slots (P := limits)
              (Update [finger 3; palm 4; untracked]) (tracking_1_3 plain)
              ascending_1_3) as (reports & _ & Hrep).
  rewrite (Hrep 7), (Hrep 0). reflexivity.
Defined.

Lemma oversized_index_throws_witness :
  let s := tracking_1_3 plain in
  let c := finger 4294967296 in
  m_enabled s = true /\ StdSet.ascending (m_current s) /\
  F64.INT32_MAX < Z.of_N 4294967296 /\
  value_or (stable c) true = true /\
  res (update (P := limits) [finger 3; c] s) = inl narrowing_error.
Proof.
  cbv zeta.
  assert (Hbig : F64.INT32_MAX < Z.of_N 4294967296) by reflexivity.
  split; [reflexivity |]. split; [exact ascending_1_3 |]. split; [exact Hbig |].
  split; [reflexivity |].
  exact (oversized_index_throws (P := limits) [finger 3; finger 4294967296]
           (tracking_1_3 plain) (finger 4294967296) 4294967296
           eq_refl ascending_1_3 (or_intror (or_introl eq_refl)) eq_refl Hbig
           (or_intror eq_refl)).
Defined.

End TouchMoreWitnesses.
